(** * Scalable Bundle Engine: a shallow embedding and its properties

    The embedded program is [src/programs/scalable_bundle_engine.js] together
    with [src/programs/reentrancy_guard.js].  Conventions of the embedding:

    - a JavaScript [Number] is an IEEE-754 binary64 value, which is exactly
      what [PrimFloat.float] is; counters and millisecond clocks, which only
      ever hold small integers, are kept in [Z];
    - [Date.now()] is an argument [now] of the operation that reads it;
    - a [Map] keyed by strings is a [gmap string _] where the iteration order
      is irrelevant and an insertion-ordered association list where it is
      not (the cache, whose eviction sorts the entries);
    - an object that the source mutates in place is threaded through as a
      value, and every holder of the object receives the updated value. *)

From Stdlib Require Import ZArith Lia PrimFloat Uint63 Floats.
From stdpp Require Import gmap strings list pretty sorting.

Local Open Scope Z_scope.

(* Decimal literals such as 0.7 denote the nearest binary64 value, as they
   do in JavaScript. *)
#[local] Set Warnings "-inexact-float".

(** ** JavaScript numbers *)

Module JsNumber.

(** [Number(z)] for an integer-valued counter [z]. *)
Definition of_Z (z : Z) : float :=
  if z <? 0 then PrimFloat.opp (PrimFloat.of_uint63 (Uint63.of_Z (- z)))
  else PrimFloat.of_uint63 (Uint63.of_Z z).

(** [x !== x] *)
Definition is_nan (x : float) : bool := negb (PrimFloat.eqb x x).

(** [Math.min(a, b)]: NaN is contagious and [-0] is below [+0]. *)
Definition Math_min (a b : float) : float :=
  if is_nan a || is_nan b then PrimFloat.nan
  else if PrimFloat.ltb a b then a
  else if PrimFloat.ltb b a then b
  else if PrimFloat.ltb (PrimFloat.div 1 a) 0 then a else b.

(** [Math.max(a, b)]. *)
Definition Math_max (a b : float) : float :=
  if is_nan a || is_nan b then PrimFloat.nan
  else if PrimFloat.ltb a b then b
  else if PrimFloat.ltb b a then a
  else if PrimFloat.ltb (PrimFloat.div 1 a) 0 then b else a.

(** [Number.isFinite(x)] *)
Definition isFinite (x : float) : bool := PrimFloat.is_finite x.

End JsNumber.

(** ** Binary64 arithmetic

    Read on the specification of binary64 that the standard library
    attaches to the primitive operations: the sign of a difference [x - y]
    follows the comparison [x < y], the comparisons form a weak order
    outside NaN, and rounding neither invents NaN nor overflows below the
    largest exponent. *)

Module FloatSpec.

(** Classes of binary64 values. *)
Definition not_nan (x : spec_float) : Prop :=
  match x with S754_nan => False | _ => True end.

Definition below_infinity (x : spec_float) : Prop :=
  match x with S754_nan | S754_infinity false => False | _ => True end.

Definition finite_nonzero (x : spec_float) : Prop :=
  match x with S754_finite _ _ _ => True | _ => False end.

(** [2^(digits - 1) <= p < 2^digits] *)
Lemma digits2_pos_bounds (p : positive) :
  2 ^ (Z.pos (digits2_pos p) - 1) <= Z.pos p < 2 ^ Z.pos (digits2_pos p).
Proof.
  induction p as [p IH|p IH|]; simpl digits2_pos.
  - rewrite Pos2Z.inj_succ.
    replace (Z.succ (Z.pos (digits2_pos p)) - 1) with (Z.succ (Z.pos (digits2_pos p) - 1)) by lia.
    rewrite !Z.pow_succ_r by lia. lia.
  - rewrite Pos2Z.inj_succ.
    replace (Z.succ (Z.pos (digits2_pos p)) - 1) with (Z.succ (Z.pos (digits2_pos p) - 1)) by lia.
    rewrite !Z.pow_succ_r by lia. lia.
  - simpl. lia.
Qed.

Lemma iter_xO_value (m d : positive) :
  Z.pos (Pos.iter xO m d) = Z.pos m * 2 ^ Z.pos d.
Proof.
  induction d as [|d IH] using Pos.peano_ind.
  - simpl. lia.
  - rewrite Pos.iter_succ, Pos2Z.inj_succ, Z.pow_succ_r by lia.
    rewrite Pos2Z.inj_xO, IH. lia.
Qed.

Lemma shl_align_value (m : positive) (e e' : Z) :
  e' <= e ->
  Z.pos (fst (shl_align m e e')) = Z.pos m * 2 ^ (e - e').
Proof.
  intros Hle. unfold shl_align.
  destruct (e' - e) as [|d|d] eqn:Hd; simpl fst.
  - replace (e - e') with 0 by lia. lia.
  - lia.
  - rewrite iter_xO_value. f_equal. f_equal. lia.
Qed.

Lemma binary_normalize_not_negative (m e : Z) :
  0 <= m ->
  SFltb (binary_normalize prec emax m e false) (S754_zero false) = false.
Proof.
  intros Hm. destruct m as [|p|p]; [reflexivity| |lia].
  unfold binary_normalize, binary_round, binary_round_aux.
  destruct (shl_align _ _ _) as [mz ez].
  destruct (shr_fexp _ _ _ _ _) as [mrs' e'].
  destruct (shr_fexp _ _ _ _ _) as [mrs'' e''].
  destruct (shr_m mrs''); [reflexivity| |reflexivity].
  destruct (_ <=? _); reflexivity.
Qed.

(** A valid finite float has at most [prec] digits, and exactly [prec]
    above the smallest exponent. *)
Lemma valid_digits (m : positive) (e : Z) :
  bounded prec emax m e = true ->
  Z.pos (digits2_pos m) <= prec /\ emin <= e
  /\ (emin < e -> Z.pos (digits2_pos m) = prec).
Proof.
  unfold bounded, canonical_mantissa, fexp. intros H.
  apply andb_prop in H as [H _]. apply Z.eqb_eq in H. lia.
Qed.

Lemma SFsub_not_negative (x y : spec_float) :
  valid_binary x = true -> valid_binary y = true ->
  SFltb x y = false ->
  SFltb (SF64sub x y) (S754_zero false) = false.
Proof.
  intros Hx Hy Hlt.
  destruct x as [sx|sx| |sx mx ex], y as [sy|sy| |sy my ey];
    try reflexivity;
    try (destruct sx; try destruct sy; try reflexivity; discriminate);
    try (destruct sy; try reflexivity; discriminate).
  unfold SF64sub, SFsub. apply binary_normalize_not_negative.
  simpl in Hx, Hy.
  apply valid_digits in Hx as (Hdx & Hex & Hnx).
  apply valid_digits in Hy as (Hdy & Hey & Hny).
  pose proof (digits2_pos_bounds mx) as Hbx.
  pose proof (digits2_pos_bounds my) as Hby.
  rewrite !shl_align_value by lia.
  unfold SFltb, SFcompare in Hlt.
  destruct sx, sy; cbn [cond_Zopp]; try discriminate.
  - (* both negative *)
    destruct (Z.compare_spec ex ey) as [Heq|Hl|Hg]; try discriminate.
    + subst ey. rewrite Z.min_id, Z.sub_diag. rewrite Z.pow_0_r, ?Z.mul_1_r.
      destruct (Pos.compare_cont Eq mx my) eqn:Hc; try discriminate;
        fold (Pos.compare mx my) in Hc.
      * apply Pos.compare_eq in Hc. subst. lia.
      * pose proof (proj1 (Pos.compare_lt_iff _ _) Hc). lia.
    + rewrite Z.min_l by lia. rewrite Z.sub_diag. rewrite Z.pow_0_r, ?Z.mul_1_r.
      assert (Hd : Z.pos (digits2_pos my) = prec) by (apply Hny; lia).
      rewrite Hd in Hby.
      assert (Hp : 2 ^ prec = 2 ^ (prec - 1) * 2) by reflexivity.
      assert (Ht : 2 <= 2 ^ (ey - ex)).
      { change 2 with (2 ^ 1) at 1. apply Z.pow_le_mono_r; lia. }
      assert (Hmx : Z.pos mx < 2 ^ prec).
      { eapply Z.lt_le_trans; [apply Hbx|]. apply Z.pow_le_mono_r; lia. }
      nia.
  - (* x >= 0 > y *)
    assert (0 < 2 ^ (ex - Z.min ex ey)) by (apply Z.pow_pos_nonneg; lia).
    assert (0 < 2 ^ (ey - Z.min ex ey)) by (apply Z.pow_pos_nonneg; lia).
    nia.
  - (* both positive *)
    destruct (Z.compare_spec ex ey) as [Heq|Hl|Hg]; try discriminate.
    + subst ey. rewrite Z.min_id, Z.sub_diag. rewrite Z.pow_0_r, ?Z.mul_1_r.
      destruct (Pos.compare_cont Eq mx my) eqn:Hc; try discriminate;
        fold (Pos.compare mx my) in Hc.
      * apply Pos.compare_eq in Hc. subst. lia.
      * pose proof (proj1 (Pos.compare_gt_iff _ _) Hc). lia.
    + rewrite Z.min_r by lia. rewrite Z.sub_diag. rewrite Z.pow_0_r, ?Z.mul_1_r.
      assert (Hd : Z.pos (digits2_pos mx) = prec) by (apply Hnx; lia).
      rewrite Hd in Hbx.
      assert (Hp : 2 ^ prec = 2 ^ (prec - 1) * 2) by reflexivity.
      assert (Ht : 2 <= 2 ^ (ex - ey)).
      { change 2 with (2 ^ 1) at 1. apply Z.pow_le_mono_r; lia. }
      assert (Hmy : Z.pos my < 2 ^ prec).
      { eapply Z.lt_le_trans; [apply Hby|]. apply Z.pow_le_mono_r; lia. }
      nia.
Qed.

(** *** Comparisons

    The order of binary64 as the comparisons of the primitive floats see
    it: total outside NaN, and blind to the sign of zero. *)

Lemma SFcompare_refl_finite s m e :
  SFcompare (S754_finite s m e) (S754_finite s m e) = Some Eq.
Proof.
  simpl. rewrite Z.compare_refl.
  change (PosDef.Pos.compare_cont Eq m m) with (Pos.compare m m).
  rewrite Pos.compare_refl. now destruct s.
Qed.

Lemma isFinite_spec x :
  JsNumber.isFinite x = match Prim2SF x with
                        | S754_zero _ | S754_finite _ _ _ => true
                        | _ => false
                        end.
Proof.
  unfold JsNumber.isFinite, is_finite, is_nan, is_infinity.
  rewrite !FloatAxioms.eqb_spec, abs_spec.
  change (Prim2SF infinity) with (S754_infinity false).
  destruct (Prim2SF x) as [s|s| |s m e]; try reflexivity.
  - now destruct s.
  - unfold SFeqb at 1. rewrite SFcompare_refl_finite. reflexivity.
Qed.

Lemma SFcompare_antisym x y :
  SFcompare y x = option_map CompOpp (SFcompare x y).
Proof.
  destruct x as [sx|sx| |sx mx ex], y as [sy|sy| |sy my ey]; simpl;
    try reflexivity; try (destruct sx; reflexivity); try (destruct sy; reflexivity);
    try (destruct sx, sy; reflexivity).
  change (PosDef.Pos.compare_cont Eq my mx) with (Pos.compare my mx).
  change (PosDef.Pos.compare_cont Eq mx my) with (Pos.compare mx my).
  rewrite (Z.compare_antisym ex ey), (Pos.compare_antisym mx my).
  destruct sx, sy, (ex ?= ey)%Z, (mx ?= my)%positive; reflexivity.
Qed.

Lemma is_nan_compare x :
  JsNumber.is_nan x = false -> forall y, JsNumber.is_nan y = false ->
  exists c, SFcompare (Prim2SF x) (Prim2SF y) = Some c.
Proof.
  unfold JsNumber.is_nan. intros Hx y Hy. apply negb_false_iff in Hx, Hy.
  rewrite FloatAxioms.eqb_spec in Hx, Hy. unfold SFeqb in Hx, Hy.
  destruct (Prim2SF x) as [sx|sx| |sx mx ex], (Prim2SF y) as [sy|sy| |sy my ey];
    simpl in *; try discriminate; eexists; reflexivity.
Qed.

Lemma leb_not_nan x y :
  PrimFloat.leb x y = true -> JsNumber.is_nan x = false /\ JsNumber.is_nan y = false.
Proof.
  unfold JsNumber.is_nan.
  rewrite FloatAxioms.leb_spec, !negb_false_iff, !FloatAxioms.eqb_spec.
  unfold SFleb, SFeqb.
  destruct (Prim2SF x) as [sx|sx| |sx mx ex], (Prim2SF y) as [sy|sy| |sy my ey];
    try discriminate; intros _; split; simpl; try reflexivity;
    try (destruct sx; reflexivity); try (destruct sy; reflexivity);
    rewrite Z.compare_refl;
    change (PosDef.Pos.compare_cont Eq ?m ?m) with (Pos.compare m m);
    rewrite Pos.compare_refl; try (destruct sx; reflexivity); destruct sy; reflexivity.
Qed.

Lemma leb_refl x : JsNumber.is_nan x = false -> PrimFloat.leb x x = true.
Proof.
  unfold JsNumber.is_nan.
  rewrite negb_false_iff, FloatAxioms.leb_spec, FloatAxioms.eqb_spec.
  unfold SFleb, SFeqb. now destruct (SFcompare _ _) as [[| |]|].
Qed.

Lemma ltb_leb x y : PrimFloat.ltb x y = true -> PrimFloat.leb x y = true.
Proof.
  rewrite FloatAxioms.ltb_spec, FloatAxioms.leb_spec. unfold SFltb, SFleb.
  now destruct (SFcompare _ _) as [[| |]|].
Qed.

Lemma ltb_false_leb x y :
  JsNumber.is_nan x = false -> JsNumber.is_nan y = false ->
  PrimFloat.ltb x y = false -> PrimFloat.leb y x = true.
Proof.
  intros Hx Hy. rewrite FloatAxioms.ltb_spec, FloatAxioms.leb_spec.
  unfold SFltb, SFleb. rewrite (SFcompare_antisym (Prim2SF x) (Prim2SF y)).
  destruct (is_nan_compare x Hx y Hy) as [c ->]. now destruct c.
Qed.

(** [Math.max] and [Math.min] of two numbers: one of the two, on the
    right side of both. *)
Lemma Math_max_spec a b :
  JsNumber.is_nan a = false -> JsNumber.is_nan b = false ->
  (JsNumber.Math_max a b = a \/ JsNumber.Math_max a b = b)
  /\ PrimFloat.leb a (JsNumber.Math_max a b) = true
  /\ PrimFloat.leb b (JsNumber.Math_max a b) = true.
Proof.
  intros Ha Hb. unfold JsNumber.Math_max. rewrite Ha, Hb. cbn [orb].
  destruct (PrimFloat.ltb a b) eqn:Hab.
  { split; [now right|]. split; [now apply ltb_leb | now apply leb_refl]. }
  destruct (PrimFloat.ltb b a) eqn:Hba.
  { split; [now left|]. split; [now apply leb_refl | now apply ltb_leb]. }
  destruct (PrimFloat.ltb (1 / a) 0).
  - split; [now right|]. split; [now apply ltb_false_leb | now apply leb_refl].
  - split; [now left|]. split; [now apply leb_refl | now apply ltb_false_leb].
Qed.

Lemma Math_min_spec a b :
  JsNumber.is_nan a = false -> JsNumber.is_nan b = false ->
  (JsNumber.Math_min a b = a \/ JsNumber.Math_min a b = b)
  /\ PrimFloat.leb (JsNumber.Math_min a b) a = true
  /\ PrimFloat.leb (JsNumber.Math_min a b) b = true.
Proof.
  intros Ha Hb. unfold JsNumber.Math_min. rewrite Ha, Hb. cbn [orb].
  destruct (PrimFloat.ltb a b) eqn:Hab.
  { split; [now left|]. split; [now apply leb_refl | now apply ltb_leb]. }
  destruct (PrimFloat.ltb b a) eqn:Hba.
  { split; [now right|]. split; [now apply ltb_leb | now apply leb_refl]. }
  destruct (PrimFloat.ltb (1 / a) 0).
  - split; [now left|]. split; [now apply leb_refl | now apply ltb_false_leb].
  - split; [now right|]. split; [now apply ltb_false_leb | now apply leb_refl].
Qed.

(** One shift to the right halves the mantissa. *)
Lemma shr_1_m mrs : 0 <= shr_m mrs -> shr_m (shr_1 mrs) = shr_m mrs / 2.
Proof.
  destruct mrs as [m r s]. simpl. intros Hm.
  destruct m as [|[p|p|]|p]; try lia; try reflexivity.
  - cbn [shr_1 shr_m]. apply (Z.div_unique _ 2 _ 1); lia.
  - cbn [shr_1 shr_m]. apply (Z.div_unique _ 2 _ 0); lia.
Qed.

Lemma iter_pos_shr_1_m (p : positive) : forall mrs,
  0 <= shr_m mrs ->
  shr_m (SpecFloat.iter_pos shr_1 p mrs) = shr_m mrs / 2 ^ Z.pos p.
Proof.
  induction p as [p IH|p IH|]; intros mrs Hm; simpl SpecFloat.iter_pos.
  - assert (H1 : 0 <= shr_m (shr_1 mrs)).
    { rewrite shr_1_m by exact Hm. apply Z.div_pos; lia. }
    assert (H2 : 0 <= shr_m (SpecFloat.iter_pos shr_1 p (shr_1 mrs))).
    { rewrite IH by exact H1. apply Z.div_pos; [exact H1|]. apply Z.pow_pos_nonneg; lia. }
    rewrite IH, IH, shr_1_m by assumption.
    rewrite !Z.div_div by (try apply Z.pow_pos_nonneg; lia).
    f_equal. change (Z.pos p~1) with (2 * Z.pos p + 1).
    replace (2 * Z.pos p + 1) with (1 + Z.pos p + Z.pos p) by lia.
    rewrite !Z.pow_add_r by lia. lia.
  - assert (H2 : 0 <= shr_m (SpecFloat.iter_pos shr_1 p mrs)).
    { rewrite IH by exact Hm. apply Z.div_pos; [exact Hm|]. apply Z.pow_pos_nonneg; lia. }
    rewrite IH, IH by assumption.
    rewrite !Z.div_div by (try apply Z.pow_pos_nonneg; lia).
    f_equal. change (Z.pos p~0) with (2 * Z.pos p).
    replace (2 * Z.pos p) with (Z.pos p + Z.pos p) by lia.
    rewrite !Z.pow_add_r by lia. lia.
  - rewrite shr_1_m by exact Hm. reflexivity.
Qed.

(** [shr_fexp] on a positive mantissa whose magnitude lies above the
    smallest exponent leaves a positive mantissa, at an exponent that is
    not below the smallest one. *)
Lemma shr_fexp_positive (m : positive) (e : Z) (l : location) :
  emin < Z.pos (digits2_pos m) + e ->
  e <= fexp prec emax (Z.pos (digits2_pos m) + e) ->
  let r := shr_fexp prec emax (Z.pos m) e l in
  0 < shr_m (fst r) /\ snd r = fexp prec emax (Z.pos (digits2_pos m) + e).
Proof.
  intros HD Hle. unfold shr_fexp, shr. cbn [Zdigits2].
  set (D := Z.pos (digits2_pos m) + e) in *.
  assert (Hf : emin <= fexp prec emax D < D).
  { unfold fexp, emin, SpecFloat.emin, prec, emax in *. lia. }
  destruct (fexp prec emax D - e) as [|n|n] eqn:Hn; cbn [fst snd].
  - split; [destruct l as [|[| |]]; simpl; lia | lia].
  - split; [|lia].
    rewrite iter_pos_shr_1_m by (destruct l as [|[| |]]; simpl; lia).
    replace (shr_m (shr_record_of_loc (Z.pos m) l)) with (Z.pos m)
      by (destruct l as [|[| |]]; reflexivity).
    pose proof (digits2_pos_bounds m) as [Hlow _].
    assert (Hpow : 2 ^ Z.pos n <= 2 ^ (Z.pos (digits2_pos m) - 1)).
    { apply Z.pow_le_mono_r; lia. }
    assert (0 < 2 ^ Z.pos n) by (apply Z.pow_pos_nonneg; lia).
    apply Z.div_str_pos. lia.
  - lia.
Qed.

Lemma digits2_pos_iter_xO (m d : positive) :
  Z.pos (digits2_pos (Pos.iter xO m d)) = Z.pos (digits2_pos m) + Z.pos d.
Proof.
  induction d as [|d IH] using Pos.peano_ind.
  - simpl. lia.
  - rewrite Pos.iter_succ. cbn [digits2_pos]. lia.
Qed.

(** Rounding a non-zero mantissa at an exponent that a valid float can
    carry never loses the sign: the result is a non-zero number or an
    infinity of the sign asked for. *)
Lemma binary_round_sign (sx : bool) (m : positive) (e : Z) :
  emin <= e ->
  match binary_round prec emax sx m e with
  | S754_finite s _ _ | S754_infinity s => s = sx
  | _ => False
  end.
Proof.
  intros He. unfold binary_round.
  set (D := Z.pos (digits2_pos m) + e).
  assert (Hf : emin <= fexp prec emax D < D).
  { unfold fexp, emin, SpecFloat.emin, prec, emax, D in *.
    pose proof (Pos2Z.is_pos (digits2_pos m)). lia. }
  assert (Hal : exists mz ez, shl_align m e (fexp prec emax D) = (mz, ez)
                /\ Z.pos (digits2_pos mz) + ez = D /\ ez <= fexp prec emax D).
  { unfold shl_align. destruct (fexp prec emax D - e) as [|d|d] eqn:Hd.
    - exists m, e. split; [reflexivity|]. fold D. lia.
    - exists m, e. split; [reflexivity|]. fold D. lia.
    - eexists _, _. split; [reflexivity|]. rewrite digits2_pos_iter_xO.
      unfold D in *. split; lia. }
  destruct Hal as (mz & ez & -> & HD & Hez).
  unfold binary_round_aux.
  pose proof (shr_fexp_positive mz ez loc_Exact) as H1.
  rewrite HD in H1. specialize (H1 ltac:(lia) Hez). cbv zeta in H1.
  destruct (shr_fexp prec emax (Z.pos mz) ez loc_Exact) as [mrs' e'].
  cbn [fst snd] in H1. destruct H1 as [Hm' He'].
  set (m2 := round_nearest_even (shr_m mrs') (loc_of_shr_record mrs')).
  assert (Hm2 : 0 < m2).
  { unfold m2, round_nearest_even.
    destruct (loc_of_shr_record mrs') as [|[| |]]; try lia.
    destruct (Z.even _); lia. }
  destruct m2 as [|p2|p2] eqn:Hp2; try lia.
  unfold shr_fexp at 1. cbn [Zdigits2 shr_record_of_loc].
  set (D2 := Z.pos (digits2_pos p2) + e').
  assert (Hf2 : emin <= fexp prec emax D2 < D2).
  { unfold fexp, emin, SpecFloat.emin, prec, emax, D2 in *.
    pose proof (Pos2Z.is_pos (digits2_pos p2)). lia. }
  unfold shr.
  destruct (fexp prec emax D2 - e') as [|n|n] eqn:Hn.
  - cbn [shr_m]. destruct (_ <=? _); reflexivity.
  - rewrite iter_pos_shr_1_m by (simpl; lia). cbn [shr_m].
    pose proof (digits2_pos_bounds p2) as [Hlow _].
    assert (Hpow : 2 ^ Z.pos n <= 2 ^ (Z.pos (digits2_pos p2) - 1)).
    { apply Z.pow_le_mono_r; unfold D2 in *; lia. }
    assert (0 < 2 ^ Z.pos n) by (apply Z.pow_pos_nonneg; lia).
    assert (Hq : 0 < Z.pos p2 / 2 ^ Z.pos n) by (apply Z.div_str_pos; lia).
    destruct (Z.pos p2 / 2 ^ Z.pos n); try lia.
    destruct (_ <=? _); reflexivity.
  - cbn [shr_m]. destruct (_ <=? _); reflexivity.
Qed.

Lemma binary_normalize_negative (m e : Z) :
  m < 0 -> emin <= e ->
  SFltb (binary_normalize prec emax m e false) (S754_zero false) = true.
Proof.
  intros Hm He. destruct m as [|p|p]; try lia.
  unfold binary_normalize. pose proof (binary_round_sign true p e He) as H.
  destruct (binary_round prec emax true p e) as [s|s| |s m' e'];
    try contradiction; now subst s.
Qed.

Lemma SFsub_negative (x y : spec_float) :
  valid_binary x = true -> valid_binary y = true ->
  SFltb x y = true ->
  SFltb (SF64sub x y) (S754_zero false) = true.
Proof.
  intros Hx Hy Hlt.
  destruct x as [sx|sx| |sx mx ex], y as [sy|sy| |sy my ey];
    try discriminate;
    try (destruct sx; try destruct sy; try reflexivity; discriminate);
    try (destruct sy; try reflexivity; discriminate).
  unfold SF64sub, SFsub.
  simpl in Hx, Hy.
  apply valid_digits in Hx as (Hdx & Hex & Hnx).
  apply valid_digits in Hy as (Hdy & Hey & Hny).
  apply binary_normalize_negative; [|lia].
  pose proof (digits2_pos_bounds mx) as Hbx.
  pose proof (digits2_pos_bounds my) as Hby.
  rewrite !shl_align_value by lia.
  assert (0 < 2 ^ (ex - Z.min ex ey)) by (apply Z.pow_pos_nonneg; lia).
  assert (0 < 2 ^ (ey - Z.min ex ey)) by (apply Z.pow_pos_nonneg; lia).
  unfold SFltb, SFcompare in Hlt.
  destruct sx, sy; cbn [cond_Zopp]; try discriminate.
  - (* both negative *)
    destruct (Z.compare_spec ex ey) as [Heq|Hl|Hg]; try discriminate.
    + subst ey. rewrite Z.min_id, Z.sub_diag. rewrite Z.pow_0_r, ?Z.mul_1_r.
      destruct (Pos.compare_cont Eq mx my) eqn:Hc; try discriminate;
        fold (Pos.compare mx my) in Hc.
      pose proof (proj1 (Pos.compare_gt_iff _ _) Hc). lia.
    + rewrite Z.min_r by lia. rewrite Z.sub_diag. rewrite Z.pow_0_r, ?Z.mul_1_r.
      assert (Hd : Z.pos (digits2_pos mx) = prec) by (apply Hnx; lia).
      rewrite Hd in Hbx.
      assert (Hp : 2 ^ prec = 2 ^ (prec - 1) * 2) by reflexivity.
      assert (Ht : 2 <= 2 ^ (ex - ey)).
      { change 2 with (2 ^ 1) at 1. apply Z.pow_le_mono_r; lia. }
      assert (Hmy : Z.pos my < 2 ^ prec).
      { eapply Z.lt_le_trans; [apply Hby|]. apply Z.pow_le_mono_r; lia. }
      nia.
  - (* x < 0 <= y *) nia.
  - (* both positive *)
    destruct (Z.compare_spec ex ey) as [Heq|Hl|Hg]; try discriminate.
    + subst ey. rewrite Z.min_id, Z.sub_diag. rewrite Z.pow_0_r, ?Z.mul_1_r.
      destruct (Pos.compare_cont Eq mx my) eqn:Hc; try discriminate;
        fold (Pos.compare mx my) in Hc.
      pose proof (proj1 (Pos.compare_lt_iff _ _) Hc). lia.
    + rewrite Z.min_l by lia. rewrite Z.sub_diag. rewrite Z.pow_0_r, ?Z.mul_1_r.
      assert (Hd : Z.pos (digits2_pos my) = prec) by (apply Hny; lia).
      rewrite Hd in Hby.
      assert (Hp : 2 ^ prec = 2 ^ (prec - 1) * 2) by reflexivity.
      assert (Ht : 2 <= 2 ^ (ey - ex)).
      { change 2 with (2 ^ 1) at 1. apply Z.pow_le_mono_r; lia. }
      assert (Hmx : Z.pos mx < 2 ^ prec).
      { eapply Z.lt_le_trans; [apply Hbx|]. apply Z.pow_le_mono_r; lia. }
      nia.
Qed.

(** The comparator [(a, b) => a - b] is negative exactly when [a < b]. *)
Lemma sub_ltb_zero (x y : float) :
  PrimFloat.ltb (x - y) 0 = PrimFloat.ltb x y.
Proof.
  rewrite !FloatAxioms.ltb_spec, sub_spec.
  change (Prim2SF 0) with (S754_zero false).
  destruct (SFltb (Prim2SF x) (Prim2SF y)) eqn:Hlt.
  - apply SFsub_negative; auto using Prim2SF_valid.
  - apply SFsub_not_negative; auto using Prim2SF_valid.
Qed.

(** Outside NaN the order is a weak order: what is below [z] is below
    [y], or [y] is below [z]. *)
Lemma SFltb_cotransitive (x y z : spec_float) :
  y <> S754_nan ->
  SFltb x z = true -> SFltb x y = true \/ SFltb y z = true.
Proof.
  intros Hy. unfold SFltb, SFcompare.
  destruct x as [sx|sx| |sx mx ex], y as [sy|sy| |sy my ey], z as [sz|sz| |sz mz ez];
    try congruence; try discriminate;
    try (destruct sx; try discriminate; try (now left); try (now right);
         destruct sy; try discriminate; try (now left); try (now right);
         destruct sz; try discriminate; try (now left); now right);
    try (destruct sy; try discriminate; try (now left); try (now right);
         destruct sz; try discriminate; try (now left); now right);
    try (destruct sx; try discriminate; try (now left); try (now right);
         destruct sz; try discriminate; try (now left); now right).
  all: try (destruct sz; try discriminate; try (now left); now right).
  all: try (destruct sx; try discriminate; try (now left); now right).
  all: try (destruct sy; try discriminate; try (now left); now right).
  all: change (PosDef.Pos.compare_cont Eq) with Pos.compare.
  all: destruct sx, sy, sz; try discriminate; try (now left); try (now right).
  all: destruct (Z.compare_spec ex ez), (Z.compare_spec ex ey), (Z.compare_spec ey ez);
    try lia; try discriminate; try (now left); try (now right).
  all: destruct (Pos.compare_spec mx mz), (Pos.compare_spec mx my), (Pos.compare_spec my mz);
    try lia; try discriminate; try (now left); try (now right).
Qed.


(** *** Results that are numbers

    Which operations can produce NaN, and which can overflow. *)

Lemma is_nan_spec x :
  JsNumber.is_nan x = match Prim2SF x with S754_nan => true | _ => false end.
Proof.
  unfold JsNumber.is_nan. rewrite FloatAxioms.eqb_spec. unfold SFeqb.
  destruct (Prim2SF x) as [s|s| |s m e]; try reflexivity.
  - now destruct s.
  - now rewrite SFcompare_refl_finite.
Qed.

Lemma Zdigits2_le (k j : Z) : 0 <= j -> 0 <= k < 2 ^ j -> Zdigits2 k <= j.
Proof.
  intros Hj [Hk Hlt]. destruct k as [|p|p]; simpl; try lia.
  pose proof (digits2_pos_bounds p) as [Hlow _].
  assert (H : Z.pos (digits2_pos p) - 1 < j); [|lia].
  apply (Z.pow_lt_mono_r_iff 2); lia.
Qed.

Lemma Zdigits2_bounds (k : Z) : 0 <= k -> 0 <= Zdigits2 k /\ k < 2 ^ Zdigits2 k.
Proof.
  intros Hk. destruct k as [|p|p]; simpl; try lia.
  pose proof (digits2_pos_bounds p). lia.
Qed.

(** Shifting to the right by [n] places: the exponent grows by [n], the
    mantissa loses [n] digits. *)
Lemma shr_spec (mrs : shr_record) (e n : Z) :
  0 <= shr_m mrs ->
  snd (shr mrs e n) = e + Z.max 0 n
  /\ shr_m (fst (shr mrs e n)) = shr_m mrs / 2 ^ Z.max 0 n.
Proof.
  intros Hm. unfold shr. destruct n as [|n|n]; cbn [fst snd].
  - split; [lia|]. now rewrite Z.div_1_r.
  - rewrite iter_pos_shr_1_m by exact Hm. split; [lia|]. reflexivity.
  - split; [lia|]. now rewrite Z.div_1_r.
Qed.

Lemma shr_fexp_spec (m e : Z) (l : location) :
  0 <= m ->
  let r := shr_fexp prec emax m e l in
  let n := Z.max 0 (fexp prec emax (Zdigits2 m + e) - e) in
  snd r = e + n /\ shr_m (fst r) = m / 2 ^ n.
Proof.
  intros Hm. cbv zeta. unfold shr_fexp.
  assert (Hr : shr_m (shr_record_of_loc m l) = m) by (now destruct l as [|[| |]]).
  destruct (shr_spec (shr_record_of_loc m l) e
              (fexp prec emax (Zdigits2 m + e) - e)) as [H1 H2]; [lia|].
  now rewrite H1, H2, Hr.
Qed.

Lemma round_nearest_even_bounds (m : Z) (l : location) :
  m <= round_nearest_even m l <= m + 1.
Proof.
  unfold round_nearest_even. destruct l as [|[| |]]; try lia.
  destruct (Z.even m); lia.
Qed.

(** Rounding never turns a mantissa that is not negative into NaN, and
    keeps the sign it is given. *)
Lemma binary_round_aux_sign (sx : bool) (m e : Z) (l : location) :
  0 <= m ->
  match binary_round_aux prec emax sx m e l with
  | S754_zero s | S754_finite s _ _ | S754_infinity s => s = sx
  | S754_nan => False
  end.
Proof.
  intros Hm. unfold binary_round_aux.
  pose proof (shr_fexp_spec m e l Hm) as H1. cbv zeta in H1.
  destruct (shr_fexp prec emax m e l) as [mrs' e']. cbn [fst snd] in H1.
  destruct H1 as [_ Hm'].
  pose proof (round_nearest_even_bounds (shr_m mrs') (loc_of_shr_record mrs')) as Hr.
  assert (Hm2 : 0 <= round_nearest_even (shr_m mrs') (loc_of_shr_record mrs')).
  { rewrite Hm' in Hr at 1. assert (0 <= m / 2 ^ Z.max 0 (fexp prec emax (Zdigits2 m + e) - e)).
    { apply Z.div_pos; [exact Hm|]. apply Z.pow_pos_nonneg; lia. }
    lia. }
  pose proof (shr_fexp_spec _ e' loc_Exact Hm2) as H2. cbv zeta in H2.
  destruct (shr_fexp prec emax _ e' loc_Exact) as [mrs'' e'']. cbn [fst snd] in H2.
  destruct H2 as [_ Hm''].
  assert (H0 : 0 <= shr_m mrs'').
  { rewrite Hm''. apply Z.div_pos; [exact Hm2|]. apply Z.pow_pos_nonneg; lia. }
  destruct (shr_m mrs''); [reflexivity| |lia].
  destruct (_ <=? _); reflexivity.
Qed.

(** Rounding does not overflow while the magnitude stays below the
    largest exponent. *)
Lemma binary_round_aux_finite (sx : bool) (m e : Z) (l : location) :
  0 <= m -> Zdigits2 m + e + 1 <= emax -> e <= emax - prec ->
  match binary_round_aux prec emax sx m e l with
  | S754_zero _ | S754_finite _ _ _ => True
  | _ => False
  end.
Proof.
  intros Hm HD He. unfold binary_round_aux.
  pose proof (shr_fexp_spec m e l Hm) as H1. cbv zeta in H1.
  destruct (shr_fexp prec emax m e l) as [mrs' e']. cbn [fst snd] in H1.
  destruct H1 as [He' Hm'].
  set (n := Z.max 0 (fexp prec emax (Zdigits2 m + e) - e)) in *.
  destruct (Zdigits2_bounds m Hm) as [Hd0 Hd].
  assert (Hpow : 0 < 2 ^ n) by (apply Z.pow_pos_nonneg; lia).
  assert (Hm'0 : 0 <= shr_m mrs') by (rewrite Hm'; apply Z.div_pos; lia).
  assert (Hm'lt : shr_m mrs' < 2 ^ Z.max 0 (Zdigits2 m - n)).
  { rewrite Hm'. destruct (Z.le_gt_cases n (Zdigits2 m)) as [Hle|Hgt].
    - rewrite Z.max_r by lia. apply Z.div_lt_upper_bound; [lia|].
      rewrite <- Z.pow_add_r by lia. now replace (n + (Zdigits2 m - n)) with (Zdigits2 m) by lia.
    - rewrite Z.max_l by lia. rewrite Z.div_small; [reflexivity|]. split; [lia|].
      eapply Z.lt_le_trans; [exact Hd|]. apply Z.pow_le_mono_r; lia. }
  pose proof (round_nearest_even_bounds (shr_m mrs') (loc_of_shr_record mrs')) as Hr.
  set (m2 := round_nearest_even (shr_m mrs') (loc_of_shr_record mrs')) in *.
  assert (Hm2 : 0 <= m2) by lia.
  assert (Hd2 : Zdigits2 m2 <= Z.max 0 (Zdigits2 m - n) + 1).
  { apply Zdigits2_le; [lia|]. split; [lia|].
    rewrite Z.pow_add_r by lia. change (2 ^ 1) with 2.
    assert (0 < 2 ^ Z.max 0 (Zdigits2 m - n)) by (apply Z.pow_pos_nonneg; lia). lia. }
  assert (Hfexp : forall D, D <= emax -> fexp prec emax D <= emax - prec).
  { intros D HDle. unfold fexp, SpecFloat.emin, prec, emax in *. lia. }
  assert (He'le : e' <= emax - prec).
  { rewrite He'. unfold n.
    pose proof (Hfexp (Zdigits2 m + e) ltac:(lia)). lia. }
  pose proof (shr_fexp_spec m2 e' loc_Exact Hm2) as H2. cbv zeta in H2.
  destruct (shr_fexp prec emax m2 e' loc_Exact) as [mrs'' e'']. cbn [fst snd] in H2.
  destruct H2 as [He'' Hm''].
  assert (He''le : e'' <= emax - prec).
  { rewrite He''.
    assert (HD2 : Zdigits2 m2 + e' <= emax).
    { unfold prec, emax in *. lia. }
    pose proof (Hfexp _ HD2). lia. }
  assert (H0 : 0 <= shr_m mrs'').
  { rewrite Hm''. apply Z.div_pos; [exact Hm2|]. apply Z.pow_pos_nonneg; lia. }
  destruct (shr_m mrs''); [exact I| |lia].
  apply Z.leb_le in He''le. now rewrite He''le.
Qed.

Lemma binary_round_aux_not_nan (sx : bool) (m e : Z) (l : location) :
  0 <= m -> not_nan (binary_round_aux prec emax sx m e l).
Proof.
  intros Hm. pose proof (binary_round_aux_sign sx m e l Hm) as H.
  now destruct (binary_round_aux prec emax sx m e l).
Qed.

Lemma binary_normalize_not_nan (m e : Z) (szero : bool) :
  not_nan (binary_normalize prec emax m e szero).
Proof.
  destruct m as [|p|p]; [exact I| |]; unfold binary_normalize, binary_round;
    destruct (shl_align _ _ _) as [mz ez]; now apply binary_round_aux_not_nan.
Qed.

Lemma SFmul_not_nan (x y : spec_float) :
  not_nan x -> finite_nonzero y -> not_nan (SF64mul x y).
Proof.
  destruct x as [sx|sx| |sx mx ex], y as [sy|sy| |sy my ey]; try easy.
  intros _ _. now apply binary_round_aux_not_nan.
Qed.

Lemma SFdiv_core_binary_nonneg (m1 m2 : positive) (e1 e2 : Z) :
  0 <= fst (fst (SFdiv_core_binary prec emax (Z.pos m1) e1 (Z.pos m2) e2)).
Proof.
  unfold SFdiv_core_binary.
  set (s := e1 - e2 - _).
  set (m' := match s with 0 => Z.pos m1 | Z.pos _ => _ | Z.neg _ => 0 end).
  assert (Hm' : 0 <= m').
  { unfold m'. destruct s; try lia. apply Z.shiftl_nonneg. lia. }
  pose proof (Z.div_pos m' (Z.pos m2) Hm' ltac:(lia)) as Hq.
  unfold Z.div in Hq.
  change (IntDef.Z.div_eucl m' (Z.pos m2)) with (Z.div_eucl m' (Z.pos m2)).
  now destruct (Z.div_eucl m' (Z.pos m2)).
Qed.

Lemma SFdiv_not_nan (x y : spec_float) :
  not_nan x -> not_nan y -> finite_nonzero x \/ finite_nonzero y ->
  not_nan (SF64div x y).
Proof.
  destruct x as [sx|sx| |sx mx ex], y as [sy|sy| |sy my ey];
    intros Hx Hy Hor; try contradiction; try (now destruct Hor); try exact I.
  unfold SF64div, SFdiv.
  pose proof (SFdiv_core_binary_nonneg mx my ex ey) as Hq.
  destruct (SFdiv_core_binary _ _ _ _ _ _) as [[mz ez] lz].
  now apply binary_round_aux_not_nan.
Qed.

Lemma SFadd_finite_not_nan (x y : spec_float) :
  not_nan x -> finite_nonzero y -> not_nan (SF64add x y).
Proof.
  destruct x as [sx|sx| |sx mx ex], y as [sy|sy| |sy my ey]; try easy.
  intros _ _. apply binary_normalize_not_nan.
Qed.

Lemma SFadd_below_infinity (x y : spec_float) :
  below_infinity x -> below_infinity y -> not_nan (SF64add x y).
Proof.
  destruct x as [sx|[|]| |sx mx ex], y as [sy|[|]| |sy my ey]; try easy.
  - now destruct sx, sy.
  - intros _ _. apply binary_normalize_not_nan.
Qed.

Lemma SFmul_finite_not_nan (x y : spec_float) :
  finite_nonzero x -> not_nan y -> not_nan (SF64mul x y).
Proof.
  destruct x as [sx|sx| |sx mx ex], y as [sy|sy| |sy my ey]; try easy.
  intros _ _. now apply binary_round_aux_not_nan.
Qed.

Lemma SFsub_finite_not_nan (x y : spec_float) :
  finite_nonzero x -> not_nan y -> not_nan (SF64sub x y).
Proof.
  destruct x as [sx|sx| |sx mx ex], y as [sy|sy| |sy my ey]; try easy.
  intros _ _. apply binary_normalize_not_nan.
Qed.

(** A factor that is at most one, scaled by a constant below one, does not
    overflow. *)
Lemma SFmul_below_infinity (x : spec_float) (my : positive) (ey : Z) :
  valid_binary x = true -> bounded prec emax my ey = true -> ey <= - prec ->
  SFleb x (Prim2SF 1) = true ->
  below_infinity (SF64mul x (S754_finite false my ey)).
Proof.
  intros Hx Hy Hey Hle.
  destruct x as [sx|[|]| |[|] mx ex]; try easy.
  - (* negative *)
    pose proof (binary_round_aux_sign (xorb true false) (Z.pos (mx * my)) (ex + ey)
                  loc_Exact ltac:(lia)) as H.
    unfold SF64mul, SFmul.
    destruct (binary_round_aux _ _ _ _ _ _) as [s|s| |s m e]; try easy.
    now subst s.
  - (* positive, at most one *)
    simpl in Hx. apply valid_digits in Hx as (Hdx & _ & _).
    apply valid_digits in Hy as (Hdy & _ & _).
    assert (Hex : ex <= -52).
    { change (Prim2SF 1) with (S754_finite false 4503599627370496 (-52)) in Hle.
      unfold SFleb, SFcompare in Hle.
      destruct (Z.compare_spec ex (-52)); try discriminate; lia. }
    pose proof (digits2_pos_bounds mx) as [_ Hbx].
    pose proof (digits2_pos_bounds my) as [_ Hby].
    assert (Hd : Zdigits2 (Z.pos (mx * my))
                 <= Z.pos (digits2_pos mx) + Z.pos (digits2_pos my)).
    { apply Zdigits2_le; [lia|]. split; [lia|].
      rewrite Z.pow_add_r, Pos2Z.inj_mul by lia. nia. }
    pose proof (binary_round_aux_finite (xorb false false) (Z.pos (mx * my)) (ex + ey)
                  loc_Exact ltac:(lia)) as H.
    unfold SF64mul, SFmul.
    destruct (binary_round_aux _ _ _ _ _ _) as [s|s| |s m e]; try easy;
      exfalso; apply H; unfold prec, emax in *; lia.
Qed.

Lemma of_uint63_not_nan (n : int) : not_nan (Prim2SF (of_uint63 n)).
Proof. rewrite of_uint63_spec. apply binary_normalize_not_nan. Qed.

Lemma of_Z_not_nan (z : Z) : not_nan (Prim2SF (JsNumber.of_Z z)).
Proof.
  unfold JsNumber.of_Z. destruct (z <? 0).
  - rewrite opp_spec. pose proof (of_uint63_not_nan (Uint63.of_Z (- z))) as H.
    now destruct (Prim2SF _).
  - apply of_uint63_not_nan.
Qed.

Lemma not_nan_spec (x : float) : JsNumber.is_nan x = false <-> not_nan (Prim2SF x).
Proof. rewrite is_nan_spec. now destruct (Prim2SF x). Qed.

Lemma ltb_asym (x y : float) :
  PrimFloat.ltb x y = true -> PrimFloat.ltb y x = false.
Proof.
  rewrite !FloatAxioms.ltb_spec. unfold SFltb.
  rewrite (SFcompare_antisym (Prim2SF x) (Prim2SF y)).
  now destruct (SFcompare _ _) as [[| |]|].
Qed.

Lemma ltb_cotransitive (x y z : float) :
  JsNumber.is_nan y = false ->
  PrimFloat.ltb x z = true ->
  PrimFloat.ltb x y = true \/ PrimFloat.ltb y z = true.
Proof.
  rewrite not_nan_spec, !FloatAxioms.ltb_spec. intros Hy.
  apply SFltb_cotransitive. now destruct (Prim2SF y).
Qed.

(** [Math.min(1, x)] of a number is a number that is at most one. *)
Lemma Math_min_one (x : float) :
  JsNumber.is_nan x = false ->
  JsNumber.is_nan (JsNumber.Math_min 1 x) = false
  /\ PrimFloat.leb (JsNumber.Math_min 1 x) 1 = true.
Proof.
  intros Hx. destruct (Math_min_spec 1 x eq_refl Hx) as (Hor & H1 & _).
  split; [|exact H1]. now destruct Hor as [-> | ->].
Qed.

(** The same facts on JavaScript numbers. *)
Lemma of_Z_number (z : Z) : JsNumber.is_nan (JsNumber.of_Z z) = false.
Proof. apply not_nan_spec, of_Z_not_nan. Qed.

Lemma div_number (x y : float) :
  JsNumber.is_nan x = false -> JsNumber.is_nan y = false ->
  finite_nonzero (Prim2SF x) \/ finite_nonzero (Prim2SF y) ->
  JsNumber.is_nan (x / y) = false.
Proof.
  rewrite !not_nan_spec, div_spec. apply SFdiv_not_nan.
Qed.

Lemma mul_number (x y : float) :
  JsNumber.is_nan x = false -> finite_nonzero (Prim2SF y) ->
  JsNumber.is_nan (x * y) = false.
Proof.
  rewrite !not_nan_spec, mul_spec. apply SFmul_not_nan.
Qed.

Lemma add_finite_number (x y : float) :
  JsNumber.is_nan x = false -> finite_nonzero (Prim2SF y) ->
  JsNumber.is_nan (x + y) = false.
Proof.
  rewrite !not_nan_spec, add_spec. apply SFadd_finite_not_nan.
Qed.

Lemma mul_finite_number (x y : float) :
  finite_nonzero (Prim2SF x) -> JsNumber.is_nan y = false ->
  JsNumber.is_nan (x * y) = false.
Proof.
  rewrite !not_nan_spec, mul_spec. apply SFmul_finite_not_nan.
Qed.

Lemma sub_finite_number (x y : float) :
  finite_nonzero (Prim2SF x) -> JsNumber.is_nan y = false ->
  JsNumber.is_nan (x - y) = false.
Proof.
  rewrite !not_nan_spec, sub_spec. apply SFsub_finite_not_nan.
Qed.

Lemma add_below_infinity (x y : float) :
  below_infinity (Prim2SF x) -> below_infinity (Prim2SF y) ->
  JsNumber.is_nan (x + y) = false.
Proof.
  rewrite not_nan_spec, add_spec. apply SFadd_below_infinity.
Qed.

(** [Math.min(1, x) * c] for a number [x] and a positive constant [c]
    below one: a number, and not [+Infinity]. *)
Lemma capped_factor (x c : float) (m : positive) (e : Z) :
  Prim2SF c = S754_finite false m e -> e <= - prec ->
  JsNumber.is_nan x = false ->
  below_infinity (Prim2SF (JsNumber.Math_min 1 x * c)).
Proof.
  intros Hc He Hx. destruct (Math_min_one x Hx) as [_ Hle].
  rewrite FloatAxioms.leb_spec in Hle. rewrite mul_spec, Hc.
  pose proof (Prim2SF_valid c) as Hvalid. rewrite Hc in Hvalid.
  apply SFmul_below_infinity; auto using Prim2SF_valid.
Qed.

End FloatSpec.

(** ** SafeMath *)

Module SafeMath.
Import JsNumber.
Local Open Scope float_scope.

(** [Number.MAX_SAFE_INTEGER], 2^53 - 1. *)
Definition MAX_SAFE_INTEGER : float := 9007199254740991.

Definition add (a b : float) : float :=
  let result := a + b in
  if (result <? a) || (result <? b) then MAX_SAFE_INTEGER else result.

Definition subtract (a b : float) : float :=
  if a <? b then 0 else a - b.

Definition multiply (a b : float) : float :=
  if (a =? 0) || (b =? 0) then 0
  else
    let result := a * b in
    if negb (result / a =? b) || negb (result / b =? a)
    then MAX_SAFE_INTEGER else result.

Definition divide (a b : float) : float :=
  if b =? 0 then 0 else a / b.

Definition clamp (value min max : float) : float :=
  Math_min (Math_max value min) max.

Definition percentage (value pct : float) : float :=
  multiply value (divide pct 100).

(** The sum of two floats is one float: the comparison against the operands
    can only succeed when an operand is negative. *)
Example add_small : add 5 3 = 8.
Proof. reflexivity. Qed.

Example add_negative_operand_saturates : add 5 (-3) = MAX_SAFE_INTEGER.
Proof. reflexivity. Qed.

(** C5. [add] does not saturate at the safe-integer boundary: the sum of
    [MAX_SAFE_INTEGER] and [1] is 2^53, which is not below either operand,
    so the guard is not taken and the value returned exceeds
    [MAX_SAFE_INTEGER]. *)
Theorem add_max_safe_exceeds :
  add MAX_SAFE_INTEGER 1 = 9007199254740992
  /\ (MAX_SAFE_INTEGER <? add MAX_SAFE_INTEGER 1) = true
  /\ (add MAX_SAFE_INTEGER 1 =? MAX_SAFE_INTEGER) = false.
Proof. repeat split; vm_compute; reflexivity. Qed.

Lemma subtract_underflow (a b : float) :
  (a <? b) = true -> subtract a b = 0.
Proof. intros Hlt. unfold subtract. now rewrite Hlt. Qed.

Lemma eqb_zero_pos : (0 =? 0) = true.
Proof. reflexivity. Qed.

Lemma divide_by_zero (a : float) : divide a 0 = 0.
Proof. unfold divide. now rewrite eqb_zero_pos. Qed.

Lemma divide_by_negative_zero (a : float) : divide a (-0) = 0.
Proof. reflexivity. Qed.

Lemma subtract_not_negative (a b : float) : (subtract a b <? 0) = false.
Proof.
  unfold subtract. destruct (a <? b) eqn:Hlt; [reflexivity|].
  rewrite ltb_spec in Hlt. rewrite ltb_spec, sub_spec.
  change (Prim2SF 0) with (S754_zero false).
  apply FloatSpec.SFsub_not_negative; auto using Prim2SF_valid.
Qed.

(** C8. Whenever [b > a], [subtract a b] is [0]; whatever [a] and [b],
    the result of [subtract] is not below zero; [divide c 0] is [0] for
    every [c], also for the zero of negative sign; both functions are
    total, so neither raises. *)
Theorem subtract_divide_saturate (a b c : float) :
  ((a <? b) = true -> subtract a b = 0)
  /\ (subtract a b <? 0) = false
  /\ divide c 0 = 0 /\ divide c (-0) = 0.
Proof.
  split; [apply subtract_underflow|].
  split; [apply subtract_not_negative|].
  split; [apply divide_by_zero | apply divide_by_negative_zero].
Qed.

(** The two instances the specification lists: [subtract(3,5)] and
    [divide(5,0)]. *)
Lemma subtract_divide_saturate_witness :
  subtract 3 5 = 0 /\ (subtract 3 5 <? 0) = false
  /\ divide 5 0 = 0 /\ divide 5 (-0) = 0.
Proof.
  destruct (subtract_divide_saturate 3 5 5) as (Hzero & Hsign & Hdiv & Hdiv').
  split; [apply Hzero; reflexivity|]. auto.
Defined.

(** X1. [multiply] returns a finite number whatever its operands,
    infinities and NaN included: a product that is NaN or infinite fails
    the division check and gives [MAX_SAFE_INTEGER].  So does
    [percentage], which ends in [multiply]. *)
Theorem multiply_finite (a b : float) :
  isFinite (multiply a b) = true
  /\ isFinite (percentage a b) = true.
Proof.
  assert (H : forall x y, isFinite (multiply x y) = true);
    [|split; [apply H | apply (H a (divide b 100))]].
  clear a b. intros a b. unfold multiply.
  destruct ((a =? 0) || (b =? 0)); [reflexivity|].
  cbv zeta.
  destruct (a * b / a =? b) eqn:Ha; [|reflexivity].
  destruct (a * b / b =? a) eqn:Hb; [|reflexivity].
  cbn [negb orb]. rewrite FloatSpec.isFinite_spec.
  rewrite FloatAxioms.eqb_spec, div_spec in Ha, Hb.
  destruct (Prim2SF (a * b)) as [s|s| |s m e]; try reflexivity.
  - destruct (Prim2SF a) as [sa|sa| |sa ma ea], (Prim2SF b) as [sb|sb| |sb mb eb];
      unfold SFeqb, SFcompare, SF64div, SFdiv in Ha, Hb; try congruence;
      destruct s; try destruct sa; try destruct sb; simpl in Ha, Hb; congruence.
  - destruct (Prim2SF a) as [sa|sa| |sa ma ea]; discriminate.
Qed.

(** X2. For bounds [min <= max] and a value that is not NaN,
    [clamp] returns a number between the bounds, both included. *)
Theorem clamp_within_bounds (value min max : float) :
  is_nan value = false -> (min <=? max) = true ->
  (min <=? clamp value min max) = true /\ (clamp value min max <=? max) = true.
Proof.
  intros Hv Hle. destruct (FloatSpec.leb_not_nan _ _ Hle) as [Hmin Hmax].
  unfold clamp.
  destruct (FloatSpec.Math_max_spec value min Hv Hmin) as (Hcase & _ & Hlow).
  assert (Hm : is_nan (Math_max value min) = false) by now destruct Hcase as [-> | ->].
  destruct (FloatSpec.Math_min_spec (Math_max value min) max Hm Hmax)
    as (Hcase' & _ & Hhigh).
  split; [|exact Hhigh].
  destruct Hcase' as [-> | ->]; assumption.
Qed.

Lemma clamp_within_bounds_witness :
  (0 <=? clamp 150 0 100) = true /\ (clamp 150 0 100 <=? 100) = true.
Proof. apply (clamp_within_bounds 150 0 100); reflexivity. Defined.

End SafeMath.

(** ** Insertion-ordered maps

    A JavaScript [Map] iterates in insertion order; [set] on a present key
    keeps the key's position. *)

Module OrderedMap.
Section WithValue.
Context {V : Type}.

Fixpoint get (key : string) (m : list (string * V)) : option V :=
  match m with
  | [] => None
  | (k, v) :: m' => if String.eqb k key then Some v else get key m'
  end.

Definition has (key : string) (m : list (string * V)) : bool :=
  match get key m with Some _ => true | None => false end.

Fixpoint set (key : string) (v : V) (m : list (string * V)) : list (string * V) :=
  match m with
  | [] => [(key, v)]
  | (k, w) :: m' =>
      if String.eqb k key then (k, v) :: m' else (k, w) :: set key v m'
  end.

Definition delete (key : string) (m : list (string * V)) : list (string * V) :=
  List.filter (fun e => negb (String.eqb (fst e) key)) m.

Lemma get_set_eq key v m : get key (set key v m) = Some v.
Proof.
  induction m as [|[k w] m IH]; simpl.
  - now rewrite String.eqb_refl.
  - destruct (String.eqb k key) eqn:E; simpl; rewrite E; [reflexivity | exact IH].
Qed.

Lemma get_delete_eq key m : get key (delete key m) = None.
Proof.
  induction m as [|[k w] m IH]; simpl; [reflexivity|].
  destruct (String.eqb k key) eqn:E; simpl; [exact IH|].
  now rewrite E.
Qed.

Lemma length_set_le key v m : (length (set key v m) <= S (length m))%nat.
Proof.
  induction m as [|[k w] m IH]; simpl; [lia|].
  destruct (String.eqb k key); simpl; lia.
Qed.

Lemma length_set_absent key v m :
  get key m = None -> length (set key v m) = S (length m).
Proof.
  induction m as [|[k w] m IH]; simpl; [reflexivity|].
  destruct (String.eqb k key); simpl; [discriminate|].
  intros H. now rewrite IH.
Qed.

Lemma length_set_present key v m :
  get key m <> None -> length (set key v m) = length m.
Proof.
  induction m as [|[k w] m IH]; simpl; [congruence|].
  destruct (String.eqb k key); simpl; [reflexivity|].
  intros H. now rewrite IH.
Qed.

Lemma keys_set key v m :
  NoDup (map fst m) -> NoDup (map fst (set key v m)).
Proof.
  induction m as [|[k w] m IH]; simpl.
  - intros _. apply NoDup_singleton.
  - rewrite NoDup_cons. intros [Hk Hm].
    destruct (String.eqb_spec k key) as [->|Hne]; simpl.
    + now apply NoDup_cons.
    + apply NoDup_cons. split; [|auto].
      intros Hin. apply Hk. clear IH Hm Hk.
      induction m as [|[k' w'] m IH]; simpl in *.
      * apply list_elem_of_singleton in Hin. congruence.
      * destruct (String.eqb_spec k' key) as [->|Hne']; simpl in *;
          apply elem_of_cons in Hin as [->|Hin];
          try (now apply list_elem_of_here);
          apply list_elem_of_further; auto.
Qed.

Lemma keys_delete key m :
  NoDup (map fst m) -> NoDup (map fst (delete key m)).
Proof.
  unfold delete. induction m as [|[k w] m IH]; simpl; [auto|].
  rewrite NoDup_cons. intros [Hk Hm]. destruct (negb _); simpl; [|auto].
  apply NoDup_cons. split; [|auto].
  rewrite list_elem_of_In, in_map_iff in *. intros (e & He & Hin).
  apply Hk. exists e. apply List.filter_In in Hin. tauto.
Qed.

Lemma length_delete_le key m : (length (delete key m) <= length m)%nat.
Proof. apply List.filter_length_le. Qed.

(** Deleting a key that is present, in a map without repeated keys, removes
    one entry. *)
Lemma length_delete_present key m :
  NoDup (map fst m) -> key ∈ map fst m ->
  S (length (delete key m)) = length m.
Proof.
  unfold delete. induction m as [|[k w] m IH]; simpl.
  - intros _ Hin. now apply elem_of_nil in Hin.
  - rewrite NoDup_cons. intros [Hk Hm] Hin.
    destruct (String.eqb_spec k key) as [->|Hne]; simpl.
    + f_equal. clear IH Hin Hm.
      induction m as [|[k' w'] m IH]; simpl in *; [reflexivity|].
      apply not_elem_of_cons in Hk as [Hne Hk].
      destruct (String.eqb_spec k' key); [congruence|]. simpl. f_equal. auto.
    + f_equal. apply IH; [exact Hm|].
      apply elem_of_cons in Hin as [->|Hin]; [congruence | exact Hin].
Qed.

Lemma keys_delete_other key key' m :
  key' <> key -> key' ∈ map fst m -> key' ∈ map fst (delete key m).
Proof.
  intros Hne. rewrite !list_elem_of_In, !in_map_iff.
  intros ([k w] & Hk & Hin). simpl in Hk. subst k.
  exists (key', w). split; [reflexivity|]. unfold delete.
  apply List.filter_In. split; [exact Hin|]. simpl.
  now destruct (String.eqb_spec key' key).
Qed.

End WithValue.
End OrderedMap.

(** ** CacheManager *)

Module CacheManager.
Section WithValue.
Context {V : Type}.

(** A cache entry: [{ value, expiresAt, lastAccessed }]. *)
Record item := Item {
  value : V;
  expiresAt : Z;
  lastAccessed : Z
}.

(** The constructor's [config] argument; an absent field is [None]. *)
Record config := Config {
  TTL : option Z;
  MAX_SIZE : option Z;
  PRUNE_INTERVAL : option Z
}.

Record t := Cache {
  ttl : Z;
  maxSize : Z;
  pruneInterval : Z;
  cache : list (string * item);
  lastPruneTime : Z
}.

(** [x || d] on an optional number: absent and [0] both give the default. *)
Definition or_default (x : option Z) (d : Z) : Z :=
  match x with
  | Some v => if v =? 0 then d else v
  | None => d
  end.

Definition new (cfg : config) (now : Z) : t :=
  {| ttl := or_default (TTL cfg) 300000;
     maxSize := or_default (MAX_SIZE cfg) 1000;
     pruneInterval := or_default (PRUNE_INTERVAL cfg) 60000;
     cache := [];
     lastPruneTime := now |}.

Definition size (c : t) : Z := Z.of_nat (length (cache c)).

Definition with_cache (c : t) (m : list (string * item)) : t :=
  {| ttl := ttl c; maxSize := maxSize c; pruneInterval := pruneInterval c;
     cache := m; lastPruneTime := lastPruneTime c |}.

(** [get(key)]: the value, or [None] for the source's [null]. *)
Definition get (key : string) (now : Z) (c : t) : option V * t :=
  match OrderedMap.get key (cache c) with
  | None => (None, c)
  | Some it =>
      if now >? expiresAt it
      then (None, with_cache c (OrderedMap.delete key (cache c)))
      else
        let it' := {| value := value it; expiresAt := expiresAt it;
                      lastAccessed := now |} in
        (Some (value it), with_cache c (OrderedMap.set key it' (cache c)))
  end.

(** [Array.prototype.sort] with the comparator
    [(a, b) => a[1].lastAccessed - b[1].lastAccessed]: a stable sort,
    ascending in [lastAccessed]. *)
Fixpoint insert_by_access (e : string * item) (l : list (string * item))
  : list (string * item) :=
  match l with
  | [] => [e]
  | e' :: l' =>
      if lastAccessed (snd e') <? lastAccessed (snd e)
      then e' :: insert_by_access e l'
      else e :: l
  end.

Definition sort_by_access (l : list (string * item)) : list (string * item) :=
  foldr insert_by_access [] l.

Definition delete_keys (keys : list string) (m : list (string * item))
  : list (string * item) :=
  foldl (fun m k => OrderedMap.delete k m) m keys.

Definition prune (force : bool) (now : Z) (c : t) : t :=
  if negb force && (now - lastPruneTime c <? pruneInterval c) then c
  else
    let live := List.filter (fun e => negb (now >? expiresAt (snd e))) (cache c) in
    let kept :=
      if Z.of_nat (length live) >? maxSize c then
        let items := sort_by_access live in
        let itemsToRemove :=
          take (Z.to_nat (Z.of_nat (length items) - maxSize c)) items in
        delete_keys (map fst itemsToRemove) live
      else live in
    {| ttl := ttl c; maxSize := maxSize c; pruneInterval := pruneInterval c;
       cache := kept; lastPruneTime := now |}.

(** [ttl || this.ttl] *)
Definition effective_ttl (c : t) (ttl_arg : option Z) : Z :=
  or_default ttl_arg (ttl c).

Definition set (key : string) (v : V) (ttl_arg : option Z) (now : Z) (c : t) : t :=
  let c1 := if size c >=? maxSize c then prune true now c else c in
  let it := {| value := v; expiresAt := now + effective_ttl c1 ttl_arg;
               lastAccessed := now |} in
  with_cache c1 (OrderedMap.set key it (cache c1)).

Definition delete (key : string) (c : t) : t :=
  with_cache c (OrderedMap.delete key (cache c)).

(** The object returned by [getStats()]. *)
Record stats := Stats {
  stats_size : Z;
  stats_maxSize : Z;
  expiredCount : Z;
  stats_lastPruneTime : Z
}.

Definition getStats (now : Z) (c : t) : stats :=
  {| stats_size := size c;
     stats_maxSize := maxSize c;
     expiredCount :=
       Z.of_nat (length (List.filter (fun e => now >? expiresAt (snd e)) (cache c)));
     stats_lastPruneTime := lastPruneTime c |}.

End WithValue.

Arguments item : clear implicits.
Arguments t : clear implicits.

(** The scenario of the specification's TTL property: [set(k, v, 50)] at
    time [1000], to be read at once and again 60 ms later. *)
Definition ttl_scenario : t string :=
  set "k" "v" (Some 50) 1000 (new (Config None None None) 1000).

(** Four insertions at one instant into a cache of capacity three. *)
Definition four_sets : t string :=
  let c0 := new (Config (Some 100000) (Some 3) (Some 50)) 0 in
  set "key4" "value4" None 0
    (set "key3" "value3" None 0
      (set "key2" "value2" None 0
        (set "key1" "value1" None 0 c0))).

(** The operations of the cache, for sequences of calls. *)
Inductive operation (V : Type) :=
| DoSet (key : string) (v : V) (ttl_arg : option Z) (now : Z)
| DoGet (key : string) (now : Z)
| DoDelete (key : string)
| DoPrune (force : bool) (now : Z).

Arguments DoSet {V}.
Arguments DoGet {V}.
Arguments DoDelete {V}.
Arguments DoPrune {V}.

Definition perform {V : Type} (c : t V) (o : operation V) : t V :=
  match o with
  | DoSet key v ttl_arg now => set key v ttl_arg now c
  | DoGet key now => snd (get key now c)
  | DoDelete key => delete key c
  | DoPrune force now => prune force now c
  end.

(** The caches a program can hold: a new cache and any calls on it. *)
Definition run {V : Type} (cfg : config) (now0 : Z) (operations : list (operation V))
  : t V :=
  foldl perform (new cfg now0) operations.

(** The run of the repository's cache test, with one more insertion. *)
Definition five_sets : list (operation string) :=
  [DoSet "key1" "value1" None 0; DoSet "key2" "value2" None 1;
   DoSet "key3" "value3" None 2; DoGet "key1" 3;
   DoSet "key4" "value4" None 4; DoSet "key5" "value5" None 5].

(** *** Expiry *)

Section Expiry.
Context {V : Type}.

Lemma get_expired key now (c : t V) it :
  OrderedMap.get key (cache c) = Some it ->
  expiresAt it < now ->
  fst (get key now c) = None
  /\ OrderedMap.has key (cache (snd (get key now c))) = false.
Proof.
  intros Hget Hexp. unfold get. rewrite Hget.
  destruct (Z.gtb_spec now (expiresAt it)) as [_|Hle]; [|lia].
  simpl. split; [reflexivity|].
  unfold OrderedMap.has. now rewrite OrderedMap.get_delete_eq.
Qed.

Lemma get_some_live key now (c : t V) v :
  fst (get key now c) = Some v ->
  exists it, OrderedMap.get key (cache c) = Some it
             /\ value it = v /\ now <= expiresAt it.
Proof.
  unfold get. destruct (OrderedMap.get key (cache c)) as [it|]; [|discriminate].
  destruct (Z.gtb_spec now (expiresAt it)) as [|Hle]; [discriminate|].
  simpl. intros [= <-]. exists it. auto.
Qed.

Lemma get_after_set key v ttl_arg t0 now (c : t V) :
  let c1 := set key v ttl_arg t0 c in
  (now <= t0 + effective_ttl c ttl_arg -> fst (get key now c1) = Some v)
  /\ (t0 + effective_ttl c ttl_arg < now ->
      fst (get key now c1) = None
      /\ OrderedMap.has key (cache (snd (get key now c1))) = false).
Proof.
  intros c1.
  assert (Hget : OrderedMap.get key (cache c1)
                 = Some {| value := v; expiresAt := t0 + effective_ttl c ttl_arg;
                           lastAccessed := t0 |}).
  { unfold c1, set. cbn [cache with_cache].
    replace (effective_ttl (if size c >=? maxSize c then prune true t0 c else c) ttl_arg)
      with (effective_ttl c ttl_arg).
    - apply OrderedMap.get_set_eq.
    - unfold effective_ttl. destruct (size c >=? maxSize c); reflexivity. }
  split.
  - intros Hle. unfold get. rewrite Hget. cbn [expiresAt value].
    destruct (Z.gtb_spec now (t0 + effective_ttl c ttl_arg)); [lia | reflexivity].
  - intros Hlt. apply (get_expired key now c1 _ Hget). exact Hlt.
Qed.

End Expiry.

(** *** Size *)

Section Size.
Context {V : Type}.

Lemma insert_by_access_perm (e : string * item V) l :
  insert_by_access e l ≡ₚ e :: l.
Proof.
  induction l as [|e' l IH]; simpl; [reflexivity|].
  destruct (_ <? _); [|reflexivity]. rewrite IH. apply perm_swap.
Qed.

Lemma sort_by_access_perm (l : list (string * item V)) : sort_by_access l ≡ₚ l.
Proof.
  induction l as [|e l IH]; simpl; [reflexivity|].
  now rewrite insert_by_access_perm, IH.
Qed.

Lemma delete_keys_spec keys : forall (m : list (string * item V)),
  NoDup (map fst m) -> NoDup keys -> (forall k, k ∈ keys -> k ∈ map fst m) ->
  NoDup (map fst (delete_keys keys m))
  /\ (length (delete_keys keys m) + length keys = length m)%nat.
Proof.
  induction keys as [|k keys IH]; intros m Hm Hkeys Hsub; simpl.
  - split; [exact Hm | lia].
  - apply NoDup_cons in Hkeys as [Hk Hkeys].
    destruct (IH (OrderedMap.delete k m)) as [Hnd Hlen].
    + now apply OrderedMap.keys_delete.
    + exact Hkeys.
    + intros k' Hk'. apply OrderedMap.keys_delete_other.
      * intros ->. contradiction.
      * apply Hsub. now apply list_elem_of_further.
    + split; [exact Hnd|].
      pose proof (OrderedMap.length_delete_present k m Hm
                    (Hsub k (list_elem_of_here _ _))).
      fold (delete_keys keys (OrderedMap.delete k m)). lia.
Qed.

Lemma filter_keys_NoDup (f : string * item V -> bool) m :
  NoDup (map fst m) -> NoDup (map fst (List.filter f m)).
Proof.
  induction m as [|e m IH]; simpl; [auto|].
  rewrite NoDup_cons. intros [He Hm]. destruct (f e); simpl; [|auto].
  apply NoDup_cons. split; [|auto].
  rewrite list_elem_of_In, in_map_iff in *. intros (e' & Heq & Hin).
  apply He. exists e'. apply List.filter_In in Hin. tauto.
Qed.

(** [prune] never adds an entry, and a forced [prune] brings the cache
    down to [maxSize], not below it. *)
Lemma prune_spec force now (c : t V) :
  NoDup (map fst (cache c)) -> 0 <= maxSize c ->
  NoDup (map fst (cache (prune force now c)))
  /\ maxSize (prune force now c) = maxSize c
  /\ size (prune force now c) <= size c
  /\ (force = true -> size (prune force now c) <= maxSize c).
Proof.
  intros Hnd Hmax. unfold prune, size.
  destruct (negb force && _) eqn:Hskip.
  { split; [exact Hnd|]. split; [reflexivity|]. split; [lia|].
    intros ->. discriminate. }
  cbn [cache maxSize].
  set (live := List.filter _ (cache c)).
  assert (Hlive : NoDup (map fst live)) by now apply filter_keys_NoDup.
  assert (Hle : (length live <= length (cache c))%nat)
    by apply List.filter_length_le.
  destruct (Z.gtb_spec (Z.of_nat (length live)) (maxSize c)) as [Hover|Hfits].
  - set (n := Z.to_nat (Z.of_nat (length (sort_by_access live)) - maxSize c)).
    set (keys := map fst (take n (sort_by_access live))).
    assert (Hsorted : length (sort_by_access live) = length live)
      by apply Permutation_length, sort_by_access_perm.
    assert (Hkeys : NoDup (map fst (sort_by_access live)))
      by now rewrite (Permutation_map fst (sort_by_access_perm live)).
    destruct (delete_keys_spec keys live Hlive) as [Hnd' Hlen].
    + unfold keys. rewrite <- (take_drop n (sort_by_access live)), map_app in Hkeys.
      now apply NoDup_app in Hkeys as (Htake & _).
    + intros k Hk. unfold keys in Hk.
      rewrite <- (Permutation_map fst (sort_by_access_perm live)).
      rewrite <- (take_drop n (sort_by_access live)), map_app.
      apply elem_of_app. now left.
    + assert (Hn : length keys = n).
      { unfold keys. rewrite length_map, length_take. lia. }
      split; [exact Hnd'|]. split; [reflexivity|]. lia.
  - split; [exact Hlive|]. split; [reflexivity|]. lia.
Qed.

Lemma perform_spec (c : t V) (o : operation V) :
  NoDup (map fst (cache c)) -> 0 <= maxSize c -> size c <= maxSize c + 1 ->
  NoDup (map fst (cache (perform c o)))
  /\ maxSize (perform c o) = maxSize c
  /\ size (perform c o) <= maxSize c + 1.
Proof.
  intros Hnd Hmax Hsize. destruct o as [key v ttl_arg now|key now|key|force now];
    simpl.
  - unfold set. set (c1 := if size c >=? maxSize c then prune true now c else c).
    assert (H1 : NoDup (map fst (cache c1)) /\ maxSize c1 = maxSize c
                 /\ size c1 <= maxSize c).
    { unfold c1. destruct (Z.geb_spec (size c) (maxSize c)) as [Hfull|Hroom].
      - destruct (prune_spec true now c Hnd Hmax) as (H & Hm & _ & Hb). auto.
      - split; [exact Hnd|]. split; [reflexivity | lia]. }
    destruct H1 as (Hnd1 & Hm1 & Hs1). cbn [cache with_cache maxSize].
    split; [now apply OrderedMap.keys_set|]. split; [exact Hm1|].
    unfold size in *. cbn [cache with_cache].
    pose proof (OrderedMap.length_set_le key
                  {| value := v; expiresAt := now + effective_ttl c1 ttl_arg;
                     lastAccessed := now |} (cache c1)). lia.
  - unfold get. destruct (OrderedMap.get key (cache c)) as [it|] eqn:Hget;
      [|auto]. destruct (now >? expiresAt it); cbn [snd cache with_cache maxSize].
    + split; [now apply OrderedMap.keys_delete|]. split; [reflexivity|].
      unfold size in *. cbn [cache with_cache].
      pose proof (OrderedMap.length_delete_le key (cache c)). lia.
    + split; [now apply OrderedMap.keys_set|]. split; [reflexivity|].
      unfold size in *. cbn [cache with_cache].
      rewrite OrderedMap.length_set_present; [lia | congruence].
  - split; [now apply OrderedMap.keys_delete|]. split; [reflexivity|].
    unfold size in *. cbn [cache with_cache delete].
    pose proof (OrderedMap.length_delete_le key (cache c)). lia.
  - destruct (prune_spec force now c Hnd Hmax) as (H & Hm & Hs & _).
    split; [exact H|]. split; [exact Hm | lia].
Qed.

Lemma insert_by_access_sorted (e : string * item V) l :
  StronglySorted (fun x y => lastAccessed (snd x) <= lastAccessed (snd y)) l ->
  StronglySorted (fun x y => lastAccessed (snd x) <= lastAccessed (snd y))
                 (insert_by_access e l).
Proof.
  induction 1 as [|e' l Hl IH Hall]; simpl; [repeat constructor|].
  destruct (Z.ltb_spec (lastAccessed (snd e')) (lastAccessed (snd e))) as [Hlt|Hge].
  - constructor; [exact IH|].
    rewrite (insert_by_access_perm e l). constructor; [lia | exact Hall].
  - constructor; [now constructor|]. constructor; [exact Hge|].
    eapply Forall_impl; [exact Hall|]. simpl. intros x Hx. lia.
Qed.

Lemma sort_by_access_sorted (l : list (string * item V)) :
  StronglySorted (fun x y => lastAccessed (snd x) <= lastAccessed (snd y))
                 (sort_by_access l).
Proof.
  induction l as [|e l IH]; simpl; [constructor|].
  now apply insert_by_access_sorted.
Qed.

Lemma delete_keys_NoDup keys : forall (m : list (string * item V)),
  NoDup (map fst m) -> NoDup (map fst (delete_keys keys m)).
Proof.
  induction keys as [|k keys IH]; intros m Hm; simpl; [exact Hm|].
  apply IH. now apply OrderedMap.keys_delete.
Qed.

Lemma delete_keys_elem keys : forall (m : list (string * item V)) e,
  e ∈ delete_keys keys m <-> e ∈ m /\ fst e ∉ keys.
Proof.
  induction keys as [|k keys IH]; intros m e; simpl.
  - rewrite elem_of_nil. tauto.
  - fold (delete_keys keys (OrderedMap.delete k m)). rewrite IH.
    unfold OrderedMap.delete. rewrite list_elem_of_In, List.filter_In,
      <- list_elem_of_In, negb_true_iff, not_elem_of_cons.
    destruct (String.eqb_spec (fst e) k); intuition congruence.
Qed.

Lemma prune_keys force now (c : t V) :
  NoDup (map fst (cache c)) -> NoDup (map fst (cache (prune force now c))).
Proof.
  intros Hnd. unfold prune. destruct (negb force && _); [exact Hnd|].
  cbn [cache]. destruct (_ >? _).
  - now apply delete_keys_NoDup, filter_keys_NoDup.
  - now apply filter_keys_NoDup.
Qed.

Lemma perform_keys (c : t V) (o : operation V) :
  NoDup (map fst (cache c)) -> NoDup (map fst (cache (perform c o))).
Proof.
  intros Hnd. destruct o as [key v ttl_arg now|key now|key|force now]; simpl.
  - unfold set. cbn [cache with_cache]. apply OrderedMap.keys_set.
    destruct (_ >=? _); [now apply prune_keys | exact Hnd].
  - unfold get. destruct (OrderedMap.get key (cache c)) as [it|]; [|exact Hnd].
    destruct (now >? expiresAt it); cbn [snd cache with_cache].
    + now apply OrderedMap.keys_delete.
    + now apply OrderedMap.keys_set.
  - now apply OrderedMap.keys_delete.
  - now apply prune_keys.
Qed.

(** No key is stored twice. *)
Lemma run_keys cfg now0 (operations : list (operation V)) :
  NoDup (map fst (cache (run cfg now0 operations))).
Proof.
  unfold run. induction operations as [|o operations IH] using rev_ind.
  - apply NoDup_nil_2.
  - rewrite foldl_app. simpl. now apply perform_keys.
Qed.

Lemma run_maxSize cfg now0 (operations : list (operation V)) :
  maxSize (run cfg now0 operations) = maxSize (new (V:=V) cfg now0).
Proof.
  unfold run. induction operations as [|o operations IH] using rev_ind;
    [reflexivity|].
  rewrite foldl_app. cbn [foldl]. rewrite <- IH.
  set (c := foldl perform (new cfg now0) operations).
  destruct o as [key v ttl_arg now|key now|key|force now]; simpl.
  - unfold set. cbn [maxSize with_cache]. destruct (_ >=? _); [|reflexivity].
    unfold prune. now destruct (negb true && _).
  - unfold get. destruct (OrderedMap.get key (cache c)) as [it|]; [|reflexivity].
    now destruct (now >? expiresAt it).
  - reflexivity.
  - unfold prune. now destruct (negb force && _).
Qed.

(** X3. After any sequence of [set], [get], [delete] and [prune] on a new
    cache whose [maxSize] is not negative, the cache holds at most
    [maxSize + 1] entries. *)
Theorem size_bound (operations : list (operation V)) cfg now :
  0 <= maxSize (new (V:=V) cfg now) ->
  size (run cfg now operations) <= maxSize (new (V:=V) cfg now) + 1.
Proof.
  intros Hmax. unfold run.
  assert (H : forall c : t V,
             NoDup (map fst (cache c)) -> 0 <= maxSize c ->
             size c <= maxSize c + 1 ->
             size (foldl perform c operations) <= maxSize c + 1).
  { induction operations as [|o operations IH]; intros c Hnd Hm Hs; [exact Hs|].
    simpl. destruct (perform_spec c o Hnd Hm Hs) as (Hnd' & Hm' & Hs').
    rewrite <- Hm'. apply IH; [exact Hnd' | lia | lia]. }
  apply H; [apply NoDup_nil_2 | exact Hmax|].
  change (size (new (V:=V) cfg now)) with 0. lia.
Qed.

(** X4. A forced [prune] of a cache whose [maxSize] is not negative
    leaves at most [maxSize] entries, none of them expired, so that
    [getStats] at that instant counts no expired entry; every entry left
    was in the cache before. *)
Theorem prune_forced cfg now0 (operations : list (operation V)) (now : Z) :
  0 <= maxSize (new (V:=V) cfg now0) ->
  let c := run cfg now0 operations in
  let c' := prune true now c in
  size c' <= maxSize c
  /\ Forall (fun e => now <= expiresAt (snd e)) (cache c')
  /\ (forall e, e ∈ cache c' -> e ∈ cache c)
  /\ expiredCount (getStats now c') = 0
  /\ stats_size (getStats now c') <= stats_maxSize (getStats now c').
Proof.
  intros Hmax c c'.
  assert (Hnd : NoDup (map fst (cache c))) by apply run_keys.
  assert (Hm : 0 <= maxSize c) by (unfold c; now rewrite run_maxSize).
  destruct (prune_spec true now c Hnd Hm) as (_ & Hmax' & _ & Hsize).
  specialize (Hsize eq_refl).
  assert (Hsub : forall e, e ∈ cache c' ->
                   e ∈ cache c /\ now <= expiresAt (snd e)).
  { intros e. unfold c', prune. cbn [negb andb cache].
    assert (Hlive : forall x,
              x ∈ List.filter (fun e => negb (now >? expiresAt (snd e))) (cache c) ->
              x ∈ cache c /\ now <= expiresAt (snd x)).
    { intros x. rewrite list_elem_of_In, List.filter_In, <- list_elem_of_In.
      intros [Hin Hx]. split; [exact Hin|].
      destruct (Z.gtb_spec now (expiresAt (snd x))); [discriminate | lia]. }
    destruct (_ >? _); [|apply Hlive].
    intros He. apply delete_keys_elem in He as [He _]. now apply Hlive. }
  assert (Hall : Forall (fun e => now <= expiresAt (snd e)) (cache c')).
  { apply List.Forall_forall. intros e He. apply Hsub. now apply list_elem_of_In. }
  split; [exact Hsize|]. split; [exact Hall|].
  split; [intros e He; now apply Hsub|].
  split; [|cbn [getStats stats_size stats_maxSize]; unfold c'; rewrite Hmax';
           exact Hsize].
  cbn [getStats expiredCount].
  replace (List.filter (fun e => now >? expiresAt (snd e)) (cache c')) with
    (@nil (string * item V)); [reflexivity|].
  symmetry. clear Hsub. induction Hall as [|e l He _ IH]; simpl; [reflexivity|].
  destruct (Z.gtb_spec now (expiresAt (snd e))); [lia | exact IH].
Qed.

(** X5. What a forced [prune] evicts for want of room is what was used
    least recently: an entry that has not expired and is gone after the
    call was last accessed no later than any entry that is left. *)
Theorem prune_evicts_least_recent cfg now0 (operations : list (operation V))
    (now : Z) (key key' : string) (it it' : item V) :
  let c := run cfg now0 operations in
  let c' := prune true now c in
  (key, it) ∈ cache c -> now <= expiresAt it ->
  OrderedMap.has key (cache c') = false ->
  (key', it') ∈ cache c' ->
  lastAccessed it <= lastAccessed it'.
Proof.
  intros c c' Hin Hlive Hgone Hkept.
  assert (Hnd : NoDup (map fst (cache c))) by apply run_keys.
  revert Hgone Hkept. unfold c', prune. cbn [negb andb cache].
  set (live := List.filter (fun e => negb (now >? expiresAt (snd e))) (cache c)).
  assert (Hl : (key, it) ∈ live).
  { unfold live. rewrite list_elem_of_In, List.filter_In, <- list_elem_of_In.
    split; [exact Hin|]. cbn [snd].
    destruct (Z.gtb_spec now (expiresAt it)); [lia | reflexivity]. }
  assert (Hnl : NoDup (map fst live)) by now apply filter_keys_NoDup.
  assert (Hhas : forall (m : list (string * item V)) k v,
            (k, v) ∈ m -> OrderedMap.has k m = false -> False).
  { intros m k v Hm. unfold OrderedMap.has.
    induction m as [|[k0 v0] m IH]; [now apply elem_of_nil in Hm|].
    simpl. destruct (String.eqb_spec k0 k); [discriminate|].
    apply elem_of_cons in Hm as [Heq|Hm]; [congruence | now apply IH]. }
  destruct (_ >? _); [|intros Hgone _; destruct (Hhas _ _ _ Hl Hgone)].
  set (sorted := sort_by_access live).
  set (n := Z.to_nat (Z.of_nat (length sorted) - maxSize c)).
  intros Hgone Hkept.
  pose proof (sort_by_access_sorted live) as Hsorted. fold sorted in Hsorted.
  rewrite <- (take_drop n sorted) in Hsorted.
  apply delete_keys_elem in Hkept as [Hk' Hnot']. cbn [fst] in Hnot'.
  apply (StronglySorted_app_1_elem_of _ _ _ (key, it) (key', it') Hsorted).
  - (* the evicted entry is among the first [n] of the sorted entries *)
    destruct (decide (key ∈ map fst (take n sorted))) as [Hk|Hk].
    + apply list_elem_of_fmap in Hk as ([k0 it0] & Hk0 & Hin0). cbn [fst] in Hk0.
      subst k0. assert (Hin1 : (key, it0) ∈ live).
      { rewrite <- (sort_by_access_perm live). fold sorted.
        rewrite <- (take_drop n sorted). apply elem_of_app. now left. }
      assert (it0 = it) as <-; [|exact Hin0].
      clear -Hnl Hl Hin1. induction live as [|[k0 v0] live IH];
        [now apply elem_of_nil in Hl|].
      simpl in Hnl. apply NoDup_cons in Hnl as [Hk0 Hnl].
      apply elem_of_cons in Hl as [Hl|Hl], Hin1 as [Hin1|Hin1].
      * congruence.
      * exfalso. apply Hk0. injection Hl as <- <-.
        apply list_elem_of_fmap. now exists (key, it0).
      * exfalso. apply Hk0. injection Hin1 as <- <-.
        apply list_elem_of_fmap. now exists (key, it).
      * now apply IH.
    + exfalso.
      apply (Hhas (delete_keys (map fst (take n sorted)) live) key it);
        [|exact Hgone].
      apply delete_keys_elem. split; [exact Hl | exact Hk].
  - (* an entry that is left is not among them *)
    assert (Hs : (key', it') ∈ take n sorted ++ drop n sorted).
    { rewrite take_drop. unfold sorted. now rewrite (sort_by_access_perm live). }
    apply elem_of_app in Hs as [Hs|Hs]; [|exact Hs].
    exfalso. apply Hnot'. apply list_elem_of_fmap. now exists (key', it').
Qed.

End Size.

Lemma size_bound_witness :
  0 <= maxSize (new (V:=string) (Config (Some 100000) (Some 3) (Some 50)) 0)
  /\ size (run (Config (Some 100000) (Some 3) (Some 50)) 0 five_sets) <= 3 + 1.
Proof.
  split; [vm_compute; discriminate|].
  apply (size_bound five_sets (Config (Some 100000) (Some 3) (Some 50)) 0).
  vm_compute. discriminate.
Defined.

Lemma prune_forced_witness :
  let c' := prune true 6 (run (Config (Some 100000) (Some 3) (Some 50)) 0 five_sets) in
  size c' <= 3 /\ expiredCount (getStats 6 c') = 0.
Proof.
  destruct (prune_forced (Config (Some 100000) (Some 3) (Some 50)) 0 five_sets 6)
    as (Hsize & _ & _ & Hexpired & _).
  - vm_compute. discriminate.
  - split; [exact Hsize | exact Hexpired].
Defined.

(** In the run [five_sets] the forced prune of the last [set] evicts
    ["key2"], the entry accessed least recently, and not ["key1"], which
    was read after ["key2"] was written. *)
Lemma prune_evicts_least_recent_witness :
  let c := run (Config (Some 100000) (Some 3) (Some 50)) 0
             [DoSet "key1" "value1" None 0; DoSet "key2" "value2" None 1;
              DoSet "key3" "value3" None 2; DoGet "key1" 3;
              DoSet "key4" "value4" None 4] in
  map fst (cache (prune true 5 c)) = ["key1"; "key3"; "key4"]
  /\ 1 <= 3.
Proof.
  split; [vm_compute; reflexivity|].
  apply (prune_evicts_least_recent (Config (Some 100000) (Some 3) (Some 50)) 0
           [DoSet "key1" "value1" None 0; DoSet "key2" "value2" None 1;
            DoSet "key3" "value3" None 2; DoGet "key1" 3;
            DoSet "key4" "value4" None 4] 5 "key2" "key1"
           {| value := "value2"; expiresAt := 100001; lastAccessed := 1 |}
           {| value := "value1"; expiresAt := 100000; lastAccessed := 3 |}).
  - vm_compute. set_solver.
  - vm_compute. discriminate.
  - vm_compute. reflexivity.
  - vm_compute. set_solver.
Defined.

(** C7. [get] never returns a value past its expiry: an entry whose
    [expiresAt] lies before [now] is deleted and reported absent; whatever
    [get] returns is the value of an entry that has not expired; and after
    [set key v ttl] at time [t0], a [get] at any time up to [t0 + ttl]
    returns [v], whereas a later one returns absent and removes the entry. *)
Theorem get_respects_expiry {V : Type} (c : t V) (key : string) (now : Z) :
  (forall it, OrderedMap.get key (cache c) = Some it -> expiresAt it < now ->
     fst (get key now c) = None
     /\ OrderedMap.has key (cache (snd (get key now c))) = false)
  /\ (forall v, fst (get key now c) = Some v ->
        exists it, OrderedMap.get key (cache c) = Some it
                   /\ value it = v /\ now <= expiresAt it)
  /\ (forall v ttl_arg t0,
        let c1 := set key v ttl_arg t0 c in
        (now <= t0 + effective_ttl c ttl_arg -> fst (get key now c1) = Some v)
        /\ (t0 + effective_ttl c ttl_arg < now ->
            fst (get key now c1) = None
            /\ OrderedMap.has key (cache (snd (get key now c1))) = false)).
Proof.
  split; [|split].
  - intros it. apply get_expired.
  - intros v. apply get_some_live.
  - intros v ttl_arg t0. apply get_after_set.
Qed.

Lemma get_respects_expiry_witness :
  fst (get "k" 1000 ttl_scenario) = Some "v"
  /\ fst (get "k" 1060 ttl_scenario) = None
  /\ OrderedMap.has "k" (cache (snd (get "k" 1060 ttl_scenario))) = false.
Proof.
  pose proof (get_respects_expiry (V:=string)
                (new (Config None None None) 1000) "k" 1000)
    as (_ & _ & Hnow).
  pose proof (get_respects_expiry (V:=string)
                (new (Config None None None) 1000) "k" 1060)
    as (_ & _ & Hlater).
  specialize (Hnow "v" (Some 50) 1000). specialize (Hlater "v" (Some 50) 1000).
  cbv zeta in Hnow, Hlater. destruct Hnow as [Hnow _]. destruct Hlater as [_ Hlater].
  split; [apply Hnow; vm_compute; discriminate|].
  apply Hlater. vm_compute. reflexivity.
Defined.

(** C6. The bound [size <= maxSize] is not kept: with [MAX_SIZE = 3]
    and no expired entry, the forced prune of the fourth [set] finds the
    cache exactly at capacity, removes nothing, and the insertion brings
    the cache to four entries. *)
Theorem set_exceeds_max_size :
  maxSize four_sets = 3 /\ size four_sets = 4
  /\ map fst (cache four_sets) = ["key1"; "key2"; "key3"; "key4"].
Proof. vm_compute. auto. Qed.

End CacheManager.

(** ** ThrottlingManager *)

Module ThrottlingManager.

Record config := Config {
  MAX_REQUESTS_PER_SECOND : option Z;
  MAX_REQUESTS_PER_IP : option Z;
  WINDOW_MS : option Z;
  BLOCK_DURATION : option Z
}.

Record t := Throttling {
  maxRequestsPerSecond : Z;
  maxRequestsPerIP : Z;
  windowMs : Z;
  blockDuration : Z;
  requests : gmap string (list Z);
  blockedIPs : gmap string Z;
  globalRequests : list Z
}.

Definition or_default (x : option Z) (d : Z) : Z :=
  match x with
  | Some v => if v =? 0 then d else v
  | None => d
  end.

Definition new (cfg : config) : t :=
  {| maxRequestsPerSecond := or_default (MAX_REQUESTS_PER_SECOND cfg) 100;
     maxRequestsPerIP := or_default (MAX_REQUESTS_PER_IP cfg) 20;
     windowMs := or_default (WINDOW_MS cfg) 60000;
     blockDuration := or_default (BLOCK_DURATION cfg) 300000;
     requests := ∅;
     blockedIPs := ∅;
     globalRequests := [] |}.

Definition set_blockedIPs (m : t) (b : gmap string Z) : t :=
  {| maxRequestsPerSecond := maxRequestsPerSecond m;
     maxRequestsPerIP := maxRequestsPerIP m;
     windowMs := windowMs m; blockDuration := blockDuration m;
     requests := requests m; blockedIPs := b;
     globalRequests := globalRequests m |}.

Definition set_requests (m : t) (r : gmap string (list Z)) : t :=
  {| maxRequestsPerSecond := maxRequestsPerSecond m;
     maxRequestsPerIP := maxRequestsPerIP m;
     windowMs := windowMs m; blockDuration := blockDuration m;
     requests := r; blockedIPs := blockedIPs m;
     globalRequests := globalRequests m |}.

Definition set_globalRequests (m : t) (g : list Z) : t :=
  {| maxRequestsPerSecond := maxRequestsPerSecond m;
     maxRequestsPerIP := maxRequestsPerIP m;
     windowMs := windowMs m; blockDuration := blockDuration m;
     requests := requests m; blockedIPs := blockedIPs m;
     globalRequests := g |}.

(** [timestamps.filter(timestamp => now - timestamp < span)] *)
Definition recent (now span : Z) (timestamps : list Z) : list Z :=
  List.filter (fun timestamp => now - timestamp <? span) timestamps.

(** The part of [isAllowed] below the block check. *)
Definition check_limits (ip : string) (now : Z) (m : t) : bool * t :=
  let m1 := set_globalRequests m (recent now 1000 (globalRequests m)) in
  if Z.of_nat (length (globalRequests m1)) >=? maxRequestsPerSecond m1
  then (false, m1)
  else
    let m2 := match requests m1 !! ip with
              | Some _ => m1
              | None => set_requests m1 (<[ip := []]> (requests m1))
              end in
    let ipRequests := recent now (windowMs m2) (default [] (requests m2 !! ip)) in
    if Z.of_nat (length ipRequests) >=? maxRequestsPerIP m2
    then (false, set_blockedIPs m2 (<[ip := now + blockDuration m2]> (blockedIPs m2)))
    else
      (true,
       set_requests (set_globalRequests m2 (globalRequests m2 ++ [now]))
                    (<[ip := ipRequests ++ [now]]> (requests m2))).

Definition isAllowed (ip : string) (now : Z) (m : t) : bool * t :=
  match blockedIPs m !! ip with
  | Some blockExpiry =>
      if now <? blockExpiry then (false, m)
      else check_limits ip now (set_blockedIPs m (delete ip (blockedIPs m)))
  | None => check_limits ip now m
  end.

Definition recordRequest (ip : string) (now : Z) (m : t) : t :=
  let m1 := set_globalRequests m (globalRequests m ++ [now]) in
  let m2 := match requests m1 !! ip with
            | Some _ => m1
            | None => set_requests m1 (<[ip := []]> (requests m1))
            end in
  let ipRequests := default [] (requests m2 !! ip) in
  set_requests m2 (<[ip := ipRequests ++ [now]]> (requests m2)).

Definition cleanup (now : Z) (m : t) : t :=
  let g := recent now 1000 (globalRequests m) in
  let r := omap (fun timestamps =>
                   match recent now (windowMs m) timestamps with
                   | [] => None
                   | valid => Some valid
                   end) (requests m) in
  let b := filter (fun kv => ¬ (snd kv < now)) (blockedIPs m) in
  {| maxRequestsPerSecond := maxRequestsPerSecond m;
     maxRequestsPerIP := maxRequestsPerIP m;
     windowMs := windowMs m; blockDuration := blockDuration m;
     requests := r; blockedIPs := b; globalRequests := g |}.

(** The throttling prologue of [ScalableBundleEngine.addTransaction] when
    throttling is enabled: [isAllowed(ip)], and on success
    [recordRequest(ip)]; [false] stands for the rate-limit error. *)
Definition throttle (ip : string) (t_check t_record : Z) (m : t) : bool * t :=
  let '(ok, m1) := isAllowed ip t_check m in
  if ok then (true, recordRequest ip t_record m1) else (false, m1).

(** Successive admissions of one source, each running the prologue of
    [addTransaction] at one instant of [times]. *)
Fixpoint throttle_all (ip : string) (times : list Z) (m : t) : list bool * t :=
  match times with
  | [] => ([], m)
  | now :: times' =>
      let '(ok, m1) := throttle ip now now m in
      let '(oks, m2) := throttle_all ip times' m1 in
      (ok :: oks, m2)
  end.

(** The timestamps of the per-source window, empty for an unknown source. *)
Definition window (ip : string) (m : t) : list Z :=
  default [] (requests m !! ip).

(** The four configuration fields are never written after construction. *)
Definition same_config (m m' : t) : Prop :=
  maxRequestsPerSecond m' = maxRequestsPerSecond m
  /\ maxRequestsPerIP m' = maxRequestsPerIP m
  /\ windowMs m' = windowMs m
  /\ blockDuration m' = blockDuration m.

(** Calls of the gate alone: [isAllowed] and the periodic [cleanup]. *)
Inductive call :=
| IsAllowed (ip : string) (now : Z)
| Cleanup (now : Z).

Definition perform (m : t) (c : call) : t :=
  match c with
  | IsAllowed ip now => snd (isAllowed ip now m)
  | Cleanup now => cleanup now m
  end.

Lemma same_config_refl m : same_config m m.
Proof. repeat split. Qed.

Lemma same_config_trans m1 m2 m3 :
  same_config m1 m2 -> same_config m2 m3 -> same_config m1 m3.
Proof. unfold same_config. intuition congruence. Qed.

Lemma recent_length now span l : (length (recent now span l) <= length l)%nat.
Proof. apply List.filter_length_le. Qed.

Lemma recent_all now span l :
  Forall (fun x => now - x < span) l -> recent now span l = l.
Proof.
  induction 1 as [|x l Hx _ IH]; simpl; [reflexivity|].
  destruct (Z.ltb_spec (now - x) span); [|lia]. now rewrite IH.
Qed.

Lemma recent_none now span l :
  Forall (fun x => span <= now - x) l -> recent now span l = [].
Proof.
  induction 1 as [|x l Hx _ IH]; simpl; [reflexivity|].
  destruct (Z.ltb_spec (now - x) span); [lia | exact IH].
Qed.

(** Case analysis on the first [>=?] test of a hypothesis. *)
Ltac case_geb H :=
  match type of H with
  | context [?a >=? ?b] => destruct (Z.geb_spec a b)
  end.

(** [check_limits] and [isAllowed], read through the three views the
    callers observe: the global window, the per-source windows and the
    block table. *)
Lemma check_limits_spec ip now m :
  let g := recent now 1000 (globalRequests m) in
  let w := recent now (windowMs m) (window ip m) in
  let ok := fst (check_limits ip now m) in
  let m' := snd (check_limits ip now m) in
  same_config m m'
  /\ (forall ip', ip' <> ip -> window ip' m' = window ip' m)
  /\ if Z.of_nat (length g) >=? maxRequestsPerSecond m
     then ok = false /\ globalRequests m' = g /\ window ip m' = window ip m
          /\ blockedIPs m' = blockedIPs m
     else if Z.of_nat (length w) >=? maxRequestsPerIP m
     then ok = false /\ globalRequests m' = g /\ window ip m' = window ip m
          /\ blockedIPs m' = <[ip := now + blockDuration m]> (blockedIPs m)
     else ok = true /\ globalRequests m' = g ++ [now]
          /\ requests m' !! ip = Some (w ++ [now])
          /\ blockedIPs m' = blockedIPs m.
Proof.
  unfold check_limits, window; simpl.
  destruct (_ >=? maxRequestsPerSecond m); simpl.
  { repeat split. }
  destruct (requests m !! ip) as [l|] eqn:Hl; simpl; rewrite ?lookup_insert_eq, ?Hl; simpl.
  - destruct (_ >=? maxRequestsPerIP m); simpl.
    + rewrite Hl. repeat split.
    + rewrite lookup_insert_eq. repeat split.
      intros ip' Hne. now rewrite lookup_insert_ne by congruence.
  - destruct (_ >=? maxRequestsPerIP m); simpl.
    + rewrite lookup_insert_eq. repeat split.
      intros ip' Hne. now rewrite lookup_insert_ne by congruence.
    + rewrite lookup_insert_eq. repeat split.
      intros ip' Hne. now rewrite !lookup_insert_ne by congruence.
Qed.

(** What a successful [isAllowed] has written. *)
Lemma isAllowed_true_inv ip now m m' :
  isAllowed ip now m = (true, m') ->
  globalRequests m' = recent now 1000 (globalRequests m) ++ [now]
  /\ requests m' !! ip = Some (recent now (windowMs m) (window ip m) ++ [now])
  /\ (forall ip', ip' <> ip -> window ip' m' = window ip' m)
  /\ blockedIPs m' = delete ip (blockedIPs m)
  /\ same_config m m'.
Proof.
  unfold isAllowed. destruct (blockedIPs m !! ip) as [e|] eqn:Hb.
  - destruct (now <? e); [discriminate|]. intros Heq.
    pose proof (check_limits_spec ip now
                  (set_blockedIPs m (delete ip (blockedIPs m)))) as Hs.
    rewrite Heq in Hs. simpl in Hs. destruct Hs as (Hc & Ho & Hs).
    destruct (_ >=? _); [destruct Hs; discriminate|].
    destruct (_ >=? _); [destruct Hs; discriminate|].
    destruct Hs as (_ & Hg & Hw & Hbl). auto.
  - intros Heq. pose proof (check_limits_spec ip now m) as Hs.
    rewrite Heq in Hs. simpl in Hs. destruct Hs as (Hc & Ho & Hs).
    destruct (_ >=? _); [destruct Hs; discriminate|].
    destruct (_ >=? _); [destruct Hs; discriminate|].
    destruct Hs as (_ & Hg & Hw & Hbl). rewrite delete_id by assumption. auto.
Qed.

(** When [isAllowed] answers [true]. *)
Lemma isAllowed_allowed ip now m :
  (forall e, blockedIPs m !! ip = Some e -> e <= now) ->
  Z.of_nat (length (recent now 1000 (globalRequests m))) < maxRequestsPerSecond m ->
  Z.of_nat (length (recent now (windowMs m) (window ip m))) < maxRequestsPerIP m ->
  fst (isAllowed ip now m) = true.
Proof.
  intros Hb Hg Hw. unfold isAllowed.
  destruct (blockedIPs m !! ip) as [e|] eqn:He.
  - specialize (Hb e eq_refl). destruct (Z.ltb_spec now e); [lia|].
    pose proof (check_limits_spec ip now
                  (set_blockedIPs m (delete ip (blockedIPs m)))) as (_ & _ & Hs).
    unfold window in *; simpl in Hs.
    case_geb Hs; [lia|]. case_geb Hs; [lia|]. apply Hs.
  - pose proof (check_limits_spec ip now m) as (_ & _ & Hs). simpl in Hs.
    case_geb Hs; [lia|]. case_geb Hs; [lia|]. apply Hs.
Qed.

(** A source over its window quota is denied and blocked. *)
Lemma isAllowed_over_quota ip now m :
  (forall e, blockedIPs m !! ip = Some e -> e <= now) ->
  Z.of_nat (length (recent now 1000 (globalRequests m))) < maxRequestsPerSecond m ->
  maxRequestsPerIP m <= Z.of_nat (length (recent now (windowMs m) (window ip m))) ->
  let m' := snd (isAllowed ip now m) in
  fst (isAllowed ip now m) = false
  /\ blockedIPs m' !! ip = Some (now + blockDuration m)
  /\ window ip m' = window ip m
  /\ globalRequests m' = recent now 1000 (globalRequests m)
  /\ same_config m m'.
Proof.
  intros Hb Hg Hw. unfold isAllowed.
  destruct (blockedIPs m !! ip) as [e|] eqn:He.
  - specialize (Hb e eq_refl). destruct (Z.ltb_spec now e); [lia|].
    pose proof (check_limits_spec ip now
                  (set_blockedIPs m (delete ip (blockedIPs m)))) as (Hc & _ & Hs).
    unfold window in *; simpl in Hs.
    case_geb Hs; [lia|]. case_geb Hs; [|lia].
    destruct Hs as (Hok & Hgl & Hwi & Hbl). simpl.
    rewrite Hbl, lookup_insert_eq. auto.
  - pose proof (check_limits_spec ip now m) as (Hc & _ & Hs). simpl in Hs.
    case_geb Hs; [lia|]. case_geb Hs; [|lia].
    destruct Hs as (Hok & Hgl & Hwi & Hbl). simpl.
    rewrite Hbl, lookup_insert_eq. auto.
Qed.

(** A blocked source is denied and nothing is written. *)
Lemma isAllowed_blocked ip now m e :
  blockedIPs m !! ip = Some e -> now < e -> isAllowed ip now m = (false, m).
Proof.
  intros He Hlt. unfold isAllowed. rewrite He.
  destruct (Z.ltb_spec now e); [reflexivity | lia].
Qed.

Lemma isAllowed_allowed_state ip now m :
  (forall e, blockedIPs m !! ip = Some e -> e <= now) ->
  Z.of_nat (length (recent now 1000 (globalRequests m))) < maxRequestsPerSecond m ->
  Z.of_nat (length (recent now (windowMs m) (window ip m))) < maxRequestsPerIP m ->
  let m' := snd (isAllowed ip now m) in
  fst (isAllowed ip now m) = true
  /\ globalRequests m' = recent now 1000 (globalRequests m) ++ [now]
  /\ window ip m' = recent now (windowMs m) (window ip m) ++ [now]
  /\ blockedIPs m' = delete ip (blockedIPs m)
  /\ same_config m m'.
Proof.
  intros Hb Hg Hw m'. pose proof (isAllowed_allowed ip now m Hb Hg Hw) as Hok.
  split; [exact Hok|].
  destruct (isAllowed_true_inv ip now m m') as (H1 & H2 & _ & H4 & H5).
  { subst m'. rewrite <- Hok. apply surjective_pairing. }
  unfold window at 1. rewrite H2. auto.
Qed.

Lemma recordRequest_spec ip now m :
  let m' := recordRequest ip now m in
  globalRequests m' = globalRequests m ++ [now]
  /\ window ip m' = window ip m ++ [now]
  /\ (forall ip', ip' <> ip -> window ip' m' = window ip' m)
  /\ blockedIPs m' = blockedIPs m
  /\ same_config m m'.
Proof.
  unfold recordRequest, window; simpl.
  destruct (requests m !! ip) as [l|] eqn:Hl; simpl;
    rewrite ?lookup_insert_eq, ?Hl; simpl; repeat split;
    intros ip' Hne; now rewrite !lookup_insert_ne by congruence.
Qed.

(** C4. With [MAX_REQUESTS_PER_IP = 3], on a fresh manager whose global
    limit admits more than three requests and whose block lasts at least one
    window: four [isAllowed] calls of one source at times [t1 <= t2 <= t3
    <= t4] inside one window answer true, true, true, false; the fourth
    blocks the source until [t4 + blockDuration]; any call before that
    instant answers false and leaves the whole state, the source's window
    included, as it was; a call at or after that instant answers true. *)
Theorem rate_limit_boundary (cfg : config) (ip : string) (t1 t2 t3 t4 tb t5 : Z) :
  let m0 := new cfg in
  MAX_REQUESTS_PER_IP cfg = Some 3 ->
  3 < maxRequestsPerSecond m0 ->
  windowMs m0 <= blockDuration m0 ->
  t1 <= t2 /\ t2 <= t3 /\ t3 <= t4 ->
  t4 - t1 < windowMs m0 ->
  tb < t4 + blockDuration m0 ->
  t4 + blockDuration m0 <= t5 ->
  let r1 := isAllowed ip t1 m0 in
  let r2 := isAllowed ip t2 (snd r1) in
  let r3 := isAllowed ip t3 (snd r2) in
  let r4 := isAllowed ip t4 (snd r3) in
  fst r1 = true /\ fst r2 = true /\ fst r3 = true /\ fst r4 = false
  /\ blockedIPs (snd r4) !! ip = Some (t4 + blockDuration m0)
  /\ isAllowed ip tb (snd r4) = (false, snd r4)
  /\ window ip (snd (isAllowed ip tb (snd r4))) = [t1; t2; t3]
  /\ fst (isAllowed ip t5 (snd r4)) = true.
Proof.
  intros m0 Hcfg Hrps Hdur (H12 & H23 & H34) Hwin Htb Ht5 r1 r2 r3 r4.
  assert (Hip : maxRequestsPerIP m0 = 3) by (unfold m0, new; simpl; now rewrite Hcfg).
  assert (Hg0 : globalRequests m0 = []) by reflexivity.
  assert (Hb0 : blockedIPs m0 = ∅) by reflexivity.
  assert (Hw0 : window ip m0 = []).
  { unfold window. replace (requests m0) with (∅ : gmap string (list Z)) by reflexivity.
    now rewrite lookup_empty. }
  clearbody m0.
  (* first call *)
  destruct (isAllowed_allowed_state ip t1 m0) as (Ha1 & Hg1 & Hw1 & Hb1 & Hc1).
  { intros e. now rewrite Hb0, lookup_empty. }
  { rewrite Hg0. change (0 < maxRequestsPerSecond m0). lia. }
  { rewrite Hw0. change (0 < maxRequestsPerIP m0). lia. }
  fold r1 in Ha1, Hg1, Hw1, Hb1, Hc1.
  assert (Hw1' : window ip (snd r1) = [t1]).
  { now rewrite Hw1, Hw0. }
  assert (Hg1' : (length (globalRequests (snd r1)) <= 1)%nat).
  { rewrite Hg1, Hg0. simpl. lia. }
  assert (Hb1' : blockedIPs (snd r1) = ∅).
  { rewrite Hb1, Hb0. apply delete_empty. }
  destruct Hc1 as (Hc1a & Hc1b & Hc1c & Hc1d).
  (* second call *)
  destruct (isAllowed_allowed_state ip t2 (snd r1)) as (Ha2 & Hg2 & Hw2 & Hb2 & Hc2).
  { intros e. now rewrite Hb1', lookup_empty. }
  { pose proof (recent_length t2 1000 (globalRequests (snd r1))). lia. }
  { pose proof (recent_length t2 (windowMs (snd r1)) (window ip (snd r1))) as Hl.
    rewrite Hw1' in Hl at 2. simpl in Hl. lia. }
  fold r2 in Ha2, Hg2, Hw2, Hb2, Hc2.
  assert (Hw2' : window ip (snd r2) = [t1; t2]).
  { rewrite Hw2, Hw1', recent_all; [reflexivity|].
    repeat constructor. lia. }
  assert (Hg2' : (length (globalRequests (snd r2)) <= 2)%nat).
  { rewrite Hg2, length_app. simpl.
    pose proof (recent_length t2 1000 (globalRequests (snd r1))). lia. }
  assert (Hb2' : blockedIPs (snd r2) = ∅).
  { rewrite Hb2, Hb1'. apply delete_empty. }
  destruct Hc2 as (Hc2a & Hc2b & Hc2c & Hc2d).
  (* third call *)
  destruct (isAllowed_allowed_state ip t3 (snd r2)) as (Ha3 & Hg3 & Hw3 & Hb3 & Hc3).
  { intros e. now rewrite Hb2', lookup_empty. }
  { pose proof (recent_length t3 1000 (globalRequests (snd r2))). lia. }
  { pose proof (recent_length t3 (windowMs (snd r2)) (window ip (snd r2))) as Hl.
    rewrite Hw2' in Hl at 2. simpl in Hl. lia. }
  fold r3 in Ha3, Hg3, Hw3, Hb3, Hc3.
  assert (Hw3' : window ip (snd r3) = [t1; t2; t3]).
  { rewrite Hw3, Hw2', recent_all; [reflexivity|].
    repeat constructor; lia. }
  assert (Hg3' : (length (globalRequests (snd r3)) <= 3)%nat).
  { rewrite Hg3, length_app. simpl.
    pose proof (recent_length t3 1000 (globalRequests (snd r2))). lia. }
  assert (Hb3' : blockedIPs (snd r3) = ∅).
  { rewrite Hb3, Hb2'. apply delete_empty. }
  destruct Hc3 as (Hc3a & Hc3b & Hc3c & Hc3d).
  (* fourth call: over quota *)
  destruct (isAllowed_over_quota ip t4 (snd r3)) as (Ha4 & Hb4 & Hw4 & Hg4 & Hc4).
  { intros e. now rewrite Hb3', lookup_empty. }
  { pose proof (recent_length t4 1000 (globalRequests (snd r3))). lia. }
  { rewrite Hw3', recent_all; [simpl; lia|]. repeat constructor; lia. }
  fold r4 in Ha4, Hb4, Hw4, Hg4, Hc4.
  destruct Hc4 as (Hc4a & Hc4b & Hc4c & Hc4d).
  assert (Hbd : blockDuration (snd r3) = blockDuration m0) by congruence.
  rewrite Hbd in Hb4.
  assert (Hblocked : isAllowed ip tb (snd r4) = (false, snd r4)).
  { apply (isAllowed_blocked ip tb (snd r4) _ Hb4). lia. }
  repeat split; try assumption.
  - rewrite Hblocked. simpl. congruence.
  - apply isAllowed_allowed.
    + intros e. rewrite Hb4. intros [= Heq]. lia.
    + pose proof (recent_length t5 1000 (globalRequests (snd r4))) as Hl.
      rewrite Hg4 in Hl at 2.
      pose proof (recent_length t4 1000 (globalRequests (snd r3))). lia.
    + rewrite Hw4, Hw3', recent_none; [simpl; lia|].
      repeat constructor; lia.
Qed.

(** The defaults ([100] per second, a [60000] ms window, a [300000] ms
    block) with the per-source quota set to [3]. *)
Lemma rate_limit_boundary_witness :
  let m0 := new (Config None (Some 3) None None) in
  let r1 := isAllowed "10.0.0.1" 0 m0 in
  let r2 := isAllowed "10.0.0.1" 1 (snd r1) in
  let r3 := isAllowed "10.0.0.1" 2 (snd r2) in
  let r4 := isAllowed "10.0.0.1" 3 (snd r3) in
  fst r1 = true /\ fst r2 = true /\ fst r3 = true /\ fst r4 = false
  /\ blockedIPs (snd r4) !! "10.0.0.1" = Some (3 + blockDuration m0)
  /\ isAllowed "10.0.0.1" 150000 (snd r4) = (false, snd r4)
  /\ window "10.0.0.1" (snd (isAllowed "10.0.0.1" 150000 (snd r4))) = [0; 1; 2]
  /\ fst (isAllowed "10.0.0.1" 300003 (snd r4)) = true.
Proof.
  apply (rate_limit_boundary (Config None (Some 3) None None)
           "10.0.0.1" 0 1 2 3 150000 300003);
    vm_compute; try reflexivity; try discriminate.
  repeat split; discriminate.
Defined.

(** The same scenario under the configuration of the repository's test:
    5 requests per second, a 100 ms window and a 200 ms block. *)
Example rate_limit_boundary_test_configuration :
  let m0 := new (Config (Some 5) (Some 3) (Some 100) (Some 200)) in
  let r1 := isAllowed "127.0.0.1" 0 m0 in
  let r2 := isAllowed "127.0.0.1" 1 (snd r1) in
  let r3 := isAllowed "127.0.0.1" 2 (snd r2) in
  let r4 := isAllowed "127.0.0.1" 3 (snd r3) in
  (fst r1, fst r2, fst r3, fst r4) = (true, true, true, false)
  /\ fst (isAllowed "127.0.0.1" 202 (snd r4)) = false
  /\ fst (isAllowed "127.0.0.1" 203 (snd r4)) = true.
Proof. vm_compute. repeat split. Qed.

(** *** Quota consumed per admission *)

Lemma throttle_true_inv ip t_check t_record m m' :
  throttle ip t_check t_record m = (true, m') ->
  globalRequests m'
  = recent t_check 1000 (globalRequests m) ++ [t_check; t_record]
  /\ window ip m'
     = recent t_check (windowMs m) (window ip m) ++ [t_check; t_record]
  /\ blockedIPs m' = delete ip (blockedIPs m)
  /\ same_config m m'.
Proof.
  unfold throttle. destruct (isAllowed ip t_check m) as [ok m1] eqn:Hal.
  destruct ok; [|discriminate]. intros [= <-].
  apply isAllowed_true_inv in Hal as (Hg & Hw & _ & Hb & Hc).
  destruct (recordRequest_spec ip t_record m1) as (Hg' & Hw' & _ & Hb' & Hc').
  assert (Hw1 : window ip m1
                = recent t_check (windowMs m) (window ip m) ++ [t_check]).
  { unfold window at 1. now rewrite Hw. }
  rewrite Hg', Hw', Hb', Hg, Hb, Hw1, <- !app_assoc.
  split; [reflexivity | split; [reflexivity | split; [reflexivity|]]].
  eapply same_config_trans; eassumption.
Qed.

(** A source whose window already holds its quota is denied, whichever of
    the three checks answers. *)
Lemma isAllowed_window_full ip now m :
  maxRequestsPerIP m <= Z.of_nat (length (recent now (windowMs m) (window ip m))) ->
  fst (isAllowed ip now m) = false
  /\ window ip (snd (isAllowed ip now m)) = window ip m
  /\ same_config m (snd (isAllowed ip now m)).
Proof.
  intros Hfull. unfold isAllowed.
  destruct (blockedIPs m !! ip) as [e|] eqn:He.
  - destruct (now <? e); [simpl; auto using same_config_refl|].
    pose proof (check_limits_spec ip now
                  (set_blockedIPs m (delete ip (blockedIPs m)))) as (Hc & _ & Hs).
    unfold window in *; simpl in Hs.
    case_geb Hs; [tauto|]. case_geb Hs; [tauto | lia].
  - pose proof (check_limits_spec ip now m) as (Hc & _ & Hs). simpl in Hs.
    case_geb Hs; [tauto|]. case_geb Hs; [tauto | lia].
Qed.

Lemma throttle_all_exhausted ip times m :
  (forall x now, In x (window ip m) -> In now times -> now - x < windowMs m) ->
  maxRequestsPerIP m <= Z.of_nat (length (window ip m)) ->
  fst (throttle_all ip times m) = replicate (length times) false.
Proof.
  revert m. induction times as [|now times IH]; intros m Hin Hfull; [reflexivity|].
  destruct (isAllowed_window_full ip now m) as (Hno & Hw & Hc1 & Hc2 & Hc3 & Hc4).
  { rewrite recent_all; [exact Hfull|].
    apply List.Forall_forall. intros x Hx. apply Hin; [exact Hx | now left]. }
  simpl. unfold throttle. destruct (isAllowed ip now m) as [ok m1].
  simpl in Hno, Hw, Hc2, Hc3. subst ok.
  specialize (IH m1). destruct (throttle_all ip times m1) as [oks m2].
  simpl in *. f_equal. apply IH.
  - intros x t Hx Ht. rewrite Hw in Hx. rewrite Hc3. apply Hin; auto.
  - now rewrite Hw, Hc2.
Qed.

Lemma over_quota_indices (limit : Z) (n k : nat) :
  limit <= 2 * Z.of_nat k ->
  map (fun i => 2 * Z.of_nat i <? limit) (seq k n) = replicate n false.
Proof.
  revert k. induction n as [|n IH]; intros k Hk; [reflexivity|]. simpl.
  destruct (Z.ltb_spec (2 * Z.of_nat k) limit); [lia|].
  f_equal. apply IH. lia.
Qed.

Lemma throttle_all_counts ip times : forall (k : nat) m,
  blockedIPs m !! ip = None ->
  (length (globalRequests m) <= 2 * k)%nat ->
  length (window ip m) = (2 * k)%nat ->
  maxRequestsPerIP m <= maxRequestsPerSecond m ->
  (forall x now, In x (window ip m) -> In now times -> now - x < windowMs m) ->
  (forall a b, In a times -> In b times -> b - a < windowMs m) ->
  fst (throttle_all ip times m)
  = map (fun i => 2 * Z.of_nat i <? maxRequestsPerIP m) (seq k (length times)).
Proof.
  induction times as [|now times IH]; intros k m Hb Hg Hw Hlim Hin Hpair;
    [reflexivity|].
  destruct (Z.ltb_spec (2 * Z.of_nat k) (maxRequestsPerIP m)) as [Hroom|Hfull].
  - (* the window has room: the request is admitted and takes two slots *)
    assert (Hrec : recent now (windowMs m) (window ip m) = window ip m).
    { apply recent_all, List.Forall_forall. intros x Hx.
      apply Hin; [exact Hx | now left]. }
    assert (Hok : fst (isAllowed ip now m) = true).
    { apply isAllowed_allowed.
      - intros e. now rewrite Hb.
      - pose proof (recent_length now 1000 (globalRequests m)). lia.
      - rewrite Hrec. lia. }
    cbn [throttle_all length seq map].
    destruct (throttle ip now now m) as [ok m1] eqn:Hthr.
    assert (ok = true) as ->.
    { unfold throttle in Hthr. destruct (isAllowed ip now m) as [ok0 m0].
      simpl in Hok. subst ok0. now inversion Hthr. }
    apply throttle_true_inv in Hthr as (Hg1 & Hw1 & Hb1 & Hc1 & Hc2 & Hc3 & Hc4).
    specialize (IH (S k) m1).
    destruct (throttle_all ip times m1) as [oks m2]. cbn [fst] in *.
    destruct (Z.ltb_spec (2 * Z.of_nat k) (maxRequestsPerIP m)); [|lia].
    f_equal. rewrite IH, Hc2; [reflexivity|..].
    + rewrite Hb1. now apply lookup_delete_eq.
    + rewrite Hg1, length_app. simpl.
      pose proof (recent_length now 1000 (globalRequests m)). lia.
    + rewrite Hw1, Hrec, length_app. simpl. lia.
    + lia.
    + intros x t Hx Ht. rewrite Hc3. rewrite Hw1, Hrec in Hx.
      apply List.in_app_or in Hx as [Hx|Hx].
      * apply Hin; [exact Hx | now right].
      * assert (x = now) as -> by (simpl in Hx; intuition congruence).
        apply Hpair; [now left | now right].
    + intros a b Ha Hb'. rewrite Hc3. apply Hpair; now right.
  - (* the window is full: this and every later request is denied *)
    rewrite throttle_all_exhausted by (auto; lia).
    symmetry. apply over_quota_indices. lia.
Qed.

(** How many of [n] back-to-back requests a quota of [limit] admits when
    each admission takes two slots: half the quota, rounded up. *)
Lemma passed_count (limit : Z) (n : nat) :
  0 <= limit ->
  Z.of_nat (length (List.filter id
     (map (fun i => 2 * Z.of_nat i <? limit) (seq 0 n))))
  = Z.min (Z.of_nat n) ((limit + 1) / 2).
Proof.
  intros Hlimit. induction n as [|n IH].
  { cbn [seq map List.filter length]. Z.div_mod_to_equations. lia. }
  rewrite seq_S, map_app, List.filter_app, length_app, Nat2Z.inj_add, IH.
  cbn [map List.filter Nat.add].
  destruct (Z.ltb_spec (2 * Z.of_nat n) limit); cbn [id length];
    Z.div_mod_to_equations; lia.
Qed.

(** On a fresh manager and for requests of one source that all fall inside
    one window, request number [i] (from 0) passes exactly when
    [2 * i < maxRequestsPerIP]: the quota is used up after half of it,
    rounded up, has passed. *)
Lemma throttle_all_fresh (cfg : config) (ip : string) (times : list Z) :
  let m0 := new cfg in
  0 <= maxRequestsPerIP m0 <= maxRequestsPerSecond m0 ->
  (forall a b, In a times -> In b times -> b - a < windowMs m0) ->
  let passed := fst (throttle_all ip times m0) in
  passed = map (fun i => 2 * Z.of_nat i <? maxRequestsPerIP m0)
               (seq 0 (length times))
  /\ Z.of_nat (length (List.filter id passed))
     = Z.min (Z.of_nat (length times)) ((maxRequestsPerIP m0 + 1) / 2).
Proof.
  intros m0 Hlim Hpair passed.
  assert (Heq : passed
                = map (fun i => 2 * Z.of_nat i <? maxRequestsPerIP m0)
                      (seq 0 (length times))).
  { apply throttle_all_counts; try reflexivity; try lia; try exact Hpair.
    intros x now Hx. unfold window, m0, new in Hx. simpl in Hx.
    rewrite lookup_empty in Hx. destruct Hx. }
  split; [exact Heq|]. rewrite Heq. apply passed_count. lia.
Qed.

(** *** The gate alone, and the periodic cleanup *)

Lemma recent_recent now now' span l :
  now <= now' -> recent now' span (recent now span l) = recent now' span l.
Proof.
  intros Hle. unfold recent. induction l as [|x l IH]; simpl; [reflexivity|].
  destruct (Z.ltb_spec (now - x) span); simpl;
    destruct (Z.ltb_spec (now' - x) span); try lia; now rewrite IH.
Qed.

Lemma cleanup_window ip now m :
  window ip (cleanup now m) = recent now (windowMs m) (window ip m).
Proof.
  unfold window, cleanup; simpl. rewrite lookup_omap.
  destruct (requests m !! ip) as [l|]; simpl; [|reflexivity].
  now destruct (recent now (windowMs m) l).
Qed.

Lemma cleanup_blockedIPs ip now m :
  blockedIPs (cleanup now m) !! ip
  = match blockedIPs m !! ip with
    | Some e => if e <? now then None else Some e
    | None => None
    end.
Proof.
  unfold cleanup; simpl. destruct (blockedIPs m !! ip) as [e|] eqn:He.
  - destruct (Z.ltb_spec e now).
    + apply map_lookup_filter_None. right. intros x Hx. simpl. rewrite He in Hx.
      injection Hx as <-. lia.
    + apply map_lookup_filter_Some. split; [exact He|]. simpl. lia.
  - apply map_lookup_filter_None. now left.
Qed.

(** The answer of [isAllowed], read off the state. *)
Lemma check_limits_decision ip now m :
  fst (check_limits ip now m)
  = negb (Z.of_nat (length (recent now 1000 (globalRequests m)))
          >=? maxRequestsPerSecond m)
    && negb (Z.of_nat (length (recent now (windowMs m) (window ip m)))
             >=? maxRequestsPerIP m).
Proof.
  pose proof (check_limits_spec ip now m) as (_ & _ & Hs). cbv zeta in Hs.
  destruct (_ >=? maxRequestsPerSecond m); [now destruct Hs as [-> _]|].
  destruct (_ >=? maxRequestsPerIP m); now destruct Hs as [-> _].
Qed.

Lemma isAllowed_decision ip now m :
  fst (isAllowed ip now m)
  = match blockedIPs m !! ip with
    | Some e => if now <? e then false else fst (check_limits ip now m)
    | None => fst (check_limits ip now m)
    end.
Proof.
  unfold isAllowed. destruct (blockedIPs m !! ip) as [e|]; [|reflexivity].
  destruct (now <? e); [reflexivity|]. now rewrite !check_limits_decision.
Qed.

(** What one call of [isAllowed] does to the windows. *)
Lemma isAllowed_effect ip now m :
  let m' := snd (isAllowed ip now m) in
  same_config m m'
  /\ (forall ip', ip' <> ip -> window ip' m' = window ip' m)
  /\ (window ip m' = window ip m
      \/ window ip m' = recent now (windowMs m) (window ip m) ++ [now]
         /\ Z.of_nat (length (recent now (windowMs m) (window ip m)))
            < maxRequestsPerIP m)
  /\ (globalRequests m' = globalRequests m
      \/ globalRequests m' = recent now 1000 (globalRequests m)
      \/ globalRequests m' = recent now 1000 (globalRequests m) ++ [now]
         /\ Z.of_nat (length (recent now 1000 (globalRequests m)))
            < maxRequestsPerSecond m).
Proof.
  assert (Hcheck : forall m0,
            let m' := snd (check_limits ip now m0) in
            same_config m0 m'
            /\ (forall ip', ip' <> ip -> window ip' m' = window ip' m0)
            /\ (window ip m' = window ip m0
                \/ window ip m' = recent now (windowMs m0) (window ip m0) ++ [now]
                   /\ Z.of_nat (length (recent now (windowMs m0) (window ip m0)))
                      < maxRequestsPerIP m0)
            /\ (globalRequests m' = globalRequests m0
                \/ globalRequests m' = recent now 1000 (globalRequests m0)
                \/ globalRequests m' = recent now 1000 (globalRequests m0) ++ [now]
                   /\ Z.of_nat (length (recent now 1000 (globalRequests m0)))
                      < maxRequestsPerSecond m0)).
  { intros m0. pose proof (check_limits_spec ip now m0) as (Hc & Ho & Hs).
    cbv zeta in *. split; [exact Hc|]. split; [exact Ho|].
    case_geb Hs; [destruct Hs as (_ & Hg & Hw & _); auto|].
    case_geb Hs; [destruct Hs as (_ & Hg & Hw & _); auto|].
    destruct Hs as (_ & Hg & Hw & _).
    assert (Hw' : window ip (snd (check_limits ip now m0))
                  = recent now (windowMs m0) (window ip m0) ++ [now]).
    { unfold window at 1. now rewrite Hw. }
    split; [right; split; [exact Hw' | lia]|].
    right; right. split; [exact Hg | lia]. }
  unfold isAllowed. destruct (blockedIPs m !! ip) as [e|]; [|apply Hcheck].
  destruct (now <? e); [|apply (Hcheck (set_blockedIPs m _))].
  cbn [snd]. split; [apply same_config_refl|]. auto.
Qed.

(** X6. With limits that are not negative, the gate alone never lets a
    window outgrow its limit: after any sequence of [isAllowed] and
    [cleanup] calls on a new manager, whatever the sources and the clock
    readings, the window of every source holds at most [maxRequestsPerIP]
    timestamps and the global window at most [maxRequestsPerSecond]. *)
Theorem gate_windows_bounded (cfg : config) (calls : list call) :
  let m0 := new cfg in
  0 <= maxRequestsPerIP m0 -> 0 <= maxRequestsPerSecond m0 ->
  let m := foldl perform m0 calls in
  (forall ip, Z.of_nat (length (window ip m)) <= maxRequestsPerIP m0)
  /\ Z.of_nat (length (globalRequests m)) <= maxRequestsPerSecond m0.
Proof.
  intros m0 Hip Hglobal m.
  assert (H : same_config m0 m
              /\ (forall ip, Z.of_nat (length (window ip m)) <= maxRequestsPerIP m)
              /\ Z.of_nat (length (globalRequests m)) <= maxRequestsPerSecond m).
  { subst m. induction calls as [|c calls IH] using rev_ind.
    - cbn [foldl]. split; [apply same_config_refl|]. split; [|exact Hglobal].
      intros ip. unfold window. change (requests m0) with (∅ : gmap string (list Z)).
      rewrite lookup_empty. exact Hip.
    - rewrite foldl_app. cbn [foldl]. set (m := foldl perform m0 calls) in *.
      destruct IH as (Hc & Hw & Hg). destruct c as [ip now|now]; cbn [perform].
      + destruct (isAllowed_effect ip now m) as (Hc' & Ho & Hwin & Hgl).
        cbv zeta in *. destruct Hc' as (Hc1 & Hc2 & Hc3 & Hc4).
        split; [eapply same_config_trans; [exact Hc | repeat split; assumption]|].
        rewrite Hc1, Hc2. split.
        * intros ip'. destruct (decide (ip' = ip)) as [->|Hne];
            [|rewrite Ho by exact Hne; apply Hw].
          destruct Hwin as [-> | [-> Hlt]]; [apply Hw|].
          rewrite length_app. simpl. lia.
        * destruct Hgl as [-> | [-> | [-> Hlt]]]; [exact Hg | |].
          -- pose proof (recent_length now 1000 (globalRequests m)). lia.
          -- rewrite length_app. simpl. lia.
      + split; [destruct Hc as (H1 & H2 & H3 & H4); repeat split; assumption|].
        split.
        * intros ip. rewrite cleanup_window.
          pose proof (recent_length now (windowMs m) (window ip m)).
          specialize (Hw ip). cbn [cleanup maxRequestsPerIP]. lia.
        * cbn [cleanup globalRequests maxRequestsPerSecond].
          pose proof (recent_length now 1000 (globalRequests m)). lia. }
  destruct H as ((Hc1 & Hc2 & _) & Hw & Hg). rewrite <- Hc1, <- Hc2. auto.
Qed.

Lemma gate_windows_bounded_witness :
  let m := foldl perform (new (Config (Some 5) (Some 3) (Some 100) (Some 200)))
             [IsAllowed "a" 0; IsAllowed "a" 1; IsAllowed "b" 1; IsAllowed "a" 2;
              IsAllowed "a" 3; Cleanup 50; IsAllowed "a" 400] in
  (forall ip, Z.of_nat (length (window ip m)) <= 3)
  /\ Z.of_nat (length (globalRequests m)) <= 5.
Proof.
  apply (gate_windows_bounded (Config (Some 5) (Some 3) (Some 100) (Some 200)));
    vm_compute; discriminate.
Defined.

(** X7. A request refused by the global limit costs its source
    nothing: when the last second already holds [maxRequestsPerSecond]
    requests, [isAllowed] answers false for a source that is not blocked,
    whatever the source's own window, records nothing and does not block
    the source. *)
Theorem global_limit_does_not_block (ip : string) (now : Z) (m : t) :
  (forall e, blockedIPs m !! ip = Some e -> e <= now) ->
  maxRequestsPerSecond m
    <= Z.of_nat (length (recent now 1000 (globalRequests m))) ->
  let m' := snd (isAllowed ip now m) in
  fst (isAllowed ip now m) = false
  /\ blockedIPs m' !! ip = None
  /\ (forall ip', window ip' m' = window ip' m)
  /\ globalRequests m' = recent now 1000 (globalRequests m).
Proof.
  intros Hb Hfull.
  assert (Hcheck : forall m0,
            globalRequests m0 = globalRequests m ->
            maxRequestsPerSecond m0 = maxRequestsPerSecond m ->
            fst (check_limits ip now m0) = false
            /\ blockedIPs (snd (check_limits ip now m0)) = blockedIPs m0
            /\ (forall ip', window ip' (snd (check_limits ip now m0)) = window ip' m0)
            /\ globalRequests (snd (check_limits ip now m0))
               = recent now 1000 (globalRequests m)).
  { intros m0 Hg Hmax. pose proof (check_limits_spec ip now m0) as (_ & Ho & Hs).
    cbv zeta in Hs. rewrite Hg, Hmax in Hs. case_geb Hs; [|lia].
    destruct Hs as (Hok & Hgl & Hw & Hbl). split; [exact Hok|].
    split; [exact Hbl|]. split; [|exact Hgl].
    intros ip'. destruct (decide (ip' = ip)) as [->|Hne]; [exact Hw | now apply Ho]. }
  unfold isAllowed. destruct (blockedIPs m !! ip) as [e|] eqn:He.
  - specialize (Hb e eq_refl). destruct (Z.ltb_spec now e); [lia|].
    destruct (Hcheck (set_blockedIPs m (delete ip (blockedIPs m))) eq_refl eq_refl)
      as (Hok & Hbl & Hw & Hg).
    cbv zeta. rewrite Hbl. cbn [set_blockedIPs blockedIPs].
    rewrite lookup_delete_eq. auto.
  - destruct (Hcheck m eq_refl eq_refl) as (Hok & Hbl & Hw & Hg).
    cbv zeta. rewrite Hbl. auto.
Qed.

(** Five requests of other sources fill the second; the sixth source is
    refused and stays unblocked. *)
Lemma global_limit_does_not_block_witness :
  let m := foldl perform (new (Config (Some 5) (Some 3) (Some 100) (Some 200)))
             [IsAllowed "a" 0; IsAllowed "b" 0; IsAllowed "c" 0; IsAllowed "d" 0;
              IsAllowed "e" 0] in
  fst (isAllowed "f" 1 m) = false
  /\ blockedIPs (snd (isAllowed "f" 1 m)) !! "f" = None.
Proof.
  cbv zeta.
  destruct (global_limit_does_not_block "f" 1
              (foldl perform (new (Config (Some 5) (Some 3) (Some 100) (Some 200)))
                 [IsAllowed "a" 0; IsAllowed "b" 0; IsAllowed "c" 0;
                  IsAllowed "d" 0; IsAllowed "e" 0]))
    as (Hno & Hfree & _).
  - intros e He. vm_compute in He. discriminate.
  - vm_compute. discriminate.
  - split; [exact Hno | exact Hfree].
Defined.

(** X8. The periodic [cleanup] is invisible to the gate: as long as
    the clock does not go back, [isAllowed] answers after a [cleanup] what
    it would have answered without it, for every source. *)
Theorem cleanup_is_transparent (ip : string) (now now' : Z) (m : t) :
  now <= now' ->
  fst (isAllowed ip now' (cleanup now m)) = fst (isAllowed ip now' m).
Proof.
  intros Hle.
  assert (Hcheck : fst (check_limits ip now' (cleanup now m))
                   = fst (check_limits ip now' m)).
  { rewrite !check_limits_decision, cleanup_window.
    cbn [cleanup globalRequests maxRequestsPerSecond maxRequestsPerIP windowMs].
    now rewrite !recent_recent by exact Hle. }
  rewrite !isAllowed_decision, cleanup_blockedIPs, Hcheck.
  destruct (blockedIPs m !! ip) as [e|]; [|reflexivity].
  destruct (Z.ltb_spec e now); [|reflexivity].
  destruct (Z.ltb_spec now' e); [lia | reflexivity].
Qed.

Lemma cleanup_is_transparent_witness :
  let m := foldl perform (new (Config (Some 5) (Some 3) (Some 100) (Some 200)))
             [IsAllowed "a" 0; IsAllowed "a" 1; IsAllowed "a" 2; IsAllowed "a" 3] in
  fst (isAllowed "a" 300 (cleanup 250 m)) = fst (isAllowed "a" 300 m).
Proof.
  apply (cleanup_is_transparent "a" 250 300). lia.
Defined.

End ThrottlingManager.

(** ** Pending transfers *)

Module Transaction.

(** The transaction object built by [addTransaction].  Wallets are kept by
    their string form (every use in the modelled code goes through
    [toString()]); the signing keypair is opaque and left out.  The field
    [priority] is written once, by the optimizer, before the object is
    stored anywhere; until then it is JavaScript's [undefined], which
    compares and subtracts as NaN. *)
Record t := Tx {
  id : string;
  fromWallet : string;
  toWallet : string;
  amount : Z;
  timestamp : Z;
  priority : float
}.

Definition with_priority (tx : t) (p : float) : t :=
  {| id := id tx; fromWallet := fromWallet tx; toWallet := toWallet tx;
     amount := amount tx; timestamp := timestamp tx; priority := p |}.

(** [list.filter(tx => !transactionIds.includes(tx.id))] *)
Definition remove_ids (transactionIds : list string) (l : list t) : list t :=
  List.filter (fun tx => negb (bool_decide (id tx ∈ transactionIds))) l.

Lemma remove_ids_length transactionIds l :
  (length (remove_ids transactionIds l) <= length l)%nat.
Proof. apply List.filter_length_le. Qed.

Lemma remove_ids_In transactionIds l tx :
  In tx (remove_ids transactionIds l) <-> In tx l /\ id tx ∉ transactionIds.
Proof.
  unfold remove_ids. rewrite List.filter_In, negb_true_iff, bool_decide_eq_false.
  reflexivity.
Qed.

Lemma remove_ids_perm transactionIds l l' :
  l ≡ₚ l' -> remove_ids transactionIds l ≡ₚ remove_ids transactionIds l'.
Proof.
  unfold remove_ids. induction 1 as [|x l l' _ IH|x y l|l l' l'' _ IH1 _ IH2]; simpl.
  - reflexivity.
  - destruct (negb _); [now constructor | exact IH].
  - destruct (negb (bool_decide (id x ∈ _))), (negb (bool_decide (id y ∈ _)));
      try reflexivity. apply perm_swap.
  - now transitivity (List.filter
        (fun tx => negb (bool_decide (id tx ∈ transactionIds))) l').
Qed.

Lemma remove_ids_app transactionIds l l' :
  remove_ids transactionIds (l ++ l')
  = remove_ids transactionIds l ++ remove_ids transactionIds l'.
Proof. apply List.filter_app. Qed.

(** Removing the ids of [l] from [l] leaves nothing. *)
Lemma remove_ids_own l l' : remove_ids (map id l ++ map id l') l = [].
Proof.
  unfold remove_ids. generalize (map id l') as tail.
  assert (H : forall pre tail,
             List.filter (fun tx => negb (bool_decide
                            (id tx ∈ pre ++ map id l ++ tail))) l = []).
  { induction l as [|x l IH]; intros pre tail; simpl; [reflexivity|].
    rewrite bool_decide_eq_true_2 by set_solver. simpl.
    specialize (IH (pre ++ [id x]) tail). now rewrite <- app_assoc in IH. }
  intros tail. apply (H [] tail).
Qed.

(** Removing ids that do not occur changes nothing. *)
Lemma remove_ids_foreign transactionIds l :
  (forall tx, In tx l -> id tx ∉ transactionIds) ->
  remove_ids transactionIds l = l.
Proof.
  unfold remove_ids. induction l as [|x l IH]; intros Hl; simpl; [reflexivity|].
  rewrite bool_decide_eq_false_2 by (apply Hl; now left). simpl.
  rewrite IH; [reflexivity|]. intros tx Htx. apply Hl. now right.
Qed.

Lemma remove_ids_NoDup transactionIds l :
  NoDup (map id l) -> NoDup (map id (remove_ids transactionIds l)).
Proof.
  unfold remove_ids. induction l as [|x l IH]; simpl; [auto|].
  rewrite NoDup_cons. intros [Hx Hl]. destruct (negb _); simpl; [|auto].
  rewrite NoDup_cons. split; [|auto].
  rewrite list_elem_of_In, in_map_iff in *. intros (y & Hy & Hin).
  apply Hx. exists y. apply List.filter_In in Hin. tauto.
Qed.

End Transaction.

(** ** ShardManager *)

Module ShardManager.
Import JsNumber.

Record shard := Shard {
  transactions : list Transaction.t;
  load : Z
}.

Record config := Config {
  SHARD_COUNT : option N;
  SHARD_BY : option string;
  REBALANCE_INTERVAL : option Z
}.

(** [shards] is allocated once with [shardCount] cells and never resized:
    the field [shardCount] of the source is the length of [shards]. *)
Record t := Manager {
  shardBy : string;
  rebalanceInterval : Z;
  shards : list shard;
  lastRebalanceTime : Z
}.

Definition shardCount (m : t) : N := N.of_nat (length (shards m)).

Definition new (cfg : config) (now : Z) : t :=
  let count := match SHARD_COUNT cfg with
               | Some n => if (n =? 0)%N then 1%N else n
               | None => 1%N
               end in
  {| shardBy := match SHARD_BY cfg with
                | Some s => if String.eqb s "" then "sender" else s
                | None => "sender"
                end;
     rebalanceInterval := match REBALANCE_INTERVAL cfg with
                          | Some v => if v =? 0 then 300000 else v
                          | None => 300000
                          end;
     shards := replicate (N.to_nat count) {| transactions := []; load := 0 |};
     lastRebalanceTime := now |}.

Definition with_shards (m : t) (l : list shard) : t :=
  {| shardBy := shardBy m; rebalanceInterval := rebalanceInterval m;
     shards := l; lastRebalanceTime := lastRebalanceTime m |}.

Section WithHash.

(** [parseInt(sha256(key).digest('hex').substring(0, 8), 16)]: the first 32
    bits of the SHA-256 digest of [key], computed by Node's [crypto]. *)
Variable sha256_prefix : string -> N.

Definition getShardIndex (transaction : Transaction.t) (m : t) : N :=
  let key :=
    if String.eqb (shardBy m) "sender" then Transaction.fromWallet transaction
    else if String.eqb (shardBy m) "receiver" then Transaction.toWallet transaction
    else if String.eqb (shardBy m) "amount" then pretty (Transaction.amount transaction)
    else Transaction.id transaction in
  (sha256_prefix key mod shardCount m)%N.

(** [None] stands for the [TypeError] of reading a field of [undefined],
    which only an empty [shards] could cause. *)
Definition assignToShard (transaction : Transaction.t) (m : t) : option (nat * t) :=
  let shardIndex := N.to_nat (getShardIndex transaction m) in
  match shards m !! shardIndex with
  | Some sh =>
      let sh' := {| transactions := transactions sh ++ [transaction];
                    load := load sh + 1 |} in
      Some (shardIndex, with_shards m (<[shardIndex := sh']> (shards m)))
  | None => None
  end.

End WithHash.

(** [None] stands for the error thrown on an index out of range. *)
Definition getTransactionsFromShard (shardIndex : Z) (m : t)
  : option (list Transaction.t) :=
  if (shardIndex <? 0) || (shardIndex >=? Z.of_N (shardCount m)) then None
  else transactions <$> shards m !! Z.to_nat shardIndex.

Definition removeTransactionsFromShard (shardIndex : Z)
    (transactionIds : list string) (m : t) : option (Z * t) :=
  if (shardIndex <? 0) || (shardIndex >=? Z.of_N (shardCount m)) then None
  else
    match shards m !! Z.to_nat shardIndex with
    | Some sh =>
        let initialCount := Z.of_nat (length (transactions sh)) in
        let kept := Transaction.remove_ids transactionIds (transactions sh) in
        let removedCount := initialCount - Z.of_nat (length kept) in
        let sh' := {| transactions := kept; load := load sh - removedCount |} in
        Some (removedCount,
              with_shards m (<[Z.to_nat shardIndex := sh']> (shards m)))
    | None => None
    end.

(** The classification loop of [rebalance]: the indices of the shards more
    than 20% above and more than 20% below the mean. *)
Fixpoint classify (avgLoad : float) (i : nat) (l : list shard)
  : list nat * list nat :=
  match l with
  | [] => ([], [])
  | sh :: l' =>
      let '(overloaded, underloaded) := classify avgLoad (S i) l' in
      if PrimFloat.ltb (avgLoad * 1.2)%float (of_Z (load sh))
      then (i :: overloaded, underloaded)
      else if PrimFloat.ltb (of_Z (load sh)) (avgLoad * 0.8)%float
      then (overloaded, i :: underloaded)
      else (overloaded, underloaded)
  end.

(** The moving loop of [rebalance].  Each overloaded shard consumes the
    next underloaded one ([shift()]), also when nothing is moved. *)
Fixpoint move_loop (overloaded underloaded : list nat) (l : list shard)
  : list shard :=
  match overloaded, underloaded with
  | overIndex :: overloaded', underIndex :: underloaded' =>
      match l !! overIndex, l !! underIndex with
      | Some overShard, Some underShard =>
          let toMove := (load overShard - load underShard) / 2 in
          if toMove <=? 0 then move_loop overloaded' underloaded' l
          else
            let n := Z.to_nat toMove in
            let transactionsToMove := take n (transactions overShard) in
            let overShard' :=
              {| transactions := drop n (transactions overShard);
                 load := load overShard - toMove |} in
            let underShard' :=
              {| transactions := transactions underShard ++ transactionsToMove;
                 load := load underShard + toMove |} in
            move_loop overloaded' underloaded'
              (<[underIndex := underShard']> (<[overIndex := overShard']> l))
      | _, _ => l
      end
  | _, _ => l
  end.

Definition rebalance (now : Z) (m : t) : t :=
  if now - lastRebalanceTime m <? rebalanceInterval m then m
  else
    let totalLoad := foldl (fun sum sh => sum + load sh) 0 (shards m) in
    let avgLoad := (of_Z totalLoad / of_Z (Z.of_N (shardCount m)))%float in
    let '(overloaded, underloaded) := classify avgLoad 0 (shards m) in
    {| shardBy := shardBy m; rebalanceInterval := rebalanceInterval m;
       shards := move_loop overloaded underloaded (shards m);
       lastRebalanceTime := now |}.

(** *** The load counter *)

Definition load_matches (sh : shard) : Prop :=
  load sh = Z.of_nat (length (transactions sh)).

(** Every shard's counter is the number of transactions it holds. *)
Definition loads_consistent (m : t) : Prop := Forall load_matches (shards m).

(** All transactions held by the shards, shard after shard. *)
Definition all_transactions (l : list shard) : list Transaction.t :=
  concat (map transactions l).

(** A run in the manner of the repository's test: three shards, ten
    transfers of one sender and one of another, then a rebalance. *)
Definition length_hash (key : string) : N := N.of_nat (String.length key).

Definition transfer (id sender : string) : Transaction.t :=
  {| Transaction.id := id; Transaction.fromWallet := sender;
     Transaction.toWallet := "receiver"; Transaction.amount := 1000;
     Transaction.timestamp := 0; Transaction.priority := PrimFloat.nan |}.

Definition assign_all (l : list Transaction.t) (m : t) : t :=
  foldl (fun m transaction =>
           match assignToShard length_hash transaction m with
           | Some (_, m') => m'
           | None => m
           end) m l.

Definition unbalanced : t :=
  assign_all
    (transfer "other" "BB"
       :: map (fun i => transfer (pretty i) "A") (seq 0 10))
    (new (Config (Some 3%N) (Some "sender") (Some 100)) 0).

Lemma new_loads_consistent cfg now : loads_consistent (new cfg now).
Proof.
  unfold loads_consistent, new; simpl.
  apply Forall_replicate. reflexivity.
Qed.

Lemma assignToShard_loads_consistent sha256_prefix transaction m i m' :
  assignToShard sha256_prefix transaction m = Some (i, m') ->
  loads_consistent m -> loads_consistent m'.
Proof.
  unfold assignToShard, loads_consistent.
  destruct (shards m !! _) as [sh|] eqn:Hsh; [|discriminate].
  intros [= <- <-] Hm. simpl. apply Forall_insert; [exact Hm|].
  pose proof (Forall_lookup_1 _ _ _ _ Hm Hsh) as Hok.
  unfold load_matches in *. simpl. rewrite length_app. simpl. lia.
Qed.

Lemma removeTransactionsFromShard_loads_consistent shardIndex ids m n m' :
  removeTransactionsFromShard shardIndex ids m = Some (n, m') ->
  loads_consistent m -> loads_consistent m'.
Proof.
  unfold removeTransactionsFromShard, loads_consistent.
  destruct (_ || _); [discriminate|].
  destruct (shards m !! _) as [sh|] eqn:Hsh; [|discriminate].
  intros [= <- <-] Hm. simpl. apply Forall_insert; [exact Hm|].
  pose proof (Forall_lookup_1 _ _ _ _ Hm Hsh) as Hok.
  unfold load_matches in *. simpl. lia.
Qed.

Lemma move_loop_loads_consistent overloaded : forall underloaded l,
  Forall load_matches l -> Forall load_matches (move_loop overloaded underloaded l).
Proof.
  induction overloaded as [|overIndex overloaded IH];
    intros [|underIndex underloaded] l Hl; simpl; try exact Hl.
  destruct (l !! overIndex) as [overShard|] eqn:Ho; [|exact Hl].
  destruct (l !! underIndex) as [underShard|] eqn:Hu; [|exact Hl].
  destruct (Z.leb_spec ((load overShard - load underShard) / 2) 0) as [|Hpos];
    [now apply IH|].
  pose proof (Forall_lookup_1 _ _ _ _ Hl Ho) as Hover.
  pose proof (Forall_lookup_1 _ _ _ _ Hl Hu) as Hunder.
  unfold load_matches in Hover, Hunder.
  assert (Hfits : (load overShard - load underShard) / 2 <= load overShard).
  { Z.div_mod_to_equations. lia. }
  apply IH. apply Forall_insert; [apply Forall_insert; [exact Hl|]|];
    unfold load_matches; simpl.
  - rewrite length_drop. lia.
  - rewrite length_app, length_take. lia.
Qed.

(** Replacing one shard trades its transactions for the new ones. *)
Lemma all_transactions_insert l i sh old :
  l !! i = Some old ->
  all_transactions (<[i := sh]> l) ++ transactions old
  ≡ₚ all_transactions l ++ transactions sh.
Proof.
  unfold all_transactions. revert i.
  induction l as [|x l IH]; intros [|i] Hi; simpl in *; try discriminate.
  - injection Hi as ->. rewrite <- !app_assoc.
    rewrite (Permutation_app_comm (concat (map transactions l)) (transactions old)).
    rewrite (Permutation_app_comm (concat (map transactions l)) (transactions sh)).
    rewrite !app_assoc. apply Permutation_app_tail, Permutation_app_comm.
  - rewrite <- !app_assoc. apply Permutation_app_head. now apply IH.
Qed.

(** Moving a prefix [moved] of one list to the end of another, seen from
    the two exchanges it is made of. *)
Lemma move_exchange {A : Type} (a a1 a2 u o moved rest : list A) :
  o = moved ++ rest ->
  a1 ++ o ≡ₚ a ++ rest ->
  a2 ++ u ≡ₚ a1 ++ (u ++ moved) ->
  a2 ≡ₚ a.
Proof.
  intros -> H1 H2.
  apply (Permutation_app_inv_r (u ++ (moved ++ rest))).
  transitivity ((a2 ++ u) ++ (moved ++ rest)).
  { now rewrite app_assoc. }
  rewrite H2.
  transitivity ((a1 ++ (moved ++ rest)) ++ (u ++ moved)).
  { rewrite <- !(app_assoc a1). apply Permutation_app_head, Permutation_app_comm. }
  rewrite H1, <- (app_assoc a). apply Permutation_app_head.
  rewrite (app_assoc u moved rest). apply Permutation_app_comm.
Qed.

Lemma move_loop_permutation overloaded : forall underloaded l,
  all_transactions (move_loop overloaded underloaded l) ≡ₚ all_transactions l.
Proof.
  induction overloaded as [|overIndex overloaded IH];
    intros [|underIndex underloaded] l; simpl; try reflexivity.
  destruct (l !! overIndex) as [overShard|] eqn:Ho; [|reflexivity].
  destruct (l !! underIndex) as [underShard|] eqn:Hu; [|reflexivity].
  destruct (Z.leb_spec ((load overShard - load underShard) / 2) 0) as [|Hpos];
    [now apply IH|].
  rewrite IH.
  set (n := Z.to_nat ((load overShard - load underShard) / 2)).
  set (overShard' := {| transactions := drop n (transactions overShard);
                        load := _ |}).
  set (underShard' := {| transactions := transactions underShard ++ _;
                         load := _ |}).
  assert (Hne : overIndex <> underIndex).
  { intros ->. rewrite Ho in Hu. injection Hu as ->.
    rewrite Z.sub_diag in Hpos. change (0 / 2) with 0 in Hpos. lia. }
  pose proof (all_transactions_insert l overIndex overShard' overShard Ho) as H1.
  pose proof (all_transactions_insert (<[overIndex := overShard']> l)
                underIndex underShard' underShard) as H2.
  rewrite list_lookup_insert_ne in H2 by exact Hne. specialize (H2 Hu).
  eapply move_exchange; [|exact H1|exact H2].
  symmetry. apply take_drop.
Qed.

Lemma move_loop_length overloaded : forall underloaded l,
  length (move_loop overloaded underloaded l) = length l.
Proof.
  induction overloaded as [|overIndex overloaded IH];
    intros [|underIndex underloaded] l; simpl; try reflexivity.
  destruct (l !! overIndex) as [overShard|]; [|reflexivity].
  destruct (l !! underIndex) as [underShard|]; [|reflexivity].
  destruct (_ <=? 0); rewrite IH; [reflexivity|].
  now rewrite !length_insert.
Qed.

Lemma rebalance_spec now m :
  loads_consistent m ->
  loads_consistent (rebalance now m)
  /\ all_transactions (shards (rebalance now m)) ≡ₚ all_transactions (shards m)
  /\ length (shards (rebalance now m)) = length (shards m).
Proof.
  intros Hm. unfold rebalance.
  destruct (_ <? _); [split; [exact Hm | split; reflexivity]|].
  destruct (classify _ 0 (shards m)) as [overloaded underloaded].
  unfold loads_consistent. simpl.
  split; [now apply move_loop_loads_consistent|].
  split; [apply move_loop_permutation | apply move_loop_length].
Qed.

(** On a manager with at least one shard, [assignToShard] does not fail. *)
Lemma assignToShard_total sha256_prefix transaction m :
  shards m <> [] -> is_Some (assignToShard sha256_prefix transaction m).
Proof.
  intros Hne. unfold assignToShard.
  destruct (shards m !! _) as [sh|] eqn:Hsh; [eauto|].
  apply lookup_ge_None in Hsh. unfold getShardIndex, shardCount in Hsh.
  destruct (shards m) as [|sh0 l]; [congruence|].
  set (n := N.of_nat (length (sh0 :: l))) in *.
  assert (Hlt : (sha256_prefix
                   (if String.eqb (shardBy m) "sender"
                    then Transaction.fromWallet transaction
                    else if String.eqb (shardBy m) "receiver"
                    then Transaction.toWallet transaction
                    else if String.eqb (shardBy m) "amount"
                    then pretty (Transaction.amount transaction)
                    else Transaction.id transaction) mod n < n)%N).
  { apply N.mod_lt. subst n. simpl. lia. }
  subst n. lia.
Qed.

(** C10. In every shard the load counter equals the number of
    transactions held: at start-up every shard is empty with load 0; on a
    manager where the equality holds, [assignToShard] (which succeeds as
    soon as there is a shard), [removeTransactionsFromShard] and
    [rebalance] give a manager where it holds; and [rebalance] leaves the
    transactions of all shards together the same up to order, hence their
    number, and the number of shards. *)
Theorem load_counter_invariant (sha256_prefix : string -> N) (m : t) :
  loads_consistent m ->
  (forall cfg now, loads_consistent (new cfg now)
     /\ Forall (fun sh => load sh = 0 /\ transactions sh = []) (shards (new cfg now)))
  /\ (forall transaction,
        (shards m <> [] -> is_Some (assignToShard sha256_prefix transaction m))
        /\ forall i m', assignToShard sha256_prefix transaction m = Some (i, m') ->
             loads_consistent m')
  /\ (forall shardIndex transactionIds removedCount m',
        removeTransactionsFromShard shardIndex transactionIds m
        = Some (removedCount, m') -> loads_consistent m')
  /\ (forall now,
        loads_consistent (rebalance now m)
        /\ all_transactions (shards (rebalance now m)) ≡ₚ all_transactions (shards m)
        /\ length (all_transactions (shards (rebalance now m)))
           = length (all_transactions (shards m))
        /\ length (shards (rebalance now m)) = length (shards m)).
Proof.
  intros Hm. split; [|split; [|split]].
  - intros cfg now. split; [apply new_loads_consistent|].
    unfold new; simpl. now apply Forall_replicate.
  - intros transaction. split; [apply assignToShard_total|].
    intros i m' Hassign.
    exact (assignToShard_loads_consistent _ _ _ _ _ Hassign Hm).
  - intros shardIndex ids n m' Hremove.
    exact (removeTransactionsFromShard_loads_consistent _ _ _ _ _ Hremove Hm).
  - intros now. destruct (rebalance_spec now m Hm) as (Hc & Hp & Hl).
    repeat split; try assumption. now apply Permutation_length.
Qed.

Lemma load_counter_invariant_witness :
  (forall cfg now, loads_consistent (new cfg now)
     /\ Forall (fun sh => load sh = 0 /\ transactions sh = []) (shards (new cfg now)))
  /\ (forall transaction,
        (shards unbalanced <> [] ->
         is_Some (assignToShard length_hash transaction unbalanced))
        /\ forall i m', assignToShard length_hash transaction unbalanced = Some (i, m') ->
             loads_consistent m')
  /\ (forall shardIndex transactionIds removedCount m',
        removeTransactionsFromShard shardIndex transactionIds unbalanced
        = Some (removedCount, m') -> loads_consistent m')
  /\ (forall now,
        loads_consistent (rebalance now unbalanced)
        /\ all_transactions (shards (rebalance now unbalanced))
           ≡ₚ all_transactions (shards unbalanced)
        /\ length (all_transactions (shards (rebalance now unbalanced)))
           = length (all_transactions (shards unbalanced))
        /\ length (shards (rebalance now unbalanced)) = length (shards unbalanced)).
Proof.
  apply (load_counter_invariant length_hash unbalanced).
  vm_compute. repeat constructor.
Defined.

Example unbalanced_loads : map load (shards unbalanced) = [0; 10; 1].
Proof. vm_compute. reflexivity. Qed.

Example rebalanced_loads :
  map load (shards (rebalance 100 unbalanced)) = [5; 5; 1]
  /\ map (fun sh => length (transactions sh)) (shards (rebalance 100 unbalanced))
     = [5; 5; 1]%nat.
Proof. vm_compute. split; reflexivity. Qed.

(** *** Removal from a shard *)

Lemma shard_index_in_range (shardIndex : Z) (m : t) :
  0 <= shardIndex < Z.of_N (shardCount m) ->
  (shardIndex <? 0) || (shardIndex >=? Z.of_N (shardCount m)) = false
  /\ exists sh, shards m !! Z.to_nat shardIndex = Some sh.
Proof.
  intros Hrange. split.
  - destruct (Z.ltb_spec shardIndex 0); [lia|].
    destruct (Z.geb_spec shardIndex (Z.of_N (shardCount m))); [lia | reflexivity].
  - apply lookup_lt_is_Some. unfold shardCount in Hrange. lia.
Qed.

(** X9. [removeTransactionsFromShard] and [getTransactionsFromShard]
    raise an error on an index below zero or not below [shardCount].  On
    an index in range the removal leaves in that shard exactly the
    transactions whose id is not listed, in their order, returns how many
    it took out, lowers the load counter by that number, and leaves every
    other shard as it was. *)
Theorem removeTransactionsFromShard_spec (shardIndex : Z)
    (transactionIds : list string) (m : t) :
  (shardIndex < 0 \/ Z.of_N (shardCount m) <= shardIndex ->
     removeTransactionsFromShard shardIndex transactionIds m = None
     /\ getTransactionsFromShard shardIndex m = None)
  /\ (0 <= shardIndex < Z.of_N (shardCount m) ->
      exists removedCount m' sh sh',
        removeTransactionsFromShard shardIndex transactionIds m
        = Some (removedCount, m')
        /\ shards m !! Z.to_nat shardIndex = Some sh
        /\ shards m' !! Z.to_nat shardIndex = Some sh'
        /\ getTransactionsFromShard shardIndex m' = Some (transactions sh')
        /\ transactions sh' = Transaction.remove_ids transactionIds (transactions sh)
        /\ (forall tx, In tx (transactions sh') <->
                       In tx (transactions sh) /\ Transaction.id tx ∉ transactionIds)
        /\ removedCount
           = Z.of_nat (length (transactions sh)) - Z.of_nat (length (transactions sh'))
        /\ 0 <= removedCount
        /\ load sh' = load sh - removedCount
        /\ (forall j, j <> Z.to_nat shardIndex -> shards m' !! j = shards m !! j)
        /\ shardCount m' = shardCount m).
Proof.
  split.
  - intros Hout. unfold removeTransactionsFromShard, getTransactionsFromShard.
    assert ((shardIndex <? 0) || (shardIndex >=? Z.of_N (shardCount m)) = true) as ->;
      [|now split].
    destruct (Z.ltb_spec shardIndex 0); [reflexivity|].
    destruct (Z.geb_spec shardIndex (Z.of_N (shardCount m))); [reflexivity | lia].
  - intros Hrange. destruct (shard_index_in_range _ _ Hrange) as [Hok [sh Hsh]].
    unfold removeTransactionsFromShard. rewrite Hok, Hsh.
    set (kept := Transaction.remove_ids transactionIds (transactions sh)).
    set (removedCount := Z.of_nat (length (transactions sh)) - Z.of_nat (length kept)).
    set (sh' := {| transactions := kept; load := load sh - removedCount |}).
    assert (Hlt : (Z.to_nat shardIndex < length (shards m))%nat)
      by (unfold shardCount in Hrange; lia).
    assert (Hsh' : <[Z.to_nat shardIndex := sh']> (shards m) !! Z.to_nat shardIndex
                   = Some sh') by now apply list_lookup_insert_eq.
    assert (Hcount : shardCount (with_shards m (<[Z.to_nat shardIndex := sh']> (shards m)))
                     = shardCount m).
    { unfold shardCount. cbn [with_shards shards]. now rewrite length_insert. }
    exists removedCount, (with_shards m (<[Z.to_nat shardIndex := sh']> (shards m))),
      sh, sh'.
    split; [reflexivity|]. split; [reflexivity|]. split; [exact Hsh'|].
    split.
    { unfold getTransactionsFromShard. rewrite Hcount, Hok.
      cbn [with_shards shards]. now rewrite Hsh'. }
    split; [reflexivity|].
    split; [intros tx; apply Transaction.remove_ids_In|].
    split; [reflexivity|].
    split.
    { pose proof (Transaction.remove_ids_length transactionIds (transactions sh)).
      unfold removedCount, kept. lia. }
    split; [reflexivity|]. split; [|exact Hcount].
    intros j Hj. cbn [with_shards shards]. now apply list_lookup_insert_ne.
Qed.

Lemma removeTransactionsFromShard_spec_witness :
  removeTransactionsFromShard (-1) ["0"] unbalanced = None
  /\ removeTransactionsFromShard 3 ["0"] unbalanced = None
  /\ exists removedCount m',
       removeTransactionsFromShard 1 ["0"; "3"; "x"] unbalanced
       = Some (removedCount, m')
       /\ removedCount = 2
       /\ map load (shards m') = [0; 8; 1].
Proof.
  destruct (removeTransactionsFromShard_spec (-1) ["0"] unbalanced) as [Hlow _].
  destruct (removeTransactionsFromShard_spec 3 ["0"] unbalanced) as [Hhigh _].
  destruct (removeTransactionsFromShard_spec 1 ["0"; "3"; "x"] unbalanced)
    as [_ Hin].
  split; [apply Hlow; left; lia|]. split; [apply Hhigh; right; vm_compute; discriminate|].
  destruct Hin as (removedCount & m' & sh & sh' & Heq & _);
    [vm_compute; split; [discriminate | reflexivity]|].
  exists removedCount, m'. split; [exact Heq|].
  vm_compute in Heq. injection Heq as <- <-. split; reflexivity.
Defined.

(** X10. Removal undoes assignment: after [assignToShard] has put a
    transaction in shard [i], [removeTransactionsFromShard(i, [id])] with
    its id removes exactly one transaction and gives back the manager that
    was there before the assignment, provided no other transaction of that
    shard carries the same id. *)
Theorem assign_then_remove (sha256_prefix : string -> N)
    (transaction : Transaction.t) (m m1 : t) (i : nat) :
  assignToShard sha256_prefix transaction m = Some (i, m1) ->
  (forall sh tx, shards m !! i = Some sh -> In tx (transactions sh) ->
     Transaction.id tx <> Transaction.id transaction) ->
  removeTransactionsFromShard (Z.of_nat i) [Transaction.id transaction] m1
  = Some (1, m).
Proof.
  unfold assignToShard. set (i0 := N.to_nat (getShardIndex _ _ _)).
  destruct (shards m !! i0) as [sh|] eqn:Hsh; [|discriminate].
  intros [= <- <-] Hfresh. specialize (Hfresh sh).
  assert (Hlt : (i0 < length (shards m))%nat) by (eapply lookup_lt_Some; eassumption).
  unfold removeTransactionsFromShard, shardCount. cbn [with_shards shards].
  rewrite length_insert, Nat2Z.id.
  destruct (Z.ltb_spec (Z.of_nat i0) 0); [lia|].
  destruct (Z.geb_spec (Z.of_nat i0) (Z.of_N (N.of_nat (length (shards m)))));
    [lia|]. cbn [orb].
  rewrite list_lookup_insert_eq by exact Hlt. cbn [transactions load].
  assert (Hkept : Transaction.remove_ids [Transaction.id transaction]
                    (transactions sh ++ [transaction]) = transactions sh).
  { rewrite Transaction.remove_ids_app, Transaction.remove_ids_foreign.
    - unfold Transaction.remove_ids. simpl.
      rewrite bool_decide_eq_true_2 by set_solver. simpl. apply app_nil_r.
    - intros tx Htx Hin. apply list_elem_of_singleton in Hin.
      now apply (Hfresh tx Hsh Htx). }
  rewrite Hkept, length_app. simpl length.
  f_equal. f_equal; [lia|].
  rewrite list_insert_insert_eq. unfold with_shards.
  cbn [shards shardBy rebalanceInterval lastRebalanceTime].
  match goal with
  | |- context [<[i0 := ?sh']> (shards m)] =>
      replace sh' with sh by (destruct sh; cbn [transactions load]; f_equal; lia)
  end.
  rewrite list_insert_id by exact Hsh. now destruct m.
Qed.

Lemma assign_then_remove_witness :
  let m := new (Config (Some 3%N) (Some "sender") (Some 100)) 0 in
  let m1 := with_shards m
              [ {| transactions := []; load := 0 |};
                {| transactions := [transfer "t1" "A"]; load := 1 |};
                {| transactions := []; load := 0 |} ] in
  removeTransactionsFromShard 1 ["t1"] m1 = Some (1, m).
Proof.
  apply (assign_then_remove length_hash (transfer "t1" "A")
           (new (Config (Some 3%N) (Some "sender") (Some 100)) 0) _ 1%nat).
  - vm_compute. reflexivity.
  - intros sh tx Hsh Hin. vm_compute in Hsh. injection Hsh as <-. destruct Hin.
Defined.

(** *** The range of the loads *)

Lemma move_loop_range (lo hi : Z) overloaded : forall underloaded l,
  Forall (fun sh => lo <= load sh <= hi) l ->
  Forall (fun sh => lo <= load sh <= hi) (move_loop overloaded underloaded l).
Proof.
  induction overloaded as [|overIndex overloaded IH];
    intros [|underIndex underloaded] l Hl; simpl; try exact Hl.
  destruct (l !! overIndex) as [overShard|] eqn:Ho; [|exact Hl].
  destruct (l !! underIndex) as [underShard|] eqn:Hu; [|exact Hl].
  destruct (Z.leb_spec ((load overShard - load underShard) / 2) 0) as [|Hpos];
    [now apply IH|].
  pose proof (Forall_lookup_1 _ _ _ _ Hl Ho) as Hover.
  pose proof (Forall_lookup_1 _ _ _ _ Hl Hu) as Hunder.
  simpl in Hover, Hunder.
  apply IH. apply Forall_insert; [apply Forall_insert; [exact Hl|]|];
    simpl; Z.div_mod_to_equations; lia.
Qed.

(** X11. [rebalance] never makes the extremes worse: bounds that hold
    for the load of every shard before the call hold after it, so no shard
    ends above the largest load or below the smallest load there was. *)
Theorem rebalance_keeps_range (lo hi now : Z) (m : t) :
  Forall (fun sh => lo <= load sh <= hi) (shards m) ->
  Forall (fun sh => lo <= load sh <= hi) (shards (rebalance now m)).
Proof.
  intros Hm. unfold rebalance. destruct (_ <? _); [exact Hm|].
  destruct (classify _ 0 (shards m)) as [overloaded underloaded].
  cbn [shards]. now apply move_loop_range.
Qed.

Lemma rebalance_keeps_range_witness :
  Forall (fun sh => 0 <= load sh <= 10) (shards (rebalance 100 unbalanced)).
Proof.
  apply (rebalance_keeps_range 0 10 100 unbalanced).
  vm_compute. repeat constructor; discriminate.
Defined.

End ShardManager.

(** ** AutoScalingManager

    The count of workers the manager asks for.  [getCPUUsage()], a
    measurement of the process over 100 ms, is an argument of the check
    that awaits it; the calls that [scaleWorkers] makes on Node's
    [cluster] to start and stop processes are left out. *)

Module AutoScalingManager.
Import JsNumber.

Record config := Config {
  ENABLED : option bool;
  MIN_WORKERS : option Z;
  MAX_WORKERS : option Z;
  SCALE_UP_THRESHOLD : option float;
  SCALE_DOWN_THRESHOLD : option float;
  SCALE_CHECK_INTERVAL : option Z;
  COOLDOWN_PERIOD : option Z
}.

Record t := Manager {
  enabled : bool;
  minWorkers : Z;
  maxWorkers : Z;
  scaleUpThreshold : float;
  scaleDownThreshold : float;
  scaleCheckInterval : Z;
  cooldownPeriod : Z;
  currentWorkers : Z;
  lastScaleTime : Z;
  cpuHistory : list float;
  historyMaxLength : nat
}.

(** [x || d] on an optional number: absent and [0] both give the default. *)
Definition or_default (x : option Z) (d : Z) : Z :=
  match x with
  | Some v => if v =? 0 then d else v
  | None => d
  end.

(** [x || d] on an optional fraction: absent, [0] and NaN give the default. *)
Definition or_default_float (x : option float) (d : float) : float :=
  match x with
  | Some v => if PrimFloat.eqb v 0 || is_nan v then d else v
  | None => d
  end.

(** [cpus] is [os.cpus().length]. *)
Definition new (cfg : config) (cpus : Z) : t :=
  {| enabled := default false (ENABLED cfg) || true;
     minWorkers := or_default (MIN_WORKERS cfg) 1;
     maxWorkers := or_default (MAX_WORKERS cfg) cpus;
     scaleUpThreshold := or_default_float (SCALE_UP_THRESHOLD cfg) 0.7;
     scaleDownThreshold := or_default_float (SCALE_DOWN_THRESHOLD cfg) 0.3;
     scaleCheckInterval := or_default (SCALE_CHECK_INTERVAL cfg) 30000;
     cooldownPeriod := or_default (COOLDOWN_PERIOD cfg) 60000;
     currentWorkers := or_default (MIN_WORKERS cfg) 1;
     lastScaleTime := 0;
     cpuHistory := [];
     historyMaxLength := 10 |}.

Definition set_cpuHistory (m : t) (history : list float) : t :=
  {| enabled := enabled m; minWorkers := minWorkers m; maxWorkers := maxWorkers m;
     scaleUpThreshold := scaleUpThreshold m;
     scaleDownThreshold := scaleDownThreshold m;
     scaleCheckInterval := scaleCheckInterval m;
     cooldownPeriod := cooldownPeriod m;
     currentWorkers := currentWorkers m; lastScaleTime := lastScaleTime m;
     cpuHistory := history; historyMaxLength := historyMaxLength m |}.

Definition set_lastScaleTime (m : t) (now : Z) : t :=
  {| enabled := enabled m; minWorkers := minWorkers m; maxWorkers := maxWorkers m;
     scaleUpThreshold := scaleUpThreshold m;
     scaleDownThreshold := scaleDownThreshold m;
     scaleCheckInterval := scaleCheckInterval m;
     cooldownPeriod := cooldownPeriod m;
     currentWorkers := currentWorkers m; lastScaleTime := now;
     cpuHistory := cpuHistory m; historyMaxLength := historyMaxLength m |}.

Definition scaleWorkers (newWorkerCount : Z) (m : t) : t :=
  if newWorkerCount =? currentWorkers m then m
  else
    {| enabled := enabled m; minWorkers := minWorkers m; maxWorkers := maxWorkers m;
       scaleUpThreshold := scaleUpThreshold m;
       scaleDownThreshold := scaleDownThreshold m;
       scaleCheckInterval := scaleCheckInterval m;
       cooldownPeriod := cooldownPeriod m;
       currentWorkers := newWorkerCount; lastScaleTime := lastScaleTime m;
       cpuHistory := cpuHistory m; historyMaxLength := historyMaxLength m |}.

(** [checkScaling()], with the reading [now] of the clock and the usage
    [cpuUsage] that [getCPUUsage()] resolves to. *)
Definition checkScaling (now : Z) (cpuUsage : float) (m : t) : t :=
  if negb (enabled m) then m
  else if now - lastScaleTime m <? cooldownPeriod m then m
  else
    let pushed := cpuHistory m ++ [cpuUsage] in
    let history :=
      if (historyMaxLength m <? length pushed)%nat then tail pushed else pushed in
    let m1 := set_cpuHistory m history in
    let avgCpuUsage :=
      (foldl (fun sum usage => sum + usage) 0 history
       / of_Z (Z.of_nat (length history)))%float in
    if PrimFloat.ltb (scaleUpThreshold m1) avgCpuUsage
       && (currentWorkers m1 <? maxWorkers m1)
    then
      let newWorkers := Z.min (currentWorkers m1 + 1) (maxWorkers m1) in
      set_lastScaleTime (scaleWorkers newWorkers m1) now
    else if PrimFloat.ltb avgCpuUsage (scaleDownThreshold m1)
            && (currentWorkers m1 >? minWorkers m1)
    then
      let newWorkers := Z.max (currentWorkers m1 - 1) (minWorkers m1) in
      set_lastScaleTime (scaleWorkers newWorkers m1) now
    else m1.

(** Successive checks, each with its clock reading and its measurement. *)
Definition checks (readings : list (Z * float)) (m : t) : t :=
  foldl (fun m reading => checkScaling (fst reading) (snd reading) m) m readings.

(** What one check can do to the count of workers. *)
Lemma checkScaling_spec now cpuUsage m :
  let m' := checkScaling now cpuUsage m in
  minWorkers m' = minWorkers m /\ maxWorkers m' = maxWorkers m
  /\ historyMaxLength m' = historyMaxLength m
  /\ cooldownPeriod m' = cooldownPeriod m
  /\ enabled m' = enabled m
  /\ (length (cpuHistory m') <= Nat.max (length (cpuHistory m)) (historyMaxLength m))%nat
  /\ (m' = m
      \/ currentWorkers m' = currentWorkers m /\ lastScaleTime m' = lastScaleTime m
         /\ cooldownPeriod m <= now - lastScaleTime m
      \/ currentWorkers m' = currentWorkers m + 1
         /\ currentWorkers m' <= maxWorkers m /\ lastScaleTime m' = now
         /\ cooldownPeriod m <= now - lastScaleTime m
      \/ currentWorkers m' = currentWorkers m - 1
         /\ minWorkers m <= currentWorkers m' /\ lastScaleTime m' = now
         /\ cooldownPeriod m <= now - lastScaleTime m).
Proof.
  unfold checkScaling.
  destruct (negb (enabled m));
    [repeat (split; [first [reflexivity | lia]|]); now left|].
  destruct (Z.ltb_spec (now - lastScaleTime m) (cooldownPeriod m)) as [|Hcool];
    [repeat (split; [first [reflexivity | lia]|]); now left|].
  cbv zeta.
  set (pushed := cpuHistory m ++ [cpuUsage]).
  set (history := if (historyMaxLength m <? length pushed)%nat
                  then tail pushed else pushed).
  assert (Hlen : (length history
                  <= Nat.max (length (cpuHistory m)) (historyMaxLength m))%nat).
  { unfold history, pushed.
    destruct (Nat.ltb_spec (historyMaxLength m) (length (cpuHistory m ++ [cpuUsage])))
      as [Hover|Hfits].
    - rewrite length_app in Hover. simpl in Hover.
      destruct (cpuHistory m) as [|x l]; simpl; [lia|].
      rewrite length_app. simpl. lia.
    - lia. }
  clearbody history. clear pushed.
  unfold scaleWorkers, set_lastScaleTime, set_cpuHistory.
  cbn [minWorkers maxWorkers historyMaxLength cooldownPeriod enabled cpuHistory
       currentWorkers lastScaleTime scaleUpThreshold scaleDownThreshold].
  destruct (PrimFloat.ltb (scaleUpThreshold m) _ && _) eqn:Hup.
  - apply andb_prop in Hup as [_ Hup]. apply Z.ltb_lt in Hup.
    rewrite Z.min_l by lia.
    destruct (Z.eqb_spec (currentWorkers m + 1) (currentWorkers m)); [lia|].
    cbn [minWorkers maxWorkers historyMaxLength cooldownPeriod enabled cpuHistory
         currentWorkers lastScaleTime].
    repeat (split; [first [reflexivity | exact Hlen]|]).
    right; right; left. repeat split; lia.
  - destruct (PrimFloat.ltb _ (scaleDownThreshold m) && _) eqn:Hdown.
    + apply andb_prop in Hdown as [_ Hdown]. apply Z.gtb_lt in Hdown.
      rewrite Z.max_l by lia.
      destruct (Z.eqb_spec (currentWorkers m - 1) (currentWorkers m)); [lia|].
      cbn [minWorkers maxWorkers historyMaxLength cooldownPeriod enabled cpuHistory
           currentWorkers lastScaleTime].
      repeat (split; [first [reflexivity | exact Hlen]|]).
      right; right; right. repeat split; lia.
    + repeat (split; [first [reflexivity | exact Hlen]|]).
      right; left. repeat split; lia.
Qed.

(** X12. The manager is enabled whatever the configuration says, also
    for [ENABLED: false].  For limits [minWorkers <= maxWorkers], after any
    sequence of checks on a new manager the count of workers lies between
    the two limits, and the usage history holds at most 10 readings. *)
Theorem workers_within_limits (cfg : config) (cpus : Z)
    (readings : list (Z * float)) :
  enabled (new cfg cpus) = true
  /\ enabled (checks readings (new cfg cpus)) = true
  /\ (length (cpuHistory (checks readings (new cfg cpus))) <= 10)%nat
  /\ (minWorkers (new cfg cpus) <= maxWorkers (new cfg cpus) ->
      minWorkers (new cfg cpus) <= currentWorkers (checks readings (new cfg cpus))
      <= maxWorkers (new cfg cpus)).
Proof.
  assert (Hon : enabled (new cfg cpus) = true).
  { unfold new. cbn [enabled]. apply orb_true_r. }
  split; [exact Hon|].
  set (m0 := new cfg cpus) in *.
  assert (H : enabled (checks readings m0) = true
              /\ minWorkers (checks readings m0) = minWorkers m0
              /\ maxWorkers (checks readings m0) = maxWorkers m0
              /\ historyMaxLength (checks readings m0) = 10%nat
              /\ (length (cpuHistory (checks readings m0)) <= 10)%nat
              /\ (minWorkers m0 <= maxWorkers m0 ->
                  minWorkers m0 <= currentWorkers (checks readings m0)
                  <= maxWorkers m0)).
  { unfold checks. induction readings as [|[now cpuUsage] readings IH] using rev_ind.
    - cbn [foldl]. split; [exact Hon|]. split; [reflexivity|].
      split; [reflexivity|]. split; [reflexivity|]. split; [simpl; lia|].
      intros Hlim. change (currentWorkers m0) with (minWorkers m0). lia.
    - rewrite foldl_app. cbn [foldl fst snd].
      set (m := foldl _ m0 readings) in *.
      destruct IH as (He & Hmin & Hmax & Hh & Hlen & Hrange).
      pose proof (checkScaling_spec now cpuUsage m) as
        (Hmin' & Hmax' & Hh' & _ & He' & Hlen' & Hcase).
      cbv zeta in *. rewrite Hmin', Hmax', Hh', He'.
      split; [exact He|]. split; [exact Hmin|]. split; [exact Hmax|].
      split; [exact Hh|]. split; [lia|]. intros Hlim. specialize (Hrange Hlim).
      destruct Hcase as [-> | [(-> & _) | [(-> & Hle & _) | (-> & Hge & _)]]]; lia. }
  destruct H as (He & _ & _ & _ & Hlen & Hrange). auto.
Qed.


Lemma workers_within_limits_witness :
  let m := checks [(60000, 1%float); (90000, 1%float); (120000, 1%float)]
             (new (Config (Some false) None (Some 4) None None None None) 8) in
  enabled m = true /\ 1 <= currentWorkers m <= 4.
Proof.
  destruct (workers_within_limits
              (Config (Some false) None (Some 4) None None None None) 8
              [(60000, 1%float); (90000, 1%float); (120000, 1%float)])
    as (_ & Hon & _ & Hrange).
  split; [exact Hon|]. apply Hrange. vm_compute. discriminate.
Defined.

(** A run: four workers allowed, full load; the second check falls into
    the cooldown of the first. *)
Example scaling_run :
  let m0 := new (Config (Some false) None (Some 4) None None None None) 8 in
  map (fun readings => currentWorkers (checks readings m0))
      [[(60000, 1%float)];
       [(60000, 1%float); (90000, 1%float)];
       [(60000, 1%float); (90000, 1%float); (120000, 1%float)]]
  = [2; 2; 3].
Proof. vm_compute. reflexivity. Qed.

End AutoScalingManager.

(** ** TransactionOptimizer *)

Module TransactionOptimizer.
Import JsNumber.

Record t := Optimizer {
  transactionGroups : gmap string (list Transaction.t);
  priorityQueue : list Transaction.t
}.

Definition new : t := {| transactionGroups := ∅; priorityQueue := [] |}.

Definition calculatePriority (now : Z) (transaction : Transaction.t) : float :=
  let amount := of_Z (Transaction.amount transaction) in
  let age := of_Z (now - Transaction.timestamp transaction) in
  let amountFactor := (Math_min 1 (amount / 1000000) * 0.7)%float in
  let ageFactor := (Math_min 1 (1 / (age + 1) * 10000) * 0.3)%float in
  (amountFactor + ageFactor)%float.

(** [priorityQueue.sort((a, b) => b.priority - a.priority)]: a stable
    sort; [y] moves in front of an earlier [x] only when the comparator
    called on [(y, x)] is negative. *)
Fixpoint insert_by_priority (x : Transaction.t) (l : list Transaction.t)
  : list Transaction.t :=
  match l with
  | [] => [x]
  | y :: l' =>
      if PrimFloat.ltb (Transaction.priority x - Transaction.priority y)%float 0
      then y :: insert_by_priority x l'
      else x :: l
  end.

Definition sort_by_priority (l : list Transaction.t) : list Transaction.t :=
  foldr insert_by_priority [] l.

(** Returns the priority, the transaction object as it stands after
    [transaction.priority = priority], and the optimizer. *)
Definition addTransaction (now : Z) (transaction : Transaction.t) (o : t)
  : float * Transaction.t * t :=
  let priority := calculatePriority now transaction in
  let transaction' := Transaction.with_priority transaction priority in
  let queue := sort_by_priority (priorityQueue o ++ [transaction']) in
  let senderKey := Transaction.fromWallet transaction' in
  let group := default [] (transactionGroups o !! senderKey) in
  (priority, transaction',
   {| transactionGroups := <[senderKey := group ++ [transaction']]> (transactionGroups o);
      priorityQueue := queue |}).

Definition getOptimizedTransactions (maxCount : nat) (o : t) : list Transaction.t :=
  take maxCount (priorityQueue o).

Definition removeTransactions (transactionIds : list string) (o : t) : t :=
  {| priorityQueue := Transaction.remove_ids transactionIds (priorityQueue o);
     transactionGroups :=
       omap (fun transactions =>
               match Transaction.remove_ids transactionIds transactions with
               | [] => None
               | kept => Some kept
               end) (transactionGroups o) |}.

(** [getTransactionGroups().get(sender)], empty for an unknown sender. *)
Definition group (sender : string) (o : t) : list Transaction.t :=
  default [] (transactionGroups o !! sender).

(** The calls that write the optimizer. *)
Inductive call :=
| Add (now : Z) (transaction : Transaction.t)
| Remove (transactionIds : list string).

Definition perform (o : t) (c : call) : t :=
  match c with
  | Add now transaction => snd (addTransaction now transaction o)
  | Remove transactionIds => removeTransactions transactionIds o
  end.

(** The transactions of [l] sent by [sender]. *)
Definition sent_by (sender : string) (l : list Transaction.t) : list Transaction.t :=
  List.filter (fun tx => String.eqb (Transaction.fromWallet tx) sender) l.

(** The two indexes agree: every group holds what the queue holds of its
    sender, and no group is stored empty. *)
Definition agree (o : t) : Prop :=
  forall sender,
    group sender o ≡ₚ sent_by sender (priorityQueue o)
    /\ transactionGroups o !! sender <> Some [].

(** [a] is not below [b]: the priority of [b] is not the greater one. *)
Definition not_below (a b : Transaction.t) : Prop :=
  PrimFloat.ltb (Transaction.priority a) (Transaction.priority b) = false.

(** Every priority is a number. *)
Definition numbers (l : list Transaction.t) : Prop :=
  Forall (fun tx => is_nan (Transaction.priority tx) = false) l.

(** The queue holds numbers only, in descending order of priority. *)
Definition ranked (o : t) : Prop :=
  numbers (priorityQueue o) /\ StronglySorted not_below (priorityQueue o).

Lemma insert_by_priority_perm x l : insert_by_priority x l ≡ₚ x :: l.
Proof.
  induction l as [|y l IH]; simpl; [reflexivity|].
  destruct (PrimFloat.ltb _ 0); [|reflexivity].
  rewrite IH. apply perm_swap.
Qed.

Lemma sort_by_priority_perm l : sort_by_priority l ≡ₚ l.
Proof.
  induction l as [|x l IH]; simpl; [reflexivity|].
  now rewrite insert_by_priority_perm, IH.
Qed.

(** The specification's ordering example: amounts 10 and 1,000,000
    submitted at the same instant. *)
Example larger_amount_first :
  let small := {| Transaction.id := "small"; Transaction.fromWallet := "A";
                  Transaction.toWallet := "B"; Transaction.amount := 10;
                  Transaction.timestamp := 0; Transaction.priority := PrimFloat.nan |} in
  let large := {| Transaction.id := "large"; Transaction.fromWallet := "A";
                  Transaction.toWallet := "B"; Transaction.amount := 1000000;
                  Transaction.timestamp := 0; Transaction.priority := PrimFloat.nan |} in
  let o1 := snd (addTransaction 0 small new) in
  let o2 := snd (addTransaction 0 large o1) in
  map Transaction.id (getOptimizedTransactions 2 o2) = ["large"; "small"].
Proof. vm_compute. reflexivity. Qed.

(** *** The two indexes *)

Lemma sent_by_perm sender l l' : l ≡ₚ l' -> sent_by sender l ≡ₚ sent_by sender l'.
Proof.
  unfold sent_by. induction 1 as [|x l l' _ IH|x y l|l l' l'' _ IH1 _ IH2]; simpl.
  - reflexivity.
  - destruct (String.eqb _ _); [now constructor | exact IH].
  - destruct (String.eqb (Transaction.fromWallet x) sender),
             (String.eqb (Transaction.fromWallet y) sender);
      try reflexivity. apply perm_swap.
  - now transitivity
      (List.filter (fun tx => String.eqb (Transaction.fromWallet tx) sender) l').
Qed.

Lemma sent_by_remove_ids sender transactionIds l :
  sent_by sender (Transaction.remove_ids transactionIds l)
  = Transaction.remove_ids transactionIds (sent_by sender l).
Proof.
  unfold sent_by, Transaction.remove_ids.
  induction l as [|x l IH]; simpl; [reflexivity|].
  destruct (negb _) eqn:Hid, (String.eqb _ _) eqn:Hs; simpl;
    rewrite ?Hid, ?Hs, IH; reflexivity.
Qed.

Lemma agree_new : agree new.
Proof.
  intros sender. unfold group, new; simpl. rewrite lookup_empty. now split.
Qed.

Lemma agree_addTransaction now transaction o :
  agree o -> agree (snd (addTransaction now transaction o)).
Proof.
  intros Ho sender. destruct (Ho sender) as [Hperm Hne].
  unfold addTransaction, group. cbn [snd transactionGroups priorityQueue].
  set (tx' := Transaction.with_priority transaction _).
  change (Transaction.fromWallet tx') with (Transaction.fromWallet transaction).
  assert (Hq : sent_by sender (sort_by_priority (priorityQueue o ++ [tx']))
               ≡ₚ sent_by sender (priorityQueue o) ++ sent_by sender [tx']).
  { rewrite (sent_by_perm _ _ _ (sort_by_priority_perm _)).
    unfold sent_by. now rewrite List.filter_app. }
  rewrite Hq. unfold sent_by at 2. cbn [List.filter].
  change (Transaction.fromWallet tx') with (Transaction.fromWallet transaction).
  destruct (String.eqb_spec (Transaction.fromWallet transaction) sender)
    as [->|Hother].
  - rewrite lookup_insert_eq. cbn [default]. split.
    + apply Permutation_app_tail. exact Hperm.
    + intros [= Hnil]. now destruct (default [] _).
  - rewrite lookup_insert_ne by exact Hother. rewrite app_nil_r. now split.
Qed.

Lemma agree_removeTransactions transactionIds o :
  agree o -> agree (removeTransactions transactionIds o).
Proof.
  intros Ho sender. destruct (Ho sender) as [Hperm Hne].
  unfold removeTransactions, group. cbn [transactionGroups priorityQueue].
  rewrite lookup_omap, sent_by_remove_ids.
  unfold group in Hperm.
  destruct (transactionGroups o !! sender) as [l|]; simpl in Hperm |- *.
  - pose proof (Transaction.remove_ids_perm transactionIds _ _ Hperm) as Hp.
    destruct (Transaction.remove_ids transactionIds l) eqn:Hl; simpl;
      (split; [rewrite <- Hp; reflexivity | discriminate]).
  - split; [|discriminate].
    rewrite <- (Transaction.remove_ids_perm transactionIds _ _ Hperm).
    reflexivity.
Qed.

(** X14. The optimizer's two indexes agree after any sequence of
    [addTransaction] and [removeTransactions] on a new optimizer: the
    group of a sender holds the transactions of the priority queue that
    this sender sent, each as often as the queue does, and no group is
    stored empty. *)
Theorem groups_agree_with_queue (calls : list call) (sender : string) :
  let o := foldl perform new calls in
  group sender o ≡ₚ sent_by sender (priorityQueue o)
  /\ transactionGroups o !! sender <> Some [].
Proof.
  cbv zeta. revert sender. change (agree (foldl perform new calls)).
  induction calls as [|c calls IH] using rev_ind; [exact agree_new|].
  rewrite foldl_app. cbn [foldl].
  destruct c as [now transaction|transactionIds]; cbn [perform].
  - now apply agree_addTransaction.
  - now apply agree_removeTransactions.
Qed.

(** *** The order of the queue *)

Lemma amountFactor_below_infinity (amount : Z) :
  FloatSpec.below_infinity
    (Prim2SF (Math_min 1 (of_Z amount / 1000000) * 0.7)%float).
Proof.
  apply (FloatSpec.capped_factor _ _ 6305039478318694 (-53)); [reflexivity | easy |].
  apply FloatSpec.div_number;
    [apply FloatSpec.of_Z_number | reflexivity | right; exact I].
Qed.

Lemma ageFactor_below_infinity (age : Z) :
  FloatSpec.below_infinity
    (Prim2SF (Math_min 1 (1 / (of_Z age + 1) * 10000) * 0.3)%float).
Proof.
  apply (FloatSpec.capped_factor _ _ 5404319552844595 (-54)); [reflexivity | easy |].
  apply FloatSpec.mul_number; [|exact I].
  apply FloatSpec.div_number; [reflexivity | | left; exact I].
  apply FloatSpec.add_finite_number; [apply FloatSpec.of_Z_number | exact I].
Qed.

Lemma insert_by_priority_test (x y : Transaction.t) :
  PrimFloat.ltb (Transaction.priority x - Transaction.priority y)%float 0
  = PrimFloat.ltb (Transaction.priority x) (Transaction.priority y).
Proof. apply FloatSpec.sub_ltb_zero. Qed.

Lemma numbers_perm l l' : l ≡ₚ l' -> numbers l -> numbers l'.
Proof. unfold numbers. intros Hp. now rewrite Hp. Qed.

Lemma insert_by_priority_sorted (x : Transaction.t) (l : list Transaction.t) :
  numbers l -> StronglySorted not_below l ->
  StronglySorted not_below (insert_by_priority x l).
Proof.
  induction l as [|y l IH]; intros Hn Hs; cbn [insert_by_priority].
  - repeat constructor.
  - apply Forall_cons in Hn as [Hy Hn].
    apply StronglySorted_inv in Hs as [Hs Hall].
    rewrite insert_by_priority_test.
    destruct (PrimFloat.ltb (Transaction.priority x) (Transaction.priority y)) eqn:Hlt.
    + constructor; [now apply IH|].
      rewrite insert_by_priority_perm. constructor; [|exact Hall].
      now apply FloatSpec.ltb_asym.
    + constructor; [now constructor|]. constructor; [exact Hlt|].
      rewrite Forall_forall in *. intros z Hz. specialize (Hall z Hz).
      unfold not_below in *.
      destruct (PrimFloat.ltb (Transaction.priority x) (Transaction.priority z)) eqn:Hxz;
        [|reflexivity].
      destruct (FloatSpec.ltb_cotransitive _ _ _ Hy Hxz); congruence.
Qed.

Lemma sort_by_priority_sorted (l : list Transaction.t) :
  numbers l -> StronglySorted not_below (sort_by_priority l).
Proof.
  induction l as [|x l IH]; intros Hn; cbn [sort_by_priority foldr].
  - constructor.
  - apply Forall_cons in Hn as [_ Hn].
    apply insert_by_priority_sorted; [|now apply IH].
    eapply numbers_perm; [|exact Hn]. symmetry. apply sort_by_priority_perm.
Qed.

Lemma remove_ids_sorted transactionIds (l : list Transaction.t) :
  StronglySorted not_below l ->
  StronglySorted not_below (Transaction.remove_ids transactionIds l).
Proof.
  unfold Transaction.remove_ids. induction 1 as [|x l _ IH Hall]; simpl.
  - constructor.
  - destruct (negb _); [|exact IH]. constructor; [exact IH|].
    rewrite Forall_forall in *. intros y Hy. apply Hall.
    rewrite list_elem_of_In in *. now apply List.filter_In in Hy as [Hy _].
Qed.

Lemma ranked_new : ranked new.
Proof. split; constructor. Qed.

Lemma ranked_addTransaction now transaction o :
  ranked o -> ranked (snd (addTransaction now transaction o)).
Proof.
  intros [Hn Hs]. unfold addTransaction, ranked. cbn [snd priorityQueue].
  set (tx' := Transaction.with_priority _ _).
  assert (Hq : numbers (priorityQueue o ++ [tx'])).
  { apply Forall_app. split; [exact Hn|]. constructor; [|constructor].
    unfold calculatePriority. cbv zeta. apply FloatSpec.add_below_infinity;
      [apply amountFactor_below_infinity | apply ageFactor_below_infinity]. }
  split; [|now apply sort_by_priority_sorted].
  eapply numbers_perm; [|exact Hq]. symmetry. apply sort_by_priority_perm.
Qed.

Lemma ranked_removeTransactions transactionIds o :
  ranked o -> ranked (removeTransactions transactionIds o).
Proof.
  intros [Hn Hs]. unfold removeTransactions, ranked. cbn [priorityQueue].
  split; [|now apply remove_ids_sorted].
  unfold numbers in *. rewrite Forall_forall in *. intros tx Htx. apply Hn.
  rewrite list_elem_of_In in *. now apply Transaction.remove_ids_In in Htx as [Htx _].
Qed.

Lemma ranked_perform o c : ranked o -> ranked (perform o c).
Proof.
  destruct c; [apply ranked_addTransaction | apply ranked_removeTransactions].
Qed.

(** What is selected is not below what is left out. *)
Lemma ranked_selection (maxCount : nat) o a b :
  ranked o ->
  a ∈ getOptimizedTransactions maxCount o -> b ∈ drop maxCount (priorityQueue o) ->
  not_below a b.
Proof.
  intros [_ Hs] Ha Hb. unfold getOptimizedTransactions in Ha.
  rewrite <- (take_drop maxCount (priorityQueue o)) in Hs.
  exact (StronglySorted_app_1_elem_of _ _ _ a b Hs Ha Hb).
Qed.

(** X15. [calculatePriority] always returns a number: whatever the
    integer amount, the timestamp and the clock, the priority is not
    NaN. *)
Theorem priority_is_a_number (now : Z) (transaction : Transaction.t) :
  is_nan (calculatePriority now transaction) = false.
Proof.
  unfold calculatePriority. cbv zeta.
  pose proof (amountFactor_below_infinity (Transaction.amount transaction)) as Hamount.
  pose proof (ageFactor_below_infinity (now - Transaction.timestamp transaction)) as Hage.
  apply FloatSpec.not_nan_spec. rewrite add_spec.
  now apply FloatSpec.SFadd_below_infinity.
Qed.

(** X16. Whatever transactions are added and removed, the priority queue
    holds numbers only and stays in descending order of priority, so
    [getOptimizedTransactions] returns transactions in descending order
    and leaves out none whose priority is greater than that of a
    transaction it returns. *)
Theorem queue_in_priority_order (calls : list call) (maxCount : nat) :
  let o := foldl perform new calls in
  Forall (fun tx => is_nan (Transaction.priority tx) = false) (priorityQueue o)
  /\ StronglySorted not_below (priorityQueue o)
  /\ StronglySorted not_below (getOptimizedTransactions maxCount o)
  /\ (forall a b,
        a ∈ getOptimizedTransactions maxCount o ->
        b ∈ drop maxCount (priorityQueue o) ->
        PrimFloat.ltb (Transaction.priority a) (Transaction.priority b) = false).
Proof.
  cbv zeta.
  assert (Hranked : ranked (foldl perform new calls)).
  { induction calls as [|c calls IH] using rev_ind; [exact ranked_new|].
    rewrite foldl_app. now apply ranked_perform. }
  split; [apply Hranked|]. split; [apply Hranked|]. split.
  - destruct Hranked as [_ Hs]. unfold getOptimizedTransactions.
    rewrite <- (take_drop maxCount (priorityQueue _)) in Hs.
    now apply StronglySorted_app_1_l in Hs.
  - intros a b Ha Hb. exact (ranked_selection maxCount _ a b Hranked Ha Hb).
Qed.

End TransactionOptimizer.

(** ** ScalableBundleEngine

    The engine's pending indexes and scheduling flags.  Left out: the
    worker threads, the wallet, the ledger submission of the members of a
    bundle and the [executedBundles] log it feeds (none of them reads or
    writes a pending index), and the cache and auto-scaling managers, which
    the engine only constructs.  The reentrancy guard that wraps both entry
    points is modelled on its own in [ReentrancyGuard]; here a guarded
    body is one step. *)

Module ScalableBundleEngine.
Import JsNumber.

Definition BUNDLE_SIZE : nat := 10.
Definition BUNDLE_MIN_SIZE : nat := 3.
Definition BUNDLE_TIMEOUT : Z := 30000.
Definition MAX_AMOUNT : Z := 1000000000000.

Record t := Engine {
  pendingTransactions : list Transaction.t;
  bundleInProgress : bool;
  (** whether [bundleTimer] holds an armed timer *)
  bundleTimer : bool;
  (** [options.throttling.ENABLED] and [options.sharding.ENABLED] *)
  throttlingEnabled : bool;
  shardingEnabled : bool;
  throttlingManager : ThrottlingManager.t;
  shardManager : ShardManager.t;
  transactionOptimizer : TransactionOptimizer.t
}.

Definition new (throttling : bool) (throttlingConfig : ThrottlingManager.config)
    (sharding : bool) (shardingConfig : ShardManager.config) (now : Z) : t :=
  {| pendingTransactions := [];
     bundleInProgress := false;
     bundleTimer := false;
     throttlingEnabled := throttling;
     shardingEnabled := sharding;
     throttlingManager := ThrottlingManager.new throttlingConfig;
     shardManager := ShardManager.new shardingConfig now;
     transactionOptimizer := TransactionOptimizer.new |}.

Definition set_throttlingManager (e : t) (m : ThrottlingManager.t) : t :=
  {| pendingTransactions := pendingTransactions e;
     bundleInProgress := bundleInProgress e; bundleTimer := bundleTimer e;
     throttlingEnabled := throttlingEnabled e; shardingEnabled := shardingEnabled e;
     throttlingManager := m; shardManager := shardManager e;
     transactionOptimizer := transactionOptimizer e |}.

Definition set_shardManager (e : t) (m : ShardManager.t) : t :=
  {| pendingTransactions := pendingTransactions e;
     bundleInProgress := bundleInProgress e; bundleTimer := bundleTimer e;
     throttlingEnabled := throttlingEnabled e; shardingEnabled := shardingEnabled e;
     throttlingManager := throttlingManager e; shardManager := m;
     transactionOptimizer := transactionOptimizer e |}.

Definition set_pending (e : t) (o : TransactionOptimizer.t)
    (pending : list Transaction.t) : t :=
  {| pendingTransactions := pending;
     bundleInProgress := bundleInProgress e; bundleTimer := bundleTimer e;
     throttlingEnabled := throttlingEnabled e; shardingEnabled := shardingEnabled e;
     throttlingManager := throttlingManager e; shardManager := shardManager e;
     transactionOptimizer := o |}.

Definition set_flags (e : t) (inProgress timer : bool) : t :=
  {| pendingTransactions := pendingTransactions e;
     bundleInProgress := inProgress; bundleTimer := timer;
     throttlingEnabled := throttlingEnabled e; shardingEnabled := shardingEnabled e;
     throttlingManager := throttlingManager e; shardManager := shardManager e;
     transactionOptimizer := transactionOptimizer e |}.

Definition calculateDynamicTimeout (e : t) : float :=
  let pendingRatio :=
    (of_Z (Z.of_nat (length (pendingTransactions e))) / of_Z (Z.of_nat BUNDLE_SIZE))%float in
  let minTimeout := (of_Z BUNDLE_TIMEOUT * 0.2)%float in
  let dynamicTimeout := (of_Z BUNDLE_TIMEOUT * (1 - pendingRatio * 0.8))%float in
  Math_max minTimeout dynamicTimeout.

Definition shouldExecuteEarly (e : t) : bool :=
  if PrimFloat.leb (of_Z (Z.of_nat BUNDLE_SIZE) * 0.7)%float
                   (of_Z (Z.of_nat (length (pendingTransactions e))))
  then true
  else
    let highPriorityTransactions :=
      List.filter (fun tx => PrimFloat.ltb 0.8%float (Transaction.priority tx))
                  (pendingTransactions e) in
    (BUNDLE_MIN_SIZE <=? length highPriorityTransactions)%nat.

(** The body of [executeBundleTransactions] up to the hand-over of the
    selected transactions: the no-op test, the flags, the selection and the
    removals.  [None] is the no-op. *)
Definition beginBundle (e : t) : option (list Transaction.t) * t :=
  if (length (pendingTransactions e) =? 0)%nat || bundleInProgress e then (None, e)
  else
    let e1 := set_flags e true false in
    let transactionsToExecute :=
      TransactionOptimizer.getOptimizedTransactions
        (Nat.min (length (pendingTransactions e1)) BUNDLE_SIZE)
        (transactionOptimizer e1) in
    let transactionIds := map Transaction.id transactionsToExecute in
    let o := TransactionOptimizer.removeTransactions transactionIds
               (transactionOptimizer e1) in
    let pending := Transaction.remove_ids transactionIds (pendingTransactions e1) in
    (Some transactionsToExecute, set_pending e1 o pending).

(** The [finally] block of that body. *)
Definition endBundle (e : t) : t := set_flags e false (bundleTimer e).

(** One call of [executeBundleTransactions] with nothing interleaved. *)
Definition executeBundleTransactions (e : t) : option (list Transaction.t) * t :=
  match beginBundle e with
  | (Some bundle, e1) => (Some bundle, endBundle e1)
  | (None, e1) => (None, e1)
  end.

(** A call of [executeBundleTransactions] as its caller sees it.  The
    guard runs the body at once when its key ['execute_bundle'] is free;
    otherwise it queues the call, and the body runs later as a step of its
    own. *)
Definition requestBundle (executeKeyFree : bool) (e : t)
  : option (list Transaction.t) * t :=
  if executeKeyFree then beginBundle e else (None, e).

(** The bundle timer's callback. *)
Definition timerFired (executeKeyFree : bool) (e : t)
  : option (list Transaction.t) * t :=
  let e1 := set_flags e (bundleInProgress e) false in
  if negb (length (pendingTransactions e1) =? 0)%nat && negb (bundleInProgress e1)
  then requestBundle executeKeyFree e1 else (None, e1).

(** The periodic [ShardManager.rebalance] timer. *)
Definition rebalanceTick (now : Z) (e : t) : t :=
  set_shardManager e (ShardManager.rebalance now (shardManager e)).

Inductive outcome :=
| Accepted (transactionId : string) (priority : float) (shardIndex : nat)
           (pendingCount : nat)
| RateLimited
| MissingParameters
| InvalidAmount
| ShardUndefined.

(** What one call of [addTransaction] reads from outside: the four clock
    readings, in program order, [crypto.randomBytes(16)] in hex, and
    whether the guard's key ['execute_bundle'] is free when the call asks
    for a bundle. *)
Record environment := Environment {
  t_isAllowed : Z;
  t_recordRequest : Z;
  t_created : Z;
  t_scored : Z;
  randomId : string;
  executeKeyFree : bool
}.

Section WithHash.
Variable sha256_prefix : string -> N.

(** The throttling prologue of [addTransaction]; [false] is the rate-limit
    error. *)
Definition throttlePrologue (ip : string) (env : environment) (e : t) : bool * t :=
  if throttlingEnabled e then
    let '(ok, m) := ThrottlingManager.throttle ip (t_isAllowed env)
                      (t_recordRequest env) (throttlingManager e) in
    (ok, set_throttlingManager e m)
  else (true, e).

(** The guarded body of [addTransaction], for a [Keypair] whose public key
    prints as [fromWallet] and a destination that [new PublicKey] accepts.
    It has no suspension point and is one step.
    When the early-execution test succeeds and the guard lets the bundle
    body start, it starts inside this step. *)
Definition admission (fromWallet toWallet : string) (amount : Z)
    (env : environment) (e0 : t) : outcome * t :=
  if String.eqb toWallet "" || (amount =? 0) then (MissingParameters, e0)
  else if (amount <=? 0) || (amount >? MAX_AMOUNT) then (InvalidAmount, e0)
  else
    let transaction :=
      {| Transaction.id := randomId env;
         Transaction.fromWallet := fromWallet;
         Transaction.toWallet := toWallet;
         Transaction.amount := amount;
         Transaction.timestamp := t_created env;
         Transaction.priority := PrimFloat.nan |} in
    let '(priority, transaction', o) :=
      TransactionOptimizer.addTransaction (t_scored env) transaction
        (transactionOptimizer e0) in
    let e1 := set_pending e0 o (pendingTransactions e0) in
    let assigned :=
      if shardingEnabled e1 then
        ShardManager.assignToShard sha256_prefix transaction' (shardManager e1)
      else Some (0%nat, shardManager e1) in
    match assigned with
    | None => (ShardUndefined, e1)
    | Some (shardIndex, shardManager') =>
        let e2 := set_pending (set_shardManager e1 shardManager') o
                    (pendingTransactions e1 ++ [transaction']) in
        let e3 :=
          if negb (bundleTimer e2)
             && negb (length (pendingTransactions e2) =? 0)%nat
          then set_flags e2 (bundleInProgress e2) true else e2 in
        let e4 :=
          if shouldExecuteEarly e3 && negb (bundleInProgress e3)
          then snd (requestBundle (executeKeyFree env)
                      (set_flags e3 (bundleInProgress e3) false))
          else e3 in
        (Accepted (randomId env) priority shardIndex
                  (length (pendingTransactions e4)), e4)
    end.

(** [addTransaction(fromKeypair, toWallet, amount, ip)] when the guard of
    the admission finds its key free: the prologue, then the body. *)
Definition addTransaction (fromWallet toWallet : string) (amount : Z)
    (ip : string) (env : environment) (e : t) : outcome * t :=
  let '(allowed, e0) := throttlePrologue ip env e in
  if negb allowed then (RateLimited, e0)
  else admission fromWallet toWallet amount env e0.

End WithHash.

(** *** The agreement of the pending indexes *)

(** The engine's pending indexes agree: the optimizer's queue holds the
    pending transactions, in priority order, and ids are unique (they are
    16 random bytes each); the shard table has at least one shard. *)
Definition consistent (e : t) : Prop :=
  TransactionOptimizer.priorityQueue (transactionOptimizer e)
    ≡ₚ pendingTransactions e
  /\ NoDup (map Transaction.id (pendingTransactions e))
  /\ ShardManager.shards (shardManager e) <> [].

(** The states of a running engine: whatever the throttling prologues,
    admissions, bundle starts and ends, timer callbacks and rebalancing
    ticks, in any order, as long as no random id repeats the id of a
    pending transfer. *)
Inductive reachable (sha256_prefix : string -> N) : t -> Prop :=
| reachable_new throttling throttlingConfig sharding shardingConfig now :
    reachable sha256_prefix
      (new throttling throttlingConfig sharding shardingConfig now)
| reachable_throttlePrologue e ip env :
    reachable sha256_prefix e ->
    reachable sha256_prefix (snd (throttlePrologue ip env e))
| reachable_admission e fromWallet toWallet amount env :
    reachable sha256_prefix e ->
    randomId env ∉ map Transaction.id (pendingTransactions e) ->
    reachable sha256_prefix
      (snd (admission sha256_prefix fromWallet toWallet amount env e))
| reachable_beginBundle e :
    reachable sha256_prefix e -> reachable sha256_prefix (snd (beginBundle e))
| reachable_endBundle e :
    reachable sha256_prefix e -> reachable sha256_prefix (endBundle e)
| reachable_timerFired executeKeyFree e :
    reachable sha256_prefix e ->
    reachable sha256_prefix (snd (timerFired executeKeyFree e))
| reachable_rebalanceTick now e :
    reachable sha256_prefix e -> reachable sha256_prefix (rebalanceTick now e).

(** *** A run of the engine

    Two shards, throttling on, every request from an address of its own.
    The seventh admission reaches 70% of [BUNDLE_SIZE] and starts a bundle;
    twelve more transfers arrive while that bundle is in flight; then the
    bundle ends. *)

Definition example_environment (i : string) : environment :=
  {| t_isAllowed := 0; t_recordRequest := 0; t_created := 0; t_scored := 0;
     randomId := i; executeKeyFree := true |}.

Definition submit (e : t) (i : string) : t :=
  snd (addTransaction ShardManager.length_hash "sender" "receiver" 1000 i
         (example_environment i) e).

Definition fresh_engine : t :=
  new true (ThrottlingManager.Config None None None None)
      true (ShardManager.Config (Some 2%N) None None) 0.

Definition first_bundle_in_flight : t :=
  foldl submit fresh_engine ["a1"; "a2"; "a3"; "a4"; "a5"; "a6"; "a7"].

Definition twelve_pending : t :=
  endBundle
    (foldl submit first_bundle_in_flight
       ["b01"; "b02"; "b03"; "b04"; "b05"; "b06";
        "b07"; "b08"; "b09"; "b10"; "b11"; "b12"]).

(** One transfer, admitted by a fresh engine. *)
Definition one_pending : t := submit fresh_engine "t1".

(** *** The hand-over to the worker threads *)

(** The loop of [distributeTransactionsToWorkers]: as long as there is a
    worker left and the array is not empty, worker [i] is sent the next
    [transactionsPerWorker] transactions, which [splice(0,
    transactionsPerWorker)] takes off the array.  The result is the
    messages posted, each with the index of its worker, and what is left
    of the array. *)
Fixpoint distribute_from (i workers transactionsPerWorker : nat)
    (transactions : list Transaction.t)
  : list (nat * list Transaction.t) * list Transaction.t :=
  match workers with
  | O => ([], transactions)
  | S workers' =>
      if (length transactions =? 0)%nat then ([], transactions)
      else
        let workerTransactions := take transactionsPerWorker transactions in
        let '(messages, rest) :=
          distribute_from (S i) workers' transactionsPerWorker
            (drop transactionsPerWorker transactions) in
        (if (0 <? length workerTransactions)%nat
         then (i, workerTransactions) :: messages else messages,
         rest)
  end.

(** [Math.ceil(transactions.length / this.workers.length)], the quotient
    of two array lengths, for at least one worker. *)
Definition transactionsPerWorker (workers count : nat) : nat :=
  ((count + workers - 1) / workers)%nat.

Definition distributeTransactionsToWorkers (workers : nat)
    (transactions : list Transaction.t)
  : list (nat * list Transaction.t) * list Transaction.t :=
  distribute_from 0 workers (transactionsPerWorker workers (length transactions))
    transactions.

(** The [transactionCount] of the object that [executeBundleTransactions]
    returns: the length of the array [transactionsToExecute] after the
    hand-over.  [executeTransactionsSync], taken without workers, only
    reads the array; [distributeTransactionsToWorkers] is handed the array
    itself. *)
Definition transactionCount (workers : nat)
    (transactionsToExecute : list Transaction.t) : nat :=
  if (workers =? 0)%nat then length transactionsToExecute
  else length (snd (distributeTransactionsToWorkers workers transactionsToExecute)).

(** *** The record of what was executed *)

(** An entry of [executedBundles]. *)
Record executedBundle := ExecutedBundle {
  executed_id : string;
  executed_signature : string;
  executed_timestamp : Z;
  executed_transactions : list Transaction.t
}.

(** [executeTransactionsSync(bundleId, transactions)], on the array
    [executedBundles].  [createAndSendTransaction] gives the signature of
    the transfer sent, or [None] when it throws, which the loop catches;
    [clock k] is the reading of the clock for the transaction at
    position [k]. *)
Fixpoint executeTransactionsSync
    (createAndSendTransaction : Transaction.t -> option string)
    (bundleId : string) (transactions : list Transaction.t)
    (clock : nat -> Z) (k : nat) (executedBundles : list executedBundle)
  : list executedBundle :=
  match transactions with
  | [] => executedBundles
  | transaction :: transactions' =>
      let executedBundles' :=
        match createAndSendTransaction transaction with
        | Some signature =>
            executedBundles
              ++ [{| executed_id := bundleId; executed_signature := signature;
                     executed_timestamp := clock k;
                     executed_transactions := [transaction] |}]
        | None => executedBundles
        end in
      executeTransactionsSync createAndSendTransaction bundleId transactions'
        clock (S k) executedBundles'
  end.

(** The [data] of a message ['transaction_result'] of a worker thread. *)
Record workerResult := WorkerResult {
  success : bool;
  result_bundleId : string;
  result_transactionId : string;
  result_signature : string;
  result_timestamp : Z;
  result_transactions : list Transaction.t
}.

(** What a worker thread posts for a transaction of its share: the
    execution is simulated and succeeds. *)
Definition workerMessage (bundleId : string) (now : Z)
    (transaction : Transaction.t) : workerResult :=
  {| success := true;
     result_bundleId := bundleId;
     result_transactionId := Transaction.id transaction;
     result_signature := "simulated_signature_" +:+ Transaction.id transaction;
     result_timestamp := now;
     result_transactions := [transaction] |}.

Definition handleWorkerResult (result : workerResult)
    (executedBundles : list executedBundle) : list executedBundle :=
  if success result then
    executedBundles
      ++ [{| executed_id := result_bundleId result;
             executed_signature := result_signature result;
             executed_timestamp := result_timestamp result;
             executed_transactions := result_transactions result |}]
  else executedBundles.

(** The field [totalTransactionsExecuted] of [getStats()]; the field
    [executedBundles] is the length of the array. *)
Definition totalTransactionsExecuted (executedBundles : list executedBundle) : nat :=
  foldl (fun total bundle => (total + length (executed_transactions bundle))%nat)
        0%nat executedBundles.

(** Every pending transaction is held by a shard, when sharding is on. *)
Definition sharded (e : t) : Prop :=
  shardingEnabled e = true ->
  forall tx, In tx (pendingTransactions e) ->
             In tx (ShardManager.all_transactions
                      (ShardManager.shards (shardManager e))).

(** *** Selection *)

Lemma selection_conservation (queue pending : list Transaction.t) (n : nat) :
  queue ≡ₚ pending ->
  NoDup (map Transaction.id pending) ->
  let selected := take n queue in
  let transactionIds := map Transaction.id selected in
  Transaction.remove_ids transactionIds queue = drop n queue
  /\ (length (Transaction.remove_ids transactionIds pending) + length selected
      = length pending)%nat
  /\ (forall tx, In tx selected ->
        Transaction.id tx
          ∉ map Transaction.id (Transaction.remove_ids transactionIds pending)).
Proof.
  intros Hperm Hnodup selected transactionIds.
  assert (Hq : NoDup (map Transaction.id queue)).
  { now rewrite (Permutation_map Transaction.id Hperm). }
  assert (Hdrop : Transaction.remove_ids transactionIds queue = drop n queue).
  { rewrite <- (take_drop n queue) at 1. rewrite Transaction.remove_ids_app.
    pose proof (Transaction.remove_ids_own selected []) as Hown.
    simpl in Hown. rewrite app_nil_r in Hown. fold transactionIds in Hown.
    unfold selected in Hown. rewrite Hown. simpl.
    apply Transaction.remove_ids_foreign. intros tx Htx Hin.
    rewrite <- (take_drop n queue), map_app in Hq.
    apply NoDup_app in Hq as (_ & Hdisj & _).
    apply (Hdisj (Transaction.id tx)); [exact Hin|].
    apply list_elem_of_In, in_map, Htx. }
  split; [exact Hdrop|]. split.
  - rewrite (Permutation_length
               (Transaction.remove_ids_perm transactionIds _ _ (symmetry Hperm))).
    rewrite Hdrop, <- (Permutation_length Hperm).
    unfold selected. rewrite length_drop, length_take. lia.
  - intros tx Htx Hin.
    apply list_elem_of_In, in_map_iff in Hin as (tx' & Hid & Hin').
    apply Transaction.remove_ids_In in Hin' as [_ Hnot]. apply Hnot.
    rewrite Hid. apply list_elem_of_In, in_map, Htx.
Qed.

Lemma consistent_new throttling throttlingConfig sharding shardingConfig now :
  consistent (new throttling throttlingConfig sharding shardingConfig now).
Proof.
  unfold consistent, new; simpl. split; [reflexivity|]. split; [constructor|].
  destruct (match ShardManager.SHARD_COUNT shardingConfig with
            | Some n => if (n =? 0)%N then 1%N else n
            | None => 1%N
            end) eqn:Hcount.
  - destruct (ShardManager.SHARD_COUNT shardingConfig) as [n|]; [|discriminate].
    destruct (N.eqb_spec n 0); [discriminate | congruence].
  - destruct (N.to_nat (N.pos p)) eqn:Hp; [lia | discriminate].
Qed.

Lemma consistent_beginBundle e : consistent e -> consistent (snd (beginBundle e)).
Proof.
  intros (Hperm & Hnodup & Hshards). unfold beginBundle.
  destruct (_ || _); [now repeat split|].
  unfold consistent; simpl. split; [|split; [|exact Hshards]].
  - now apply Transaction.remove_ids_perm.
  - now apply Transaction.remove_ids_NoDup.
Qed.

Lemma consistent_endBundle e : consistent e -> consistent (endBundle e).
Proof. intros H. exact H. Qed.

Lemma consistent_set_flags e inProgress timer :
  consistent e -> consistent (set_flags e inProgress timer).
Proof. intros H. exact H. Qed.

Lemma consistent_requestBundle executeKeyFree e :
  consistent e -> consistent (snd (requestBundle executeKeyFree e)).
Proof.
  intros H. unfold requestBundle. destruct executeKeyFree; [|exact H].
  now apply consistent_beginBundle.
Qed.

Lemma consistent_timerFired executeKeyFree e :
  consistent e -> consistent (snd (timerFired executeKeyFree e)).
Proof.
  intros H. unfold timerFired. destruct (_ && _); [|exact H].
  now apply consistent_requestBundle.
Qed.

Lemma consistent_rebalanceTick now e : consistent e -> consistent (rebalanceTick now e).
Proof.
  intros (Hperm & Hnodup & Hshards). unfold consistent, rebalanceTick; simpl.
  split; [exact Hperm|]. split; [exact Hnodup|].
  unfold ShardManager.rebalance. destruct (_ <? _); [exact Hshards|].
  destruct (ShardManager.classify _ _ _) as [overloaded underloaded]. simpl.
  intros Hnil. apply Hshards. apply (f_equal length) in Hnil.
  rewrite ShardManager.move_loop_length in Hnil.
  now destruct (ShardManager.shards (shardManager e)).
Qed.

Lemma consistent_throttlePrologue ip env e :
  consistent e -> consistent (snd (throttlePrologue ip env e)).
Proof.
  intros H. unfold throttlePrologue. destruct (throttlingEnabled e); [|exact H].
  destruct (ThrottlingManager.throttle _ _ _ _). exact H.
Qed.

(** An admission keeps the indexes in agreement, provided the random id
    is not the id of a pending transaction. *)
Lemma consistent_admission sha256_prefix fromWallet toWallet amount env e0 :
  randomId env ∉ map Transaction.id (pendingTransactions e0) ->
  consistent e0 ->
  consistent (snd (admission sha256_prefix fromWallet toWallet amount env e0)).
Proof.
  intros Hfresh H0. pose proof H0 as (Hperm & Hnodup & Hshards).
  unfold admission.
  destruct (_ || _); [exact H0|]. destruct (_ || _); [exact H0|].
  unfold TransactionOptimizer.addTransaction.
  set (transaction' := Transaction.with_priority _ _).
  cbn [set_pending shardingEnabled shardManager pendingTransactions].
  destruct (if shardingEnabled e0 then _ else _) as [[shardIndex shardManager']|] eqn:Hassign.
  2:{ exfalso. destruct (shardingEnabled e0); [|discriminate].
      destruct (ShardManager.assignToShard_total sha256_prefix transaction'
                  (shardManager e0)) as [x Hx]; [exact Hshards|congruence]. }
  set (e2 := set_pending _ _ _).
  assert (H2 : consistent e2).
  { unfold consistent, e2; simpl. split; [|split].
    - rewrite TransactionOptimizer.sort_by_priority_perm. now rewrite Hperm.
    - rewrite map_app. simpl. apply NoDup_app. split; [exact Hnodup|].
      split; [|apply NoDup_singleton].
      intros x Hx Hx'. apply list_elem_of_singleton in Hx'. subst x. contradiction.
    - destruct (shardingEnabled e0); [|now injection Hassign as _ <-].
      unfold ShardManager.assignToShard in Hassign.
      destruct (ShardManager.shards (shardManager e0) !! _); [|discriminate].
      injection Hassign as _ <-. simpl. intros Hnil.
      apply (f_equal length) in Hnil. rewrite length_insert in Hnil.
      now destruct (ShardManager.shards (shardManager e0)). }
  cbv zeta. set (e3 := if _ && _ then set_flags e2 _ _ else e2).
  assert (H3 : consistent e3).
  { subst e3. destruct (_ && _); [apply consistent_set_flags|]; exact H2. }
  cbn [snd]. destruct (shouldExecuteEarly e3 && _); [|exact H3].
  apply consistent_requestBundle, consistent_set_flags, H3.
Qed.

Lemma throttlePrologue_pending ip env e :
  pendingTransactions (snd (throttlePrologue ip env e)) = pendingTransactions e.
Proof.
  unfold throttlePrologue. destruct (throttlingEnabled e); [|reflexivity].
  now destruct (ThrottlingManager.throttle _ _ _ _).
Qed.

Lemma consistent_addTransaction sha256_prefix fromWallet toWallet amount ip env e :
  randomId env ∉ map Transaction.id (pendingTransactions e) ->
  consistent e ->
  consistent (snd (addTransaction sha256_prefix fromWallet toWallet amount ip env e)).
Proof.
  intros Hfresh He. unfold addTransaction.
  pose proof (consistent_throttlePrologue ip env e He) as H0.
  pose proof (throttlePrologue_pending ip env e) as Hp.
  destruct (throttlePrologue ip env e) as [allowed e0]. simpl in H0, Hp.
  destruct (negb allowed); [exact H0|].
  apply consistent_admission; [now rewrite Hp | exact H0].
Qed.

Lemma reachable_consistent sha256_prefix e :
  reachable sha256_prefix e -> consistent e.
Proof.
  induction 1.
  - apply consistent_new.
  - now apply consistent_throttlePrologue.
  - now apply consistent_admission.
  - now apply consistent_beginBundle.
  - now apply consistent_endBundle.
  - now apply consistent_timerFired.
  - now apply consistent_rebalanceTick.
Qed.

(** C3. A call of [executeBundleTransactions] on a non-empty pool with no
    bundle in flight selects exactly [min(pending, BUNDLE_SIZE)] transfers,
    all of them from the pool; the pool shrinks by exactly that number; and
    no selected transfer, nor any transfer with the id of one, is pending
    afterwards. *)
Theorem executeBundle_conservation (e : t) :
  consistent e ->
  pendingTransactions e <> [] ->
  bundleInProgress e = false ->
  exists selected,
    fst (executeBundleTransactions e) = Some selected
    /\ length selected = Nat.min (length (pendingTransactions e)) BUNDLE_SIZE
    /\ (forall tx, In tx selected -> In tx (pendingTransactions e))
    /\ (length (pendingTransactions e)
        = length (pendingTransactions (snd (executeBundleTransactions e)))
          + length selected)%nat
    /\ (forall tx, In tx selected ->
          ~ In tx (pendingTransactions (snd (executeBundleTransactions e)))
          /\ Transaction.id tx
               ∉ map Transaction.id
                   (pendingTransactions (snd (executeBundleTransactions e))))
    /\ bundleInProgress (snd (executeBundleTransactions e)) = false.
Proof.
  intros (Hperm & Hnodup & _) Hpending Hflag.
  assert (Hlen : (length (pendingTransactions e) =? 0)%nat = false).
  { apply Nat.eqb_neq. now destruct (pendingTransactions e). }
  unfold executeBundleTransactions, beginBundle. rewrite Hflag, Hlen.
  cbn [orb set_flags pendingTransactions transactionOptimizer
       fst snd endBundle set_pending bundleInProgress].
  set (n := Nat.min (length (pendingTransactions e)) BUNDLE_SIZE).
  unfold TransactionOptimizer.getOptimizedTransactions.
  set (queue := TransactionOptimizer.priorityQueue (transactionOptimizer e)) in *.
  destruct (selection_conservation queue (pendingTransactions e) n Hperm Hnodup)
    as (_ & Hcount & Hgone).
  exists (take n queue). split; [reflexivity|].
  split. { rewrite length_take, (Permutation_length Hperm). subst n. lia. }
  split. { intros tx Htx. apply (Permutation_in _ Hperm).
           rewrite <- (take_drop n queue). apply in_or_app. now left. }
  split. { lia. }
  split; [|reflexivity].
  intros tx Htx. split; [|now apply Hgone].
  intros Hin. apply (Hgone tx Htx). apply list_elem_of_In, in_map, Hin.
Qed.

(** *** Throttling at admission *)

(** With throttling enabled, a call of [addTransaction] runs exactly the
    throttling prologue on the throttling manager, whatever the outcome of
    the call, and is refused by the rate limit exactly when the prologue
    says so. *)
Lemma addTransaction_throttles sha256_prefix fromWallet toWallet amount ip env e :
  throttlingEnabled e = true ->
  let prologue := ThrottlingManager.throttle ip (t_isAllowed env)
                    (t_recordRequest env) (throttlingManager e) in
  let r := addTransaction sha256_prefix fromWallet toWallet amount ip env e in
  throttlingManager (snd r) = snd prologue
  /\ (fst r = RateLimited <-> fst prologue = false).
Proof.
  intros Hon. unfold addTransaction, throttlePrologue. rewrite Hon.
  destruct (ThrottlingManager.throttle _ _ _ _) as [ok m]. cbn [fst snd].
  destruct ok; cbn [negb]; [|split; [reflexivity | tauto]].
  unfold admission.
  destruct (_ || _); [split; [reflexivity | split; discriminate]|].
  destruct (_ || _); [split; [reflexivity | split; discriminate]|].
  unfold TransactionOptimizer.addTransaction.
  cbn [set_pending shardingEnabled shardManager pendingTransactions
       set_throttlingManager].
  destruct (if shardingEnabled e then _ else _) as [[shardIndex shardManager']|];
    [|split; [reflexivity | split; discriminate]].
  cbv zeta. cbn [fst snd].
  split; [|split; discriminate].
  repeat match goal with
         | |- context [if ?c then _ else _] => destruct c
         end; try reflexivity;
    unfold requestBundle, beginBundle;
    repeat match goal with
           | |- context [if ?c then _ else _] => destruct c
           end; reflexivity.
Qed.

(** C9. [isAllowed] writes: a call that answers [true] has appended [now]
    to the global window and to the source's window.  [addTransaction]
    runs [isAllowed] and then [recordRequest] on the throttling manager, so
    a request that passes leaves two timestamps in the source's window.
    Hence, on a fresh manager and for requests of one source that all fall
    inside one window, request number [i] (from 0) passes exactly when
    [2 * i < maxRequestsPerIP]: the quota is used up after half of it,
    rounded up, has passed. *)
Theorem isAllowed_consumes_quota (sha256_prefix : string -> N)
    (cfg : ThrottlingManager.config) (ip : string) :
  (forall now m m', ThrottlingManager.isAllowed ip now m = (true, m') ->
     ThrottlingManager.globalRequests m'
     = ThrottlingManager.recent now 1000 (ThrottlingManager.globalRequests m) ++ [now]
     /\ ThrottlingManager.window ip m'
        = ThrottlingManager.recent now (ThrottlingManager.windowMs m)
            (ThrottlingManager.window ip m) ++ [now])
  /\ (forall fromWallet toWallet amount env e,
        throttlingEnabled e = true ->
        let r := addTransaction sha256_prefix fromWallet toWallet amount ip env e in
        let m := throttlingManager e in
        let m' := throttlingManager (snd r) in
        m' = snd (ThrottlingManager.throttle ip (t_isAllowed env)
                    (t_recordRequest env) m)
        /\ (fst r <> RateLimited ->
            ThrottlingManager.window ip m'
            = ThrottlingManager.recent (t_isAllowed env)
                (ThrottlingManager.windowMs m) (ThrottlingManager.window ip m)
              ++ [t_isAllowed env; t_recordRequest env]))
  /\ (forall times,
        let m0 := ThrottlingManager.new cfg in
        0 <= ThrottlingManager.maxRequestsPerIP m0
          <= ThrottlingManager.maxRequestsPerSecond m0 ->
        (forall a b, In a times -> In b times ->
                     b - a < ThrottlingManager.windowMs m0) ->
        let passed := fst (ThrottlingManager.throttle_all ip times m0) in
        passed = map (fun i => 2 * Z.of_nat i <? ThrottlingManager.maxRequestsPerIP m0)
                     (seq 0 (length times))
        /\ Z.of_nat (length (List.filter id passed))
           = Z.min (Z.of_nat (length times))
                   ((ThrottlingManager.maxRequestsPerIP m0 + 1) / 2)).
Proof.
  split; [|split].
  - intros now m m' Hal.
    apply ThrottlingManager.isAllowed_true_inv in Hal as (Hg & Hw & _).
    split; [exact Hg|]. unfold ThrottlingManager.window at 1. now rewrite Hw.
  - intros fromWallet toWallet amount env e Hon r m m'.
    destruct (addTransaction_throttles sha256_prefix fromWallet toWallet amount
                ip env e Hon) as [Hm Hlimit].
    split; [exact Hm|]. intros Hpass. subst m m'. fold r in Hm, Hlimit. rewrite Hm.
    destruct (ThrottlingManager.throttle ip (t_isAllowed env) (t_recordRequest env)
                (throttlingManager e)) as [ok m1] eqn:Hthr.
    destruct ok; [|exfalso; apply Hpass, Hlimit; reflexivity].
    apply ThrottlingManager.throttle_true_inv in Hthr as (_ & Hw & _). exact Hw.
  - intros times. apply ThrottlingManager.throttle_all_fresh.
Qed.

Example seventh_admission_starts_bundle :
  bundleInProgress first_bundle_in_flight = true
  /\ pendingTransactions first_bundle_in_flight = [].
Proof. vm_compute. split; reflexivity. Qed.

Lemma twelve_pending_consistent : consistent twelve_pending.
Proof.
  unfold twelve_pending, first_bundle_in_flight. cbn [foldl]. unfold submit.
  apply consistent_endBundle.
  repeat (apply consistent_addTransaction; [compute_done|]).
  apply consistent_new.
Qed.

Lemma executeBundle_conservation_witness :
  exists selected,
    fst (executeBundleTransactions twelve_pending) = Some selected
    /\ length selected = Nat.min (length (pendingTransactions twelve_pending)) BUNDLE_SIZE
    /\ (forall tx, In tx selected -> In tx (pendingTransactions twelve_pending))
    /\ (length (pendingTransactions twelve_pending)
        = length (pendingTransactions (snd (executeBundleTransactions twelve_pending)))
          + length selected)%nat
    /\ (forall tx, In tx selected ->
          ~ In tx (pendingTransactions (snd (executeBundleTransactions twelve_pending)))
          /\ Transaction.id tx
               ∉ map Transaction.id
                   (pendingTransactions (snd (executeBundleTransactions twelve_pending))))
    /\ bundleInProgress (snd (executeBundleTransactions twelve_pending)) = false.
Proof.
  apply (executeBundle_conservation twelve_pending).
  - exact twelve_pending_consistent.
  - vm_compute. discriminate.
  - vm_compute. reflexivity.
Defined.

Example twelve_pending_counts :
  length (pendingTransactions twelve_pending) = 12%nat
  /\ (length <$> fst (executeBundleTransactions twelve_pending)) = Some 10%nat
  /\ length (pendingTransactions (snd (executeBundleTransactions twelve_pending)))
     = 2%nat.
Proof. vm_compute. repeat split. Qed.

(** With the default configuration (20 requests per source and minute):
    one admission leaves two timestamps, and of eleven requests in eleven
    consecutive milliseconds the first ten pass and the eleventh does not. *)
Lemma isAllowed_consumes_quota_witness :
  let m0 := ThrottlingManager.new (ThrottlingManager.Config None None None None) in
  ThrottlingManager.window "10.0.0.1"
    (snd (ThrottlingManager.isAllowed "10.0.0.1" 5 m0)) = [5]
  /\ ThrottlingManager.window "10.0.0.1"
       (throttlingManager
          (snd (addTransaction ShardManager.length_hash "sender" "receiver" 1000
                  "10.0.0.1" (Environment 5 6 7 8 "t1" true) fresh_engine))) = [5; 6]
  /\ fst (ThrottlingManager.throttle_all "10.0.0.1"
            [0; 1; 2; 3; 4; 5; 6; 7; 8; 9; 10] m0)
     = [true; true; true; true; true; true; true; true; true; true; false].
Proof.
  pose proof (isAllowed_consumes_quota ShardManager.length_hash
                (ThrottlingManager.Config None None None None) "10.0.0.1")
    as (Hwrite & Htwice & Hquota).
  cbv zeta. split; [|split].
  - assert (Hal : ThrottlingManager.isAllowed "10.0.0.1" 5
                    (ThrottlingManager.new (ThrottlingManager.Config None None None None))
                  = (true, snd (ThrottlingManager.isAllowed "10.0.0.1" 5
                       (ThrottlingManager.new
                          (ThrottlingManager.Config None None None None)))))
      by (vm_compute; reflexivity).
    apply Hwrite in Hal as [_ Hw]. rewrite Hw. reflexivity.
  - specialize (Htwice "sender" "receiver" 1000 (Environment 5 6 7 8 "t1" true)
                  fresh_engine eq_refl).
    cbv zeta in Htwice. destruct Htwice as [_ Hw].
    rewrite Hw; [reflexivity|]. vm_compute. discriminate.
  - specialize (Hquota [0; 1; 2; 3; 4; 5; 6; 7; 8; 9; 10]).
    cbv zeta in Hquota. destruct Hquota as [Hq _].
    + vm_compute. split; discriminate.
    + intros a b Ha Hb. simpl in Ha, Hb.
      change (ThrottlingManager.windowMs
                (ThrottlingManager.new (ThrottlingManager.Config None None None None)))
        with 60000. lia.
    + rewrite Hq. reflexivity.
Defined.

(** [executeBundleTransactions] never touches the shard manager. *)
Lemma executeBundle_shardManager e :
  shardManager (snd (executeBundleTransactions e)) = shardManager e.
Proof.
  unfold executeBundleTransactions, beginBundle.
  destruct (_ || _); reflexivity.
Qed.

(** C1. The selected transfers leave the pending pool, the priority queue
    and the per-source groups, but not the shards: the shard manager after
    [executeBundleTransactions] is the one before it.  With one pending
    transfer ["t1"], the call selects it, empties the three other indexes,
    and shard 0 still holds ["t1"] with load 1. *)
Theorem executeBundle_keeps_shard_membership :
  (forall e, shardManager (snd (executeBundleTransactions e)) = shardManager e)
  /\ (let result := executeBundleTransactions one_pending in
      (map Transaction.id <$> fst result) = Some ["t1"]
      /\ pendingTransactions (snd result) = []
      /\ TransactionOptimizer.priorityQueue (transactionOptimizer (snd result)) = []
      /\ TransactionOptimizer.transactionGroups (transactionOptimizer (snd result))
           !! "sender" = None
      /\ map (fun sh => map Transaction.id (ShardManager.transactions sh))
             (ShardManager.shards (shardManager (snd result)))
         = [["t1"]; []]
      /\ map ShardManager.load (ShardManager.shards (shardManager (snd result)))
         = [1; 0]).
Proof.
  split; [exact executeBundle_shardManager|].
  vm_compute. repeat split.
Qed.

(** *** The pending indexes of a running engine *)

Lemma agree_beginBundle e :
  TransactionOptimizer.agree (transactionOptimizer e) ->
  TransactionOptimizer.agree (transactionOptimizer (snd (beginBundle e))).
Proof.
  intros H. unfold beginBundle. destruct (_ || _); [exact H|].
  cbn [snd set_pending transactionOptimizer].
  now apply TransactionOptimizer.agree_removeTransactions.
Qed.

Lemma agree_requestBundle executeKeyFree e :
  TransactionOptimizer.agree (transactionOptimizer e) ->
  TransactionOptimizer.agree
    (transactionOptimizer (snd (requestBundle executeKeyFree e))).
Proof.
  intros H. unfold requestBundle. destruct executeKeyFree; [|exact H].
  now apply agree_beginBundle.
Qed.

Lemma sharded_beginBundle e : sharded e -> sharded (snd (beginBundle e)).
Proof.
  intros H. unfold beginBundle. destruct (_ || _); [exact H|].
  intros Hon tx Htx. cbn [snd set_pending set_flags pendingTransactions
                          shardManager shardingEnabled] in *.
  apply Transaction.remove_ids_In in Htx as [Htx _]. now apply H.
Qed.

Lemma sharded_requestBundle executeKeyFree e :
  sharded e -> sharded (snd (requestBundle executeKeyFree e)).
Proof.
  intros H. unfold requestBundle. destruct executeKeyFree; [|exact H].
  now apply sharded_beginBundle.
Qed.

Lemma all_transactions_assign sha256_prefix transaction m i m' :
  ShardManager.assignToShard sha256_prefix transaction m = Some (i, m') ->
  ShardManager.all_transactions (ShardManager.shards m')
  ≡ₚ ShardManager.all_transactions (ShardManager.shards m) ++ [transaction].
Proof.
  unfold ShardManager.assignToShard.
  destruct (ShardManager.shards m !! _) as [sh|] eqn:Hsh; [|discriminate].
  intros [= <- <-]. cbn [ShardManager.with_shards ShardManager.shards].
  match goal with
  | |- context [<[?i := ?sh']> _] =>
      pose proof (ShardManager.all_transactions_insert
                    (ShardManager.shards m) i sh' sh Hsh) as Hp
  end.
  cbn [ShardManager.transactions] in Hp.
  apply (Permutation_app_inv_r (ShardManager.transactions sh)).
  rewrite Hp, <- !app_assoc. apply Permutation_app_head, Permutation_app_comm.
Qed.

(** The invariants of an admission, as for [consistent_admission]. *)
Lemma admission_indexes sha256_prefix fromWallet toWallet amount env e0 :
  TransactionOptimizer.agree (transactionOptimizer e0) -> sharded e0 ->
  let e' := snd (admission sha256_prefix fromWallet toWallet amount env e0) in
  TransactionOptimizer.agree (transactionOptimizer e') /\ sharded e'.
Proof.
  intros Hagree Hsharded. unfold admission.
  destruct (_ || _); [now split|]. destruct (_ || _); [now split|].
  pose proof (TransactionOptimizer.agree_addTransaction (t_scored env)
    {| Transaction.id := randomId env; Transaction.fromWallet := fromWallet;
       Transaction.toWallet := toWallet; Transaction.amount := amount;
       Transaction.timestamp := t_created env;
       Transaction.priority := PrimFloat.nan |} _ Hagree) as Hadd.
  unfold TransactionOptimizer.addTransaction in *. cbn [snd] in Hadd.
  set (transaction' := Transaction.with_priority _ _) in *.
  set (o := TransactionOptimizer.Optimizer _ _) in *.
  cbn [set_pending shardingEnabled shardManager pendingTransactions].
  destruct (if shardingEnabled e0 then _ else _)
    as [[shardIndex shardManager']|] eqn:Hassign.
  2:{ cbv zeta. cbn [snd]. split; [exact Hadd|]. exact Hsharded. }
  set (e2 := set_pending _ _ _).
  assert (H2 : TransactionOptimizer.agree (transactionOptimizer e2) /\ sharded e2).
  { split; [exact Hadd|]. intros Hon tx Htx.
    cbn [e2 set_pending set_shardManager pendingTransactions shardManager
         shardingEnabled] in *.
    rewrite Hon in Hassign.
    rewrite (all_transactions_assign _ _ _ _ _ Hassign).
    apply in_app_or in Htx as [Htx|Htx]; apply in_or_app;
      [left; now apply Hsharded | now right]. }
  cbv zeta. set (e3 := if _ && _ then set_flags e2 _ _ else e2).
  assert (H3 : TransactionOptimizer.agree (transactionOptimizer e3) /\ sharded e3).
  { subst e3. destruct (_ && _); exact H2. }
  cbn [snd]. destruct (shouldExecuteEarly e3 && _); [|exact H3].
  destruct H3 as [Ha Hs].
  split; [now apply agree_requestBundle | now apply sharded_requestBundle].
Qed.

Lemma throttlePrologue_frame ip env e :
  let e' := snd (throttlePrologue ip env e) in
  transactionOptimizer e' = transactionOptimizer e
  /\ shardManager e' = shardManager e
  /\ shardingEnabled e' = shardingEnabled e
  /\ bundleInProgress e' = bundleInProgress e
  /\ bundleTimer e' = bundleTimer e.
Proof.
  unfold throttlePrologue. destruct (throttlingEnabled e); [|now repeat split].
  destruct (ThrottlingManager.throttle _ _ _ _). now repeat split.
Qed.

Lemma reachable_indexes sha256_prefix e :
  reachable sha256_prefix e ->
  TransactionOptimizer.agree (transactionOptimizer e) /\ sharded e.
Proof.
  induction 1 as [| e ip env _ [Ha Hs] | e fromWallet toWallet amount env _ [Ha Hs] _
                  | e _ [Ha Hs] | e _ IH | executeKeyFree e _ [Ha Hs]
                  | now e _ [Ha Hs]].
  - split; [exact TransactionOptimizer.agree_new|]. intros _ tx [].
  - destruct (throttlePrologue_frame ip env e) as (Ho & Hm & Hon & _).
    cbv zeta in *. unfold sharded.
    rewrite Ho, Hm, Hon, throttlePrologue_pending. now split.
  - now apply admission_indexes.
  - split; [now apply agree_beginBundle | now apply sharded_beginBundle].
  - exact IH.
  - unfold timerFired. destruct (_ && _); [|now split].
    split; [now apply agree_requestBundle | now apply sharded_requestBundle].
  - split; [exact Ha|]. intros Hon tx Htx.
    cbn [rebalanceTick set_shardManager shardManager pendingTransactions
         shardingEnabled] in *.
    specialize (Hs Hon tx Htx). unfold ShardManager.rebalance.
    destruct (_ <? _); [exact Hs|].
    destruct (ShardManager.classify _ _ _) as [overloaded underloaded].
    cbn [ShardManager.shards].
    eapply Permutation_in; [|exact Hs].
    symmetry. apply ShardManager.move_loop_permutation.
Qed.

Lemma reachable_addTransaction sha256_prefix fromWallet toWallet amount ip env e :
  reachable sha256_prefix e ->
  randomId env ∉ map Transaction.id (pendingTransactions e) ->
  reachable sha256_prefix
    (snd (addTransaction sha256_prefix fromWallet toWallet amount ip env e)).
Proof.
  intros He Hfresh. unfold addTransaction.
  pose proof (reachable_throttlePrologue sha256_prefix e ip env He) as H0.
  pose proof (throttlePrologue_pending ip env e) as Hp.
  destruct (throttlePrologue ip env e) as [allowed e0]. cbn [snd] in H0, Hp.
  destruct (negb allowed); [exact H0|].
  apply reachable_admission; [exact H0 | now rewrite Hp].
Qed.

(** X17. In every state a running engine can reach, as long as no random
    id repeats the id of a pending transfer, the pending indexes agree: the
    optimizer's priority queue holds the pending transfers, under ids that
    are all different; the group of every sender holds the pending
    transfers of that sender; and, with sharding on, every pending
    transfer is held by a shard. *)
Theorem pending_indexes_agree (sha256_prefix : string -> N) (e : t) :
  reachable sha256_prefix e ->
  TransactionOptimizer.priorityQueue (transactionOptimizer e)
    ≡ₚ pendingTransactions e
  /\ NoDup (map Transaction.id (pendingTransactions e))
  /\ (forall sender,
        TransactionOptimizer.group sender (transactionOptimizer e)
        ≡ₚ TransactionOptimizer.sent_by sender (pendingTransactions e))
  /\ (shardingEnabled e = true ->
      forall tx, In tx (pendingTransactions e) ->
                 In tx (ShardManager.all_transactions
                          (ShardManager.shards (shardManager e)))).
Proof.
  intros He. destruct (reachable_consistent _ _ He) as (Hperm & Hnodup & _).
  destruct (reachable_indexes _ _ He) as [Hagree Hsharded].
  split; [exact Hperm|]. split; [exact Hnodup|]. split; [|exact Hsharded].
  intros sender. destruct (Hagree sender) as [Hg _]. rewrite Hg.
  now apply TransactionOptimizer.sent_by_perm.
Qed.

Lemma twelve_pending_reachable : reachable ShardManager.length_hash twelve_pending.
Proof.
  unfold twelve_pending, first_bundle_in_flight. cbn [foldl]. unfold submit.
  apply reachable_endBundle.
  repeat (apply reachable_addTransaction; [|compute_done]).
  apply reachable_new.
Qed.

Lemma pending_indexes_agree_witness :
  TransactionOptimizer.priorityQueue (transactionOptimizer twelve_pending)
    ≡ₚ pendingTransactions twelve_pending
  /\ NoDup (map Transaction.id (pendingTransactions twelve_pending))
  /\ (forall sender,
        TransactionOptimizer.group sender (transactionOptimizer twelve_pending)
        ≡ₚ TransactionOptimizer.sent_by sender (pendingTransactions twelve_pending))
  /\ (shardingEnabled twelve_pending = true ->
      forall tx, In tx (pendingTransactions twelve_pending) ->
                 In tx (ShardManager.all_transactions
                          (ShardManager.shards (shardManager twelve_pending)))).
Proof.
  apply (pending_indexes_agree ShardManager.length_hash twelve_pending).
  exact twelve_pending_reachable.
Defined.

(** *** Requests that fail validation *)

(** X18. A request whose amount is not positive or exceeds [MAX_AMOUNT]
    is refused and changes neither the pending pool, the optimizer, the
    shards nor the bundle flags; but with throttling on it has gone
    through [isAllowed] and [recordRequest] like any other, so it has used
    up quota of its source. *)
Theorem invalid_amount_uses_quota (sha256_prefix : string -> N)
    (fromWallet toWallet : string) (amount : Z) (ip : string)
    (env : environment) (e : t) :
  amount <= 0 \/ MAX_AMOUNT < amount ->
  let r := addTransaction sha256_prefix fromWallet toWallet amount ip env e in
  (fst r = RateLimited \/ fst r = MissingParameters \/ fst r = InvalidAmount)
  /\ pendingTransactions (snd r) = pendingTransactions e
  /\ transactionOptimizer (snd r) = transactionOptimizer e
  /\ shardManager (snd r) = shardManager e
  /\ bundleInProgress (snd r) = bundleInProgress e
  /\ bundleTimer (snd r) = bundleTimer e
  /\ (throttlingEnabled e = true ->
      throttlingManager (snd r)
      = snd (ThrottlingManager.throttle ip (t_isAllowed env) (t_recordRequest env)
               (throttlingManager e))).
Proof.
  intros Hamount r.
  assert (Hmain : (fst r = RateLimited \/ fst r = MissingParameters
                   \/ fst r = InvalidAmount)
                  /\ pendingTransactions (snd r) = pendingTransactions e
                  /\ transactionOptimizer (snd r) = transactionOptimizer e
                  /\ shardManager (snd r) = shardManager e
                  /\ bundleInProgress (snd r) = bundleInProgress e
                  /\ bundleTimer (snd r) = bundleTimer e).
  { unfold r, addTransaction.
    pose proof (throttlePrologue_frame ip env e) as (Ho & Hm & _ & Hb & Ht).
    pose proof (throttlePrologue_pending ip env e) as Hp.
    destruct (throttlePrologue ip env e) as [allowed e0]. cbv zeta in *.
    cbn [snd] in *.
    destruct allowed; cbn [negb]; [|cbn [fst snd]; repeat split; auto].
    unfold admission.
    destruct (String.eqb toWallet "" || (amount =? 0));
      [cbn [fst snd]; repeat split; auto|].
    assert ((amount <=? 0) || (amount >? MAX_AMOUNT) = true) as ->.
    { destruct (Z.leb_spec amount 0); [reflexivity|].
      destruct (Z.gtb_spec amount MAX_AMOUNT); [reflexivity | lia]. }
    cbn [fst snd]. repeat split; auto. }
  destruct Hmain as (H1 & H2 & H3 & H4 & H5 & H6).
  repeat (split; [assumption|]).
  intros Hon. apply (addTransaction_throttles sha256_prefix fromWallet toWallet
                       amount ip env e Hon).
Qed.

(** With the default limits, a request for amount 0 leaves two timestamps
    in the window of its source. *)
Lemma invalid_amount_uses_quota_witness :
  let r := addTransaction ShardManager.length_hash "sender" "receiver" 0
             "10.0.0.1" (Environment 5 6 7 8 "t1" true) fresh_engine in
  fst r = MissingParameters
  /\ pendingTransactions (snd r) = []
  /\ ThrottlingManager.window "10.0.0.1" (throttlingManager (snd r)) = [5; 6].
Proof.
  destruct (invalid_amount_uses_quota ShardManager.length_hash "sender" "receiver" 0
              "10.0.0.1" (Environment 5 6 7 8 "t1" true) fresh_engine)
    as (_ & Hp & _ & _ & _ & _ & Hq); [left; lia|].
  cbv zeta. split; [vm_compute; reflexivity|]. split; [exact Hp|].
  rewrite Hq by reflexivity. vm_compute. reflexivity.
Defined.

(** *** The hand-over to the worker threads *)

Lemma transactionsPerWorker_covers workers count :
  (0 < workers)%nat ->
  (count <= workers * transactionsPerWorker workers count)%nat
  /\ (0 < count -> 0 < transactionsPerWorker workers count)%nat.
Proof.
  intros Hw. unfold transactionsPerWorker.
  pose proof (Nat.div_mod_eq (count + workers - 1) workers) as Hdiv.
  pose proof (Nat.mod_upper_bound (count + workers - 1) workers) as Hmod.
  split; [nia|]. intros Hc.
  destruct ((count + workers - 1) / workers)%nat eqn:Hq; [|lia].
  rewrite Nat.mul_0_r in Hdiv. lia.
Qed.

Lemma distribute_from_spec workers per : forall i transactions,
  (0 < per)%nat ->
  let r := distribute_from i workers per transactions in
  concat (map snd (fst r)) ++ snd r = transactions
  /\ map fst (fst r) = seq i (length (fst r))
  /\ (length (fst r) <= workers)%nat
  /\ Forall (fun message => 0 < length (snd message) <= per)%nat (fst r)
  /\ length (snd r) = (length transactions - workers * per)%nat.
Proof.
  induction workers as [|workers IH]; intros i transactions Hper; simpl.
  { repeat split; auto; lia. }
  destruct transactions as [|tx transactions]; [simpl; repeat split; auto; lia|].
  cbn [length Nat.eqb].
  specialize (IH (S i) (drop per (tx :: transactions)) Hper).
  destruct (distribute_from (S i) workers per (drop per (tx :: transactions)))
    as [messages rest].
  cbv zeta in IH. cbn [fst snd] in IH |- *.
  destruct IH as (Hcat & Hidx & Hlen & Hall & Hrest).
  assert (Htake : (0 < length (take per (tx :: transactions)) <= per)%nat).
  { rewrite length_take. simpl. lia. }
  destruct (Nat.ltb_spec 0 (length (take per (tx :: transactions)))); [|lia].
  cbn [map concat fst snd length seq].
  split; [rewrite <- app_assoc, Hcat; apply take_drop|].
  split; [now rewrite Hidx|]. split; [lia|]. split; [now constructor|].
  rewrite Hrest, length_drop. simpl. lia.
Qed.

(** X19. With at least one worker, [distributeTransactionsToWorkers]
    sends every transaction of the bundle to exactly one worker: the
    messages, read in order, are the bundle cut into pieces of at most
    [ceil(n / workers)] transactions, none of them empty, for the first
    workers in turn.  It empties the array it is given, which is the
    caller's [transactionsToExecute]: the [transactionCount] that
    [executeBundleTransactions] then reports is 0. *)
Theorem distribute_conserves (workers : nat) (transactions : list Transaction.t) :
  (0 < workers)%nat ->
  let r := distributeTransactionsToWorkers workers transactions in
  concat (map snd (fst r)) = transactions
  /\ snd r = []
  /\ map fst (fst r) = seq 0 (length (fst r))
  /\ (length (fst r) <= workers)%nat
  /\ Forall (fun message =>
               0 < length (snd message)
               <= transactionsPerWorker workers (length transactions))%nat (fst r)
  /\ transactionCount workers transactions = 0%nat.
Proof.
  intros Hw r.
  destruct (transactionsPerWorker_covers workers (length transactions) Hw)
    as [Hcover Hpos].
  assert (Hr : concat (map snd (fst r)) = transactions /\ snd r = []
               /\ map fst (fst r) = seq 0 (length (fst r))
               /\ (length (fst r) <= workers)%nat
               /\ Forall (fun message =>
                            0 < length (snd message)
                            <= transactionsPerWorker workers (length transactions))%nat
                         (fst r)).
  { subst r. unfold distributeTransactionsToWorkers.
    destruct transactions as [|tx transactions].
    { destruct workers; [lia|]. simpl.
      repeat split; [lia | constructor]. }
    destruct (distribute_from_spec workers
                (transactionsPerWorker workers (length (tx :: transactions)))
                0 (tx :: transactions)) as (Hcat & Hidx & Hlen & Hall & Hrest).
    { apply Hpos. simpl. lia. }
    assert (Hnil : snd (distribute_from 0 workers
                          (transactionsPerWorker workers (length (tx :: transactions)))
                          (tx :: transactions)) = []).
    { apply length_zero_iff_nil. rewrite Hrest. lia. }
    rewrite Hnil, app_nil_r in Hcat. auto. }
  destruct Hr as (Hcat & Hnil & Hidx & Hlen & Hall).
  repeat (split; [assumption|]).
  unfold transactionCount. destruct (Nat.eqb_spec workers 0); [lia|].
  fold r. now rewrite Hnil.
Qed.

(** Ten transactions and three workers: pieces of four, four and two. *)
Lemma distribute_conserves_witness :
  let bundle := map (fun i => ShardManager.transfer (pretty i) "A") (seq 0 10) in
  let r := distributeTransactionsToWorkers 3 bundle in
  map (fun message => (fst message, length (snd message))) (fst r)
  = [(0, 4); (1, 4); (2, 2)]%nat
  /\ concat (map snd (fst r)) = bundle
  /\ transactionCount 3 bundle = 0%nat.
Proof.
  cbv zeta.
  destruct (distribute_conserves 3
              (map (fun i => ShardManager.transfer (pretty i) "A") (seq 0 10)))
    as (Hcat & _ & _ & _ & _ & Hcount); [lia|].
  split; [vm_compute; reflexivity|]. split; [exact Hcat | exact Hcount].
Defined.

(** *** What a bundle leaves behind *)

(** X20. A bundle takes [BUNDLE_SIZE] transfers at most, and nothing
    re-arms the timer when it ends: when more than [BUNDLE_SIZE] transfers
    are pending and no bundle is in flight, [executeBundleTransactions]
    leaves the others pending with no timer armed and no bundle in
    flight, so they wait for the next call of [addTransaction]. *)
Theorem bundle_leaves_rest_unscheduled (e : t) :
  consistent e ->
  bundleInProgress e = false ->
  (BUNDLE_SIZE < length (pendingTransactions e))%nat ->
  let e' := snd (executeBundleTransactions e) in
  pendingTransactions e' <> []
  /\ (length (pendingTransactions e')
      = length (pendingTransactions e) - BUNDLE_SIZE)%nat
  /\ bundleTimer e' = false
  /\ bundleInProgress e' = false.
Proof.
  intros (Hperm & Hnodup & _) Hflag Hmany.
  assert (Hlen : (length (pendingTransactions e) =? 0)%nat = false)
    by (apply Nat.eqb_neq; lia).
  unfold executeBundleTransactions, beginBundle. rewrite Hflag, Hlen.
  cbn [orb set_flags pendingTransactions transactionOptimizer
       fst snd endBundle set_pending bundleInProgress bundleTimer].
  unfold TransactionOptimizer.getOptimizedTransactions.
  destruct (selection_conservation
              (TransactionOptimizer.priorityQueue (transactionOptimizer e))
              (pendingTransactions e)
              (Nat.min (length (pendingTransactions e)) BUNDLE_SIZE) Hperm Hnodup)
    as (_ & Hcount & _).
  cbv zeta in Hcount. rewrite length_take, (Permutation_length Hperm) in Hcount.
  assert (Hrest : (length (Transaction.remove_ids
                     (map Transaction.id
                        (take (Nat.min (length (pendingTransactions e)) BUNDLE_SIZE)
                           (TransactionOptimizer.priorityQueue (transactionOptimizer e))))
                     (pendingTransactions e))
                   = length (pendingTransactions e) - BUNDLE_SIZE)%nat) by lia.
  split; [|now repeat split].
  intros Hnil. rewrite Hnil in Hrest. simpl in Hrest. lia.
Qed.

Lemma bundle_leaves_rest_unscheduled_witness :
  let e' := snd (executeBundleTransactions twelve_pending) in
  length (pendingTransactions e') = 2%nat
  /\ bundleTimer e' = false /\ bundleInProgress e' = false.
Proof.
  destruct (bundle_leaves_rest_unscheduled twelve_pending)
    as (_ & Hlen & Htimer & Hflag).
  - exact twelve_pending_consistent.
  - vm_compute. reflexivity.
  - vm_compute. lia.
  - cbv zeta. split; [rewrite Hlen; vm_compute; reflexivity|]. now split.
Defined.

(** *** The order of the bundles *)

Lemma ranked_beginBundle e :
  TransactionOptimizer.ranked (transactionOptimizer e) ->
  TransactionOptimizer.ranked (transactionOptimizer (snd (beginBundle e))).
Proof.
  intros H. unfold beginBundle. destruct (_ || _); [exact H|].
  cbn [snd set_pending transactionOptimizer].
  now apply TransactionOptimizer.ranked_removeTransactions.
Qed.

Lemma ranked_requestBundle executeKeyFree e :
  TransactionOptimizer.ranked (transactionOptimizer e) ->
  TransactionOptimizer.ranked
    (transactionOptimizer (snd (requestBundle executeKeyFree e))).
Proof.
  intros H. unfold requestBundle. destruct executeKeyFree; [|exact H].
  now apply ranked_beginBundle.
Qed.

Lemma ranked_admission sha256_prefix fromWallet toWallet amount env e0 :
  TransactionOptimizer.ranked (transactionOptimizer e0) ->
  TransactionOptimizer.ranked
    (transactionOptimizer
       (snd (admission sha256_prefix fromWallet toWallet amount env e0))).
Proof.
  intros Hranked. unfold admission.
  destruct (_ || _); [exact Hranked|]. destruct (_ || _); [exact Hranked|].
  pose proof (TransactionOptimizer.ranked_addTransaction (t_scored env)
    {| Transaction.id := randomId env; Transaction.fromWallet := fromWallet;
       Transaction.toWallet := toWallet; Transaction.amount := amount;
       Transaction.timestamp := t_created env;
       Transaction.priority := PrimFloat.nan |} _ Hranked) as Hadd.
  unfold TransactionOptimizer.addTransaction in *. cbn [snd] in Hadd.
  set (transaction' := Transaction.with_priority _ _) in *.
  set (o := TransactionOptimizer.Optimizer _ _) in *.
  cbn [set_pending shardingEnabled shardManager pendingTransactions].
  destruct (if shardingEnabled e0 then _ else _)
    as [[shardIndex shardManager']|] eqn:Hassign.
  2:{ cbv zeta. cbn [snd]. exact Hadd. }
  set (e2 := set_pending _ _ _).
  cbv zeta. set (e3 := if _ && _ then set_flags e2 _ _ else e2).
  assert (H3 : TransactionOptimizer.ranked (transactionOptimizer e3)).
  { subst e3. destruct (_ && _); exact Hadd. }
  cbn [snd]. destruct (shouldExecuteEarly e3 && _); [|exact H3].
  now apply ranked_requestBundle.
Qed.

Lemma reachable_ranked sha256_prefix e :
  reachable sha256_prefix e ->
  TransactionOptimizer.ranked (transactionOptimizer e).
Proof.
  induction 1 as [| e ip env _ IH | e fromWallet toWallet amount env _ IH _
                  | e _ IH | e _ IH | executeKeyFree e _ IH | now e _ IH].
  - exact TransactionOptimizer.ranked_new.
  - destruct (throttlePrologue_frame ip env e) as (Ho & _).
    cbv zeta in Ho. now rewrite Ho.
  - now apply ranked_admission.
  - now apply ranked_beginBundle.
  - exact IH.
  - unfold timerFired. destruct (_ && _); [|exact IH].
    now apply ranked_requestBundle.
  - exact IH.
Qed.

(** X21. A bundle takes the pending transfers of the highest priorities:
    in every state a running engine can reach, the transfers that
    [executeBundleTransactions] selects come in descending order of
    priority, and no transfer it leaves pending has a priority greater
    than that of a selected one. *)
Theorem bundle_takes_highest_priorities (sha256_prefix : string -> N) (e : t)
    (bundle : list Transaction.t) (e' : t) :
  reachable sha256_prefix e ->
  executeBundleTransactions e = (Some bundle, e') ->
  StronglySorted TransactionOptimizer.not_below bundle
  /\ (forall a b,
        a ∈ bundle -> b ∈ pendingTransactions e' ->
        PrimFloat.ltb (Transaction.priority a) (Transaction.priority b) = false).
Proof.
  intros He Hrun.
  pose proof (reachable_ranked _ _ He) as Hranked.
  pose proof (reachable_consistent _ _ (reachable_beginBundle _ _ He)) as (Hperm & _).
  unfold executeBundleTransactions in Hrun. revert Hperm Hrun.
  unfold beginBundle. destruct (_ || _); [discriminate|].
  cbn [snd fst set_flags set_pending pendingTransactions transactionOptimizer
       endBundle bundleTimer TransactionOptimizer.removeTransactions
       TransactionOptimizer.priorityQueue].
  set (n := Nat.min _ _).
  intros Hperm [= <- <-]. unfold endBundle.
  cbn [pendingTransactions set_flags set_pending].
  split.
  - destruct Hranked as [_ Hs]. unfold TransactionOptimizer.getOptimizedTransactions.
    rewrite <- (take_drop n (TransactionOptimizer.priorityQueue _)) in Hs.
    now apply StronglySorted_app_1_l in Hs.
  - intros a b Ha Hb.
    apply (TransactionOptimizer.ranked_selection n _ a b Hranked Ha).
    rewrite <- Hperm in Hb. rewrite list_elem_of_In in Hb.
    apply Transaction.remove_ids_In in Hb as [Hb Hid].
    rewrite <- (take_drop n (TransactionOptimizer.priorityQueue _)) in Hb.
    apply in_app_or in Hb as [Hb|Hb]; [|now apply list_elem_of_In].
    exfalso. apply Hid. apply list_elem_of_fmap. exists b. split; [reflexivity|].
    now apply list_elem_of_In.
Qed.

Lemma bundle_takes_highest_priorities_witness :
  exists bundle e',
    executeBundleTransactions twelve_pending = (Some bundle, e')
    /\ length bundle = 10%nat
    /\ StronglySorted TransactionOptimizer.not_below bundle
    /\ (forall a b,
          a ∈ bundle -> b ∈ pendingTransactions e' ->
          PrimFloat.ltb (Transaction.priority a) (Transaction.priority b) = false).
Proof.
  exists (default [] (fst (executeBundleTransactions twelve_pending))),
         (snd (executeBundleTransactions twelve_pending)).
  split; [vm_compute; reflexivity|]. split; [vm_compute; reflexivity|].
  apply (bundle_takes_highest_priorities ShardManager.length_hash twelve_pending).
  - exact twelve_pending_reachable.
  - vm_compute. reflexivity.
Defined.

(** *** The bundle timer

    [DYNAMIC_TIMEOUT] is [true]. *)

(** X22. The timeout of the bundle timer is a number and has a floor:
    however many transfers are pending, [calculateDynamicTimeout] returns
    a number that is not NaN and not below 20% of [BUNDLE_TIMEOUT], that
    is 6000 ms. *)
Theorem timeout_has_a_floor (e : t) :
  is_nan (calculateDynamicTimeout e) = false
  /\ PrimFloat.leb 6000 (calculateDynamicTimeout e) = true.
Proof.
  unfold calculateDynamicTimeout. cbv zeta.
  set (pendingRatio := (of_Z (Z.of_nat (length (pendingTransactions e)))
                        / of_Z (Z.of_nat BUNDLE_SIZE))%float).
  assert (Hratio : is_nan pendingRatio = false).
  { apply FloatSpec.div_number;
      [apply FloatSpec.of_Z_number | reflexivity | right; exact I]. }
  assert (Hdynamic :
            is_nan (of_Z BUNDLE_TIMEOUT * (1 - pendingRatio * 0.8))%float = false).
  { apply FloatSpec.mul_finite_number; [exact I|].
    apply FloatSpec.sub_finite_number; [exact I|].
    apply FloatSpec.mul_number; [exact Hratio | exact I]. }
  change (of_Z BUNDLE_TIMEOUT * 0.2)%float with 6000%float.
  destruct (FloatSpec.Math_max_spec 6000 _ eq_refl Hdynamic) as (Hor & Hfloor & _).
  split; [|exact Hfloor].
  destruct Hor as [-> | ->]; [reflexivity | exact Hdynamic].
Qed.

(** *** The record of what was executed *)

Lemma totalTransactionsExecuted_app l l' :
  totalTransactionsExecuted (l ++ l')
  = (totalTransactionsExecuted l + length (concat (map executed_transactions l')))%nat.
Proof.
  unfold totalTransactionsExecuted. rewrite foldl_app.
  generalize (foldl (fun total bundle =>
                       (total + length (executed_transactions bundle))%nat) 0%nat l).
  induction l' as [|b l' IH]; intros n; simpl; [lia|].
  rewrite IH, length_app. lia.
Qed.

Lemma executeTransactionsSync_spec send bundleId transactions clock :
  forall k executedBundles,
  exists added,
    executeTransactionsSync send bundleId transactions clock k executedBundles
    = executedBundles ++ added
    /\ concat (map executed_transactions added)
       = List.filter (fun tx => bool_decide (is_Some (send tx))) transactions
    /\ Forall (fun bundle => executed_id bundle = bundleId
                             /\ length (executed_transactions bundle) = 1%nat) added.
Proof.
  induction transactions as [|tx transactions IH]; intros k executedBundles.
  - exists []. simpl. rewrite app_nil_r. auto.
  - cbn [executeTransactionsSync List.filter].
    destruct (send tx) as [signature|].
    + destruct (IH (S k) (executedBundles
                          ++ [{| executed_id := bundleId;
                                 executed_signature := signature;
                                 executed_timestamp := clock k;
                                 executed_transactions := [tx] |}]))
        as (added & Heq & Hcat & Hall).
      eexists (_ :: added). rewrite Heq, <- app_assoc. split; [reflexivity|].
      rewrite bool_decide_eq_true_2 by eauto. cbn [map concat app executed_transactions].
      split; [now rewrite Hcat|]. constructor; [now split | exact Hall].
    + destruct (IH (S k) executedBundles) as (added & Heq & Hcat & Hall).
      exists added. rewrite bool_decide_eq_false_2 by (intros [x Hx]; discriminate).
      auto.
Qed.

(** X23. [executedBundles] records transfers, not bundles.
    [executeTransactionsSync] tries every transaction of the bundle once,
    in order, whether or not an earlier one failed, and appends one entry
    for each that was sent, holding that one transaction under the id of
    the bundle; a transfer that fails leaves no entry.  The results of the
    worker threads are recorded the same way, one entry for each
    transaction.  Either way [getStats] counts in
    [totalTransactionsExecuted] as many transfers more as there are
    entries more. *)
Theorem executed_entries_are_transfers
    (createAndSendTransaction : Transaction.t -> option string)
    (bundleId : string) (transactions : list Transaction.t) (clock : nat -> Z)
    (deliveries : list (Z * Transaction.t))
    (executedBundles : list executedBundle) :
  (exists added,
     executeTransactionsSync createAndSendTransaction bundleId transactions
       clock 0 executedBundles = executedBundles ++ added
     /\ concat (map executed_transactions added)
        = List.filter (fun tx => bool_decide
                                   (is_Some (createAndSendTransaction tx)))
                      transactions
     /\ Forall (fun bundle => executed_id bundle = bundleId
                              /\ length (executed_transactions bundle) = 1%nat) added
     /\ totalTransactionsExecuted (executedBundles ++ added)
        = (totalTransactionsExecuted executedBundles + length added)%nat)
  /\ (exists added,
        foldl (fun executed delivery =>
                 handleWorkerResult
                   (workerMessage bundleId (fst delivery) (snd delivery)) executed)
              executedBundles deliveries
        = executedBundles ++ added
        /\ map executed_transactions added
           = map (fun delivery => [snd delivery]) deliveries
        /\ Forall (fun bundle => executed_id bundle = bundleId) added
        /\ totalTransactionsExecuted (executedBundles ++ added)
           = (totalTransactionsExecuted executedBundles + length added)%nat).
Proof.
  assert (Hsingle : forall added : list executedBundle,
            Forall (fun bundle => length (executed_transactions bundle) = 1%nat) added ->
            length (concat (map executed_transactions added)) = length added).
  { induction 1 as [|b l Hb _ IH]; simpl; [reflexivity|].
    rewrite length_app, Hb, IH. reflexivity. }
  split.
  - destruct (executeTransactionsSync_spec createAndSendTransaction bundleId
                transactions clock 0%nat executedBundles) as (added & Heq & Hcat & Hall).
    exists added. split; [exact Heq|]. split; [exact Hcat|]. split; [exact Hall|].
    rewrite totalTransactionsExecuted_app, Hsingle; [reflexivity|].
    eapply Forall_impl; [exact Hall|]. now intros b [_ Hb].
  - induction deliveries as [|[now tx] deliveries IH] using rev_ind.
    + exists []. cbn [foldl map]. rewrite app_nil_r.
      split; [reflexivity|]. split; [reflexivity|]. split; [constructor|].
      simpl. lia.
    + destruct IH as (added & Heq & Hmap & Hall & _).
      rewrite foldl_app. cbn [foldl]. rewrite Heq.
      unfold handleWorkerResult, workerMessage.
      cbn [success result_bundleId result_signature result_timestamp
           result_transactions fst snd].
      eexists (added ++ [_]). rewrite app_assoc. split; [reflexivity|].
      rewrite !map_app, Hmap. cbn [map executed_transactions].
      split; [reflexivity|].
      split; [apply Forall_app; split; [exact Hall | now repeat constructor]|].
      rewrite <- app_assoc, totalTransactionsExecuted_app. f_equal. apply Hsingle.
      apply List.Forall_forall. intros b Hb.
      assert (Hin : In (executed_transactions b)
                       (map executed_transactions
                          (added ++ [{| executed_id := bundleId;
                                        executed_signature :=
                                          "simulated_signature_" +:+ Transaction.id tx;
                                        executed_timestamp := now;
                                        executed_transactions := [tx] |}])))
        by now apply in_map.
      rewrite map_app, Hmap in Hin. cbn [map executed_transactions] in Hin.
      apply in_app_or in Hin as [Hin|[<-|[]]]; [|reflexivity].
      apply in_map_iff in Hin as (d & <- & _). reflexivity.
Qed.

End ScalableBundleEngine.

(** ** ReentrancyGuard

    JavaScript runs one synchronous segment at a time.  A call of
    [executeWithGuard] is therefore two segments: the entry, which runs up
    to the invocation of [fn] (or queues the call), and the exit, which
    runs when [fn] has settled: the log entry, the [finally] block and the
    synchronous part of [_processPendingOperations], which re-enters
    [executeWithGuard] for the head of the queue. *)

Module ReentrancyGuard.

Inductive status := reentrancy_attempt | start | complete | error.

Record log_entry := LogEntry {
  log_operationId : string;
  log_status : status;
  log_timestamp : Z
}.

Section WithOperation.

(** A deferred invocation: [fn], [context], [args] and the promise's
    [resolve] and [reject]. *)
Context {Op : Type} `{EqDecision Op}.

Record t := Guard {
  locks : gmap string bool;
  pendingOperations : gmap string (list Op);
  operationLog : list log_entry;
  maxLogSize : nat
}.

Definition new : t :=
  {| locks := ∅; pendingOperations := ∅; operationLog := []; maxLogSize := 1000 |}.

Definition isLocked (operationId : string) (g : t) : bool :=
  default false (locks g !! operationId).

Definition set_locks (g : t) (l : gmap string bool) : t :=
  {| locks := l; pendingOperations := pendingOperations g;
     operationLog := operationLog g; maxLogSize := maxLogSize g |}.

Definition set_pendingOperations (g : t) (p : gmap string (list Op)) : t :=
  {| locks := locks g; pendingOperations := p;
     operationLog := operationLog g; maxLogSize := maxLogSize g |}.

Definition _lock (operationId : string) (g : t) : t :=
  set_locks g (<[operationId := true]> (locks g)).

Definition _unlock (operationId : string) (g : t) : t :=
  set_locks g (<[operationId := false]> (locks g)).

Definition _logOperation (operationId : string) (st : status) (now : Z) (g : t) : t :=
  let log := operationLog g ++ [LogEntry operationId st now] in
  {| locks := locks g; pendingOperations := pendingOperations g;
     operationLog := if (maxLogSize g <? length log)%nat
                     then drop (length log - maxLogSize g) log else log;
     maxLogSize := maxLogSize g |}.

Definition _addToPendingQueue (operationId : string) (op : Op) (g : t) : t :=
  let queue := default [] (pendingOperations g !! operationId) in
  set_pendingOperations g (<[operationId := queue ++ [op]]> (pendingOperations g)).

(** How the entry segment of [executeWithGuard] ends. *)
Inductive entry :=
| Rejected   (* the argument check threw *)
| Queued     (* the key was locked: the call waits in the queue *)
| Entered.   (* the lock was taken and [fn] invoked *)

Definition enter (operationId : string) (op : Op) (now : Z) (g : t) : entry * t :=
  if String.eqb operationId "" then (Rejected, g)
  else if isLocked operationId g then
    (Queued,
     _addToPendingQueue operationId op
       (_logOperation operationId reentrancy_attempt now g))
  else (Entered, _logOperation operationId start now (_lock operationId g)).

(** The synchronous part of [_processPendingOperations]; the result is the
    queued invocation whose [fn] it has started, if any. *)
Definition _processPendingOperations (operationId : string) (now : Z) (g : t)
  : option Op * t :=
  match pendingOperations g !! operationId with
  | None => (None, g)
  | Some [] => (None, g)
  | Some (nextOp :: pendingOps) =>
      let g1 := set_pendingOperations g
                  (match pendingOps with
                   | [] => delete operationId (pendingOperations g)
                   | _ => <[operationId := pendingOps]> (pendingOperations g)
                   end) in
      match enter operationId nextOp now g1 with
      | (Entered, g2) => (Some nextOp, g2)
      | (_, g2) => (None, g2)
      end
  end.

(** The exit segment: [fn] has settled, with or without an error. *)
Definition leave (operationId : string) (success : bool) (now : Z) (g : t)
  : option Op * t :=
  let g1 := _logOperation operationId (if success then complete else error) now g in
  _processPendingOperations operationId now (_unlock operationId g1).

(** *** Executions

    What the guard does is observed on the executions of the guarded
    functions: [running] holds the invocations whose [fn] has been started
    and has not settled, [trace] the starts and ends in the order they
    happened. *)

Inductive event :=
| Started (operationId : string) (op : Op)
| Finished (operationId : string) (op : Op).

Record world := World {
  guard : t;
  running : list (string * Op);
  trace : list event
}.

Definition initial : world := {| guard := new; running := []; trace := [] |}.

Inductive action :=
| Call (operationId : string) (op : Op) (now : Z)
| Return (operationId : string) (op : Op) (success : bool) (now : Z).

Fixpoint remove_first (x : string * Op) (l : list (string * Op)) : list (string * Op) :=
  match l with
  | [] => []
  | y :: l' => if decide (x = y) then l' else y :: remove_first x l'
  end.

(** [None]: the action cannot happen ([Return] of an execution that is not
    running). *)
Definition step (a : action) (w : world) : option world :=
  match a with
  | Call operationId op now =>
      match enter operationId op now (guard w) with
      | (Entered, g) =>
          Some {| guard := g; running := running w ++ [(operationId, op)];
                  trace := trace w ++ [Started operationId op] |}
      | (_, g) => Some {| guard := g; running := running w; trace := trace w |}
      end
  | Return operationId op success now =>
      if decide ((operationId, op) ∈ running w) then
        let running1 := remove_first (operationId, op) (running w) in
        let trace1 := trace w ++ [Finished operationId op] in
        match leave operationId success now (guard w) with
        | (Some nextOp, g) =>
            Some {| guard := g; running := running1 ++ [(operationId, nextOp)];
                    trace := trace1 ++ [Started operationId nextOp] |}
        | (None, g) => Some {| guard := g; running := running1; trace := trace1 |}
        end
      else None
  end.

Fixpoint run (actions : list action) (w : world) : option world :=
  match actions with
  | [] => Some w
  | a :: actions' =>
      match step a w with
      | Some w' => run actions' w'
      | None => None
      end
  end.

(** The views of one key. *)
Definition queue (k : string) (g : t) : list Op :=
  default [] (pendingOperations g !! k).

Definition running_on (k : string) (l : list (string * Op)) : list Op :=
  map snd (List.filter (fun e => String.eqb (fst e) k) l).

Definition started_on (k : string) (tr : list event) : list Op :=
  omap (fun e => match e with
                 | Started k' op => if String.eqb k' k then Some op else None
                 | Finished _ _ => None
                 end) tr.

Definition finished_on (k : string) (tr : list event) : list Op :=
  omap (fun e => match e with
                 | Finished k' op => if String.eqb k' k then Some op else None
                 | Started _ _ => None
                 end) tr.

(** The invocations of [executeWithGuard] with key [k], in arrival order. *)
Definition calls_on (k : string) (actions : list action) : list Op :=
  omap (fun a => match a with
                 | Call k' op _ => if String.eqb k' k then Some op else None
                 | Return _ _ _ _ => None
                 end) actions.

(** Reading a trace as executions of key [k] that do not overlap: [cur] is
    the execution in progress; a start while one is in progress, or an end
    that is not the end of the one in progress, is refused with [None]. *)
Fixpoint sequential_from (k : string) (cur : option Op) (tr : list event)
  : option (option Op) :=
  match tr with
  | [] => Some cur
  | Started k' op :: tr' =>
      if String.eqb k' k then
        match cur with
        | None => sequential_from k (Some op) tr'
        | Some _ => None
        end
      else sequential_from k cur tr'
  | Finished k' op :: tr' =>
      if String.eqb k' k then
        match cur with
        | Some op' => if decide (op = op') then sequential_from k None tr' else None
        | None => None
        end
      else sequential_from k cur tr'
  end.

Definition sequential (k : string) (tr : list event) : Prop :=
  is_Some (sequential_from k None tr).

(** *** The invariant of one key

    [calls] are the invocations made so far with key [k]. *)
Record invariant (k : string) (calls : list Op) (w : world) : Prop := Invariant {
  inv_lock : isLocked k (guard w) = true <-> running_on k (running w) <> [];
  inv_exclusive : (length (running_on k (running w)) <= 1)%nat;
  inv_queue_waits : queue k (guard w) <> [] -> running_on k (running w) <> [];
  inv_fifo : started_on k (trace w) ++ queue k (guard w) = calls;
  inv_trace : finished_on k (trace w) ++ running_on k (running w)
              = started_on k (trace w);
  inv_sequential : sequential_from k None (trace w)
                   = Some (head (running_on k (running w)))
}.

(** [returns k now ops]: the executions [ops] of key [k] settle, one after
    the other. *)
Definition returns (k : string) (now : Z) (ops : list Op) : list action :=
  map (fun op => Return k op true now) ops.

End WithOperation.

Arguments t : clear implicits.
Arguments world : clear implicits.
Arguments action : clear implicits.
Arguments event : clear implicits.

(** The queue test of the repository: three invocations with one key
    while the first is still running (and one with another key), then the
    first settles. *)
Definition queue_test : list (action nat) :=
  [Call "queue_test" 1%nat 0; Call "queue_test" 2%nat 0; Call "other" 7%nat 0;
   Call "queue_test" 3%nat 0; Return "queue_test" 1%nat true 50].

Definition after_queue_test : world nat :=
  default initial (run queue_test initial).

Section Properties.
Context {Op : Type} `{EqDecision Op}.
Implicit Types (g : t Op) (w : world Op) (op : Op) (a : action Op)
  (tr : list (event Op)) (l : list (string * Op)).

(** *** What the two segments do to a key *)

Lemma enter_spec k0 op now g :
  let g' := snd (enter k0 op now g) in
  match fst (enter k0 op now g) with
  | Rejected => k0 = "" /\ g' = g
  | Queued =>
      k0 <> "" /\ isLocked k0 g = true
      /\ (forall k, isLocked k g' = isLocked k g)
      /\ queue k0 g' = queue k0 g ++ [op]
      /\ (forall k, k <> k0 -> queue k g' = queue k g)
  | Entered =>
      k0 <> "" /\ isLocked k0 g = false
      /\ isLocked k0 g' = true
      /\ (forall k, k <> k0 -> isLocked k g' = isLocked k g)
      /\ (forall k, queue k g' = queue k g)
  end.
Proof.
  unfold enter. destruct (String.eqb_spec k0 "") as [->|Hne]; [now split|].
  destruct (isLocked k0 g) eqn:Hlock; simpl.
  - split; [exact Hne|]. split; [reflexivity|]. split; [reflexivity|].
    unfold queue; simpl. rewrite lookup_insert_eq. split; [reflexivity|].
    intros k Hk. now rewrite lookup_insert_ne by congruence.
  - split; [exact Hne|]. split; [reflexivity|].
    unfold isLocked; simpl. rewrite lookup_insert_eq. split; [reflexivity|].
    split; [|reflexivity]. intros k Hk. now rewrite lookup_insert_ne by congruence.
Qed.

Lemma enter_unlocked k0 op now g :
  k0 <> "" -> isLocked k0 g = false ->
  enter k0 op now g = (Entered, _logOperation k0 start now (_lock k0 g)).
Proof.
  intros Hne Hlock. unfold enter. rewrite Hlock.
  now destruct (String.eqb_spec k0 "").
Qed.

Lemma leave_spec k0 success now g :
  k0 <> "" ->
  let g' := snd (leave k0 success now g) in
  match queue k0 g with
  | [] => fst (leave k0 success now g) = None
          /\ isLocked k0 g' = false /\ queue k0 g' = []
  | nextOp :: pendingOps =>
      fst (leave k0 success now g) = Some nextOp
      /\ isLocked k0 g' = true /\ queue k0 g' = pendingOps
  end
  /\ (forall k, k <> k0 -> isLocked k g' = isLocked k g /\ queue k g' = queue k g).
Proof.
  intros Hne. unfold leave, _processPendingOperations, queue.
  cbn [pendingOperations _unlock set_locks _logOperation].
  destruct (pendingOperations g !! k0) as [[|nextOp pendingOps]|] eqn:Hq;
    cbn [default].
  - split.
    + unfold isLocked; simpl. now rewrite lookup_insert_eq, Hq.
    + intros k Hk. unfold isLocked; simpl. now rewrite lookup_insert_ne by congruence.
  - rewrite enter_unlocked;
      [|exact Hne|unfold isLocked; simpl; now rewrite lookup_insert_eq].
    cbn [fst snd]. split.
    + split; [reflexivity|]. unfold isLocked; simpl. rewrite lookup_insert_eq.
      split; [reflexivity|].
      destruct pendingOps; [now rewrite lookup_delete_eq | now rewrite lookup_insert_eq].
    + intros k Hk. unfold isLocked; simpl.
      rewrite !lookup_insert_ne by congruence. split; [reflexivity|].
      destruct pendingOps;
        [now rewrite lookup_delete_ne by congruence
        | now rewrite lookup_insert_ne by congruence].
  - split.
    + unfold isLocked; simpl. now rewrite lookup_insert_eq, Hq.
    + intros k Hk. unfold isLocked; simpl. now rewrite lookup_insert_ne by congruence.
Qed.

(** A segment on one key leaves every other key alone. *)
Lemma enter_frame k0 op now g k :
  k <> k0 ->
  isLocked k (snd (enter k0 op now g)) = isLocked k g
  /\ queue k (snd (enter k0 op now g)) = queue k g.
Proof.
  intros Hk. pose proof (enter_spec k0 op now g) as Hs. simpl in Hs.
  destruct (fst (enter k0 op now g)).
  - destruct Hs as [_ ->]. now split.
  - destruct Hs as (_ & _ & Hl & _ & Hq). auto.
  - destruct Hs as (_ & _ & _ & Hl & Hq). auto.
Qed.

Lemma leave_frame k0 success now g k :
  k <> k0 ->
  isLocked k (snd (leave k0 success now g)) = isLocked k g
  /\ queue k (snd (leave k0 success now g)) = queue k g.
Proof.
  intros Hk. unfold leave, _processPendingOperations.
  cbn [pendingOperations _unlock set_locks _logOperation].
  assert (Hunlock : forall p,
            isLocked k (set_pendingOperations
                          (_unlock k0 (_logOperation k0
                             (if success then complete else error) now g)) p)
            = isLocked k g).
  { intros p. unfold isLocked; simpl. now rewrite lookup_insert_ne by congruence. }
  destruct (pendingOperations g !! k0) as [[|nextOp pendingOps]|] eqn:Hq.
  - split; [apply (Hunlock (pendingOperations g)) | reflexivity].
  - match goal with
    | |- context [enter k0 nextOp now ?g1] =>
        pose proof (enter_frame k0 nextOp now g1 k Hk) as [Hl Hqu];
        destruct (enter k0 nextOp now g1) as [[| |] g2]
    end; cbn [snd] in *; rewrite Hl, Hqu, Hunlock; (split; [reflexivity|]);
      unfold queue; simpl;
      (destruct pendingOps;
        [now rewrite lookup_delete_ne by congruence
        | now rewrite lookup_insert_ne by congruence]).
  - split; [apply (Hunlock (pendingOperations g)) | reflexivity].
Qed.

(** *** Reading the ghost state *)

Lemma running_on_app k l l' :
  running_on k (l ++ l') = running_on k l ++ running_on k l'.
Proof. unfold running_on. now rewrite List.filter_app, map_app. Qed.

Lemma running_on_cons k k1 op1 l :
  running_on k ((k1, op1) :: l)
  = if String.eqb k1 k then op1 :: running_on k l else running_on k l.
Proof. unfold running_on. simpl. now destruct (String.eqb k1 k). Qed.

Lemma running_on_other k k0 op l :
  k <> k0 -> running_on k (remove_first (k0, op) l) = running_on k l.
Proof.
  intros Hk. induction l as [|[k1 op1] l IH]; simpl; [reflexivity|].
  destruct (decide ((k0, op) = (k1, op1))) as [[= <- <-]|Hne].
  - rewrite running_on_cons. now destruct (String.eqb_spec k0 k); [congruence|].
  - rewrite !running_on_cons, IH. reflexivity.
Qed.

Lemma running_on_remove k op l :
  (k, op) ∈ l -> (length (running_on k l) <= 1)%nat ->
  running_on k l = [op] /\ running_on k (remove_first (k, op) l) = [].
Proof.
  induction l as [|[k1 op1] l IH]; intros Hin Hlen; [now apply elem_of_nil in Hin|].
  simpl. destruct (decide ((k, op) = (k1, op1))) as [[= <- <-]|Hne].
  - rewrite running_on_cons, String.eqb_refl in *.
    destruct (running_on k l); [auto | simpl in Hlen; lia].
  - apply elem_of_cons in Hin as [Heq|Hin]; [congruence|].
    rewrite !running_on_cons in *.
    destruct (String.eqb_spec k1 k) as [->|Hk].
    + exfalso. simpl in Hlen. destruct (IH Hin) as [Hl _]; [lia|].
      rewrite Hl in Hlen. simpl in Hlen. lia.
    + now apply IH.
Qed.

Lemma started_on_app k tr tr' :
  started_on k (tr ++ tr') = started_on k tr ++ started_on k tr'.
Proof. apply omap_app. Qed.

Lemma finished_on_app k tr tr' :
  finished_on k (tr ++ tr') = finished_on k tr ++ finished_on k tr'.
Proof. apply omap_app. Qed.

Lemma calls_on_app k (actions actions' : list (action Op)) :
  calls_on k (actions ++ actions') = calls_on k actions ++ calls_on k actions'.
Proof. apply omap_app. Qed.

Lemma sequential_from_app k tr tr' cur :
  sequential_from k cur (tr ++ tr')
  = sequential_from k cur tr ≫= fun cur' => sequential_from k cur' tr'.
Proof.
  revert cur. induction tr as [|[k' op|k' op] tr IH]; intros cur; simpl;
    [reflexivity| |].
  - destruct (String.eqb k' k); [destruct cur; [reflexivity|]|]; apply IH.
  - destruct (String.eqb k' k); [|apply IH].
    destruct cur as [op'|]; [|reflexivity].
    destruct (decide (op = op')); [apply IH | reflexivity].
Qed.

Lemma invariant_initial k : invariant (Op:=Op) k [] initial.
Proof.
  split; simpl; try reflexivity; try lia.
  - unfold isLocked; simpl. rewrite lookup_empty. simpl.
    split; [discriminate | intros H; now elim H].
  - unfold queue; simpl. rewrite lookup_empty. simpl. intros H; now elim H.
Qed.

Lemma eqb_neq_false (k k0 : string) : k <> k0 -> String.eqb k0 k = false.
Proof. intros H. apply String.eqb_neq. congruence. Qed.

(** Steps on another key. *)
Lemma invariant_frame k calls w g' running' trace' :
  invariant k calls w ->
  isLocked k g' = isLocked k (guard w) ->
  queue k g' = queue k (guard w) ->
  running_on k running' = running_on k (running w) ->
  started_on k trace' = started_on k (trace w) ->
  finished_on k trace' = finished_on k (trace w) ->
  sequential_from k None trace' = sequential_from k None (trace w) ->
  invariant k calls {| guard := g'; running := running'; trace := trace' |}.
Proof.
  intros [] Hl Hq Hr Hs Hf Hseq.
  split; simpl; rewrite ?Hl, ?Hq, ?Hr, ?Hs, ?Hf, ?Hseq; assumption.
Qed.

Lemma running_on_here k op : running_on k [(k, op)] = [op].
Proof. unfold running_on; simpl. now rewrite String.eqb_refl. Qed.

Lemma running_on_there k k0 op : k <> k0 -> running_on k [(k0, op)] = [].
Proof. intros H. unfold running_on; simpl. now rewrite (eqb_neq_false k k0 H). Qed.

Lemma started_on_started k op : started_on k [Started k op] = [op].
Proof. unfold started_on; simpl. now rewrite String.eqb_refl. Qed.

Lemma started_on_started_there k k0 op : k <> k0 -> started_on k [Started k0 op] = [].
Proof. intros H. unfold started_on; simpl. now rewrite (eqb_neq_false k k0 H). Qed.

Lemma started_on_finished k k0 op : started_on k [Finished k0 op] = [].
Proof. reflexivity. Qed.

Lemma finished_on_finished k op : finished_on k [Finished k op] = [op].
Proof. unfold finished_on; simpl. now rewrite String.eqb_refl. Qed.

Lemma finished_on_finished_there k k0 op : k <> k0 -> finished_on k [Finished k0 op] = [].
Proof. intros H. unfold finished_on; simpl. now rewrite (eqb_neq_false k k0 H). Qed.

Lemma finished_on_started k k0 op : finished_on k [Started k0 op] = [].
Proof. reflexivity. Qed.

Lemma sequential_started k op : sequential_from k None [Started k op] = Some (Some op).
Proof. simpl. now rewrite String.eqb_refl. Qed.

Lemma sequential_finished k op :
  sequential_from k (Some op) [Finished k op] = Some None.
Proof. simpl. rewrite String.eqb_refl. now destruct (decide (op = op)). Qed.

Lemma step_invariant k a w w' calls :
  k <> "" ->
  step a w = Some w' ->
  invariant k calls w ->
  invariant k (calls ++ calls_on k [a]) w'.
Proof.
  intros Hk Hstep Hinv. destruct a as [k0 op now|k0 op success now]; simpl in Hstep.
  - (* Call *)
    destruct (decide (k = k0)) as [<-|Hne].
    + assert (Hcalls : calls_on k [Call k op now] = [op]).
      { unfold calls_on; simpl. now rewrite String.eqb_refl. }
      rewrite Hcalls.
      pose proof (enter_spec k op now (guard w)) as Hs. simpl in Hs.
      destruct (enter k op now (guard w)) as [[| |] g']; simpl in Hs;
        injection Hstep as <-; destruct Hinv as [Hlock Hex Hwait Hfifo Htr Hseq].
      * tauto.
      * (* the key is locked: the call joins the queue *)
        destruct Hs as (_ & Hlocked & Hl & Hq & _).
        split; simpl; rewrite ?Hl, ?Hq; try assumption.
        -- intros _. now apply Hlock.
        -- now rewrite app_assoc, Hfifo.
      * (* the key is free: nothing runs, nothing waits, [fn] starts *)
        destruct Hs as (_ & Hfree & Hl & _ & Hq).
        assert (Hnone : running_on k (running w) = []).
        { destruct (running_on k (running w)) eqn:Hr; [reflexivity|].
          assert (isLocked k (guard w) = true) by (apply Hlock; congruence).
          congruence. }
        assert (Hempty : queue k (guard w) = []).
        { destruct (queue k (guard w)) eqn:Hqe; [reflexivity|].
          exfalso. apply Hwait; congruence. }
        rewrite Hnone in Htr, Hseq. rewrite app_nil_r in Htr.
        rewrite Hempty, app_nil_r in Hfifo.
        split; simpl;
          rewrite ?running_on_app, ?started_on_app, ?finished_on_app,
                  ?sequential_from_app, ?running_on_here, ?started_on_started,
                  ?finished_on_started, ?Hq, ?Hl, ?Hnone, ?Hempty, ?Hseq,
                  ?app_nil_r; simpl.
        -- split; congruence.
        -- lia.
        -- congruence.
        -- congruence.
        -- congruence.
        -- apply sequential_started.
    + assert (Hcalls : calls_on k [Call k0 op now] = []).
      { unfold calls_on; simpl. now rewrite (eqb_neq_false k k0 Hne). }
      rewrite Hcalls, app_nil_r.
      destruct (enter_frame k0 op now (guard w) k Hne) as [Hl Hq].
      destruct (enter k0 op now (guard w)) as [[| |] g']; simpl in Hl, Hq;
        injection Hstep as <-;
        apply (invariant_frame k calls w); try assumption; try reflexivity;
        rewrite ?running_on_app, ?started_on_app, ?finished_on_app,
                ?sequential_from_app, ?running_on_there, ?started_on_started_there,
                ?finished_on_started, ?app_nil_r by exact Hne;
        try reflexivity.
      destruct (sequential_from k None (trace w)) as [cur|]; [|reflexivity].
      simpl. now rewrite (eqb_neq_false k k0 Hne).
  - (* Return *)
    destruct (decide ((k0, op) ∈ running w)) as [Hin|]; [|discriminate].
    assert (Hcalls : calls_on k [Return k0 op success now] = []) by reflexivity.
    rewrite Hcalls, app_nil_r.
    destruct (decide (k = k0)) as [<-|Hne].
    + destruct Hinv as [Hlock Hex Hwait Hfifo Htr Hseq].
      destruct (running_on_remove k op (running w) Hin Hex) as [Hrun Hgone].
      pose proof (leave_spec k success now (guard w) Hk) as [Hs _]. simpl in Hs.
      rewrite Hrun in Htr, Hseq. simpl in Hseq.
      destruct (queue k (guard w)) as [|nextOp pendingOps] eqn:Hq.
      * (* nobody waits: the key becomes free *)
        destruct Hs as (Hnext & Hl & Hq').
        destruct (leave k success now (guard w)) as [next g']; simpl in *.
        subst next. injection Hstep as <-.
        split; simpl;
          rewrite ?started_on_app, ?finished_on_app, ?sequential_from_app,
                  ?started_on_finished, ?finished_on_finished,
                  ?Hgone, ?Hl, ?Hq', ?Hseq, ?app_nil_r; simpl.
        -- split; [discriminate | intros H; now elim H].
        -- lia.
        -- intros H; now elim H.
        -- now rewrite app_nil_r in Hfifo.
        -- congruence.
        -- apply sequential_finished.
      * (* the head of the queue starts at once *)
        destruct Hs as (Hnext & Hl & Hq').
        destruct (leave k success now (guard w)) as [next g']; simpl in *.
        subst next. injection Hstep as <-.
        split; simpl;
          rewrite ?running_on_app, ?started_on_app, ?finished_on_app,
                  ?sequential_from_app, ?started_on_finished,
                  ?finished_on_finished, ?running_on_here, ?started_on_started,
                  ?finished_on_started, ?Hgone, ?Hl, ?Hq', ?Hseq, ?app_nil_r;
          simpl.
        -- split; congruence.
        -- lia.
        -- congruence.
        -- rewrite <- Hfifo, <- app_assoc. reflexivity.
        -- congruence.
        -- rewrite String.eqb_refl.
           destruct (decide (op = op)); [reflexivity | congruence].
    + destruct (leave_frame k0 success now (guard w) k Hne) as [Hl Hq].
      destruct (leave k0 success now (guard w)) as [[nextOp|] g']; simpl in Hl, Hq;
        injection Hstep as <-;
        apply (invariant_frame k calls w); try assumption;
        rewrite ?running_on_app, ?started_on_app, ?finished_on_app,
                ?sequential_from_app, ?running_on_other, ?running_on_there,
                ?started_on_started_there, ?finished_on_finished_there,
                ?started_on_finished, ?finished_on_started, ?app_nil_r
          by exact Hne;
        try reflexivity;
        (destruct (sequential_from k None (trace w)) as [cur|]; [|reflexivity]);
        simpl; now rewrite ?(eqb_neq_false k k0 Hne).
Qed.

Lemma run_invariant k actions : forall w w' calls,
  k <> "" ->
  run actions w = Some w' ->
  invariant k calls w ->
  invariant k (calls ++ calls_on k actions) w'.
Proof.
  induction actions as [|a actions IH]; intros w w' calls Hk Hrun Hinv; simpl in Hrun.
  - injection Hrun as <-. change (calls_on k []) with (@nil Op).
    now rewrite app_nil_r.
  - destruct (step a w) as [w1|] eqn:Hstep; [|discriminate].
    change (a :: actions) with ([a] ++ actions).
    rewrite calls_on_app, app_assoc.
    apply (IH w1 w' _ Hk Hrun). now apply (step_invariant k a w).
Qed.

Lemma running_on_elem k op l : op ∈ running_on k l -> (k, op) ∈ l.
Proof.
  induction l as [|[k1 op1] l IH]; [intros H; now apply elem_of_nil in H|].
  rewrite running_on_cons. destruct (String.eqb_spec k1 k) as [->|Hne].
  - intros [->|H]%elem_of_cons; [apply list_elem_of_here|].
    apply list_elem_of_further, IH, H.
  - intros H. apply list_elem_of_further, IH, H.
Qed.

Lemma step_return_finished k op success now w w1 :
  step (Return k op success now) w = Some w1 ->
  finished_on k (trace w1) = finished_on k (trace w) ++ [op].
Proof.
  simpl. destruct (decide _); [|discriminate].
  destruct (leave k success now (guard w)) as [[nextOp|] g]; intros [= <-]; simpl;
    now rewrite ?finished_on_app, ?finished_on_finished, ?finished_on_started,
                ?app_nil_r.
Qed.

Lemma drain k now calls : forall (n : nat) w,
  k <> "" ->
  invariant k calls w ->
  length (running_on k (running w) ++ queue k (guard w)) = n ->
  exists w',
    run (returns k now (running_on k (running w) ++ queue k (guard w))) w = Some w'
    /\ invariant k calls w'
    /\ running_on k (running w') = [] /\ queue k (guard w') = [].
Proof.
  induction n as [|n IH]; intros w Hk Hinv Hlen.
  - apply length_zero_iff_nil in Hlen. rewrite Hlen.
    apply app_eq_nil in Hlen as [Hr Hq]. exists w. auto.
  - destruct (running_on k (running w)) as [|op others] eqn:Hrun.
    { exfalso. destruct (queue k (guard w)) eqn:Hq; [discriminate|].
      apply (inv_queue_waits k calls w Hinv); congruence. }
    assert (others = []) as ->.
    { pose proof (inv_exclusive k calls w Hinv) as Hex. rewrite Hrun in Hex.
      destruct others; [reflexivity | simpl in Hex; lia]. }
    assert (Hin : (k, op) ∈ running w).
    { apply running_on_elem. rewrite Hrun. apply list_elem_of_here. }
    assert (Hstep : exists w1, step (Return k op true now) w = Some w1).
    { simpl. destruct (decide _); [|contradiction].
      destruct (leave k true now (guard w)) as [[nextOp|] g]; eauto. }
    destruct Hstep as [w1 Hstep].
    pose proof (step_invariant k _ w w1 calls Hk Hstep Hinv) as Hinv1.
    change (calls_on k [Return k op true now]) with (@nil Op) in Hinv1.
    rewrite app_nil_r in Hinv1.
    assert (Hrest : running_on k (running w1) ++ queue k (guard w1)
                    = queue k (guard w)).
    { pose proof (inv_fifo k calls w Hinv) as Hf.
      pose proof (inv_fifo k calls w1 Hinv1) as Hf1.
      pose proof (inv_trace k calls w Hinv) as Ht.
      pose proof (inv_trace k calls w1 Hinv1) as Ht1.
      rewrite (step_return_finished k op true now w w1 Hstep) in Ht1.
      rewrite Hrun in Ht. rewrite Ht in Ht1.
      rewrite <- Ht1, <- Hf, <- app_assoc in Hf1.
      now apply app_inv_head in Hf1. }
    simpl in Hlen. injection Hlen as Hlen.
    destruct (IH w1 Hk Hinv1) as (w' & Hrun' & Hinv' & Hr' & Hq').
    { now rewrite Hrest. }
    exists w'. cbn [app returns map run]. rewrite Hstep.
    rewrite Hrest in Hrun'. auto.
Qed.

(** C2. For every key [k] and every interleaving of invocations and
    settlements, starting from a new guard: at most one execution of [k] is
    in progress, and the starts and ends of [k] in the trace do not
    overlap; the executions started so far, followed by the queue, are the
    invocations made so far, in arrival order, so none is skipped,
    repeated or overtaken; a queued invocation always waits behind an
    execution in progress; and when the executions settle one after the
    other, every invocation is executed: the executions started, and
    finished, are then exactly the invocations made, in arrival order. *)
Theorem guard_exclusive_fifo (k : string) (actions : list (action Op))
    (w : world Op) :
  k <> "" ->
  run actions initial = Some w ->
  (length (running_on k (running w)) <= 1)%nat
  /\ sequential k (trace w)
  /\ started_on k (trace w) ++ queue k (guard w) = calls_on k actions
  /\ finished_on k (trace w) ++ running_on k (running w) = started_on k (trace w)
  /\ (queue k (guard w) <> [] -> running_on k (running w) <> [])
  /\ (forall now, exists w',
        run (returns k now (running_on k (running w) ++ queue k (guard w))) w
        = Some w'
        /\ running_on k (running w') = [] /\ queue k (guard w') = []
        /\ started_on k (trace w') = calls_on k actions
        /\ finished_on k (trace w') = calls_on k actions
        /\ sequential k (trace w')).
Proof.
  intros Hk Hrun.
  pose proof (run_invariant k actions initial w [] Hk Hrun (invariant_initial k))
    as Hinv. simpl in Hinv.
  split; [apply (inv_exclusive _ _ _ Hinv)|].
  split; [unfold sequential; rewrite (inv_sequential _ _ _ Hinv); eauto|].
  split; [apply (inv_fifo _ _ _ Hinv)|].
  split; [apply (inv_trace _ _ _ Hinv)|].
  split; [apply (inv_queue_waits _ _ _ Hinv)|].
  intros now.
  destruct (drain k now (calls_on k actions) _ w Hk Hinv eq_refl)
    as (w' & Hrun' & Hinv' & Hr' & Hq').
  exists w'. split; [exact Hrun'|]. split; [exact Hr'|]. split; [exact Hq'|].
  pose proof (inv_fifo _ _ _ Hinv') as Hf. rewrite Hq', app_nil_r in Hf.
  pose proof (inv_trace _ _ _ Hinv') as Ht. rewrite Hr', app_nil_r in Ht.
  split; [exact Hf|]. split; [congruence|].
  unfold sequential. rewrite (inv_sequential _ _ _ Hinv'). eauto.
Qed.

(** *** The guard's bookkeeping *)

Lemma _logOperation_length k0 st now g :
  (length (operationLog (_logOperation k0 st now g)) <= maxLogSize g)%nat.
Proof.
  unfold _logOperation. cbn [operationLog].
  destruct (Nat.ltb_spec (maxLogSize g) (length (operationLog g ++ [LogEntry k0 st now])));
    [rewrite length_drop|]; lia.
Qed.

Lemma enter_log k0 op now g :
  (length (operationLog g) <= maxLogSize g)%nat ->
  (length (operationLog (snd (enter k0 op now g)))
   <= maxLogSize (snd (enter k0 op now g)))%nat
  /\ maxLogSize (snd (enter k0 op now g)) = maxLogSize g.
Proof.
  intros Hg. unfold enter. destruct (String.eqb k0 ""); [now split|].
  destruct (isLocked k0 g); cbn [snd].
  - split; [|reflexivity]. apply (_logOperation_length k0 reentrancy_attempt now g).
  - split; [|reflexivity]. apply (_logOperation_length k0 start now (_lock k0 g)).
Qed.

Lemma leave_log k0 success now g :
  (length (operationLog (snd (leave k0 success now g)))
   <= maxLogSize (snd (leave k0 success now g)))%nat
  /\ maxLogSize (snd (leave k0 success now g)) = maxLogSize g.
Proof.
  unfold leave, _processPendingOperations.
  set (g1 := _logOperation k0 (if success then complete else error) now g).
  assert (H1 : (length (operationLog g1) <= maxLogSize g1)%nat)
    by apply (_logOperation_length k0 (if success then complete else error) now g).
  cbn [pendingOperations _unlock set_locks].
  destruct (pendingOperations g1 !! k0) as [[|nextOp pendingOps]|];
    [now split| |now split].
  match goal with
  | |- context [enter k0 nextOp now ?g2] =>
      pose proof (enter_log k0 nextOp now g2 H1) as [Hl Hm];
      destruct (enter k0 nextOp now g2) as [[| |] g3]
  end; cbn [snd] in *; now split.
Qed.

(** X24. The operation log never holds more than [maxLogSize] = 1000
    entries, whatever calls are made and however they settle. *)
Theorem operationLog_bounded (actions : list (action Op)) (w : world Op) :
  run actions initial = Some w ->
  (length (operationLog (guard w)) <= 1000)%nat.
Proof.
  assert (H : forall w0 w1 : world Op,
            run actions w0 = Some w1 ->
            (length (operationLog (guard w0)) <= maxLogSize (guard w0))%nat ->
            (length (operationLog (guard w1)) <= maxLogSize (guard w1))%nat
            /\ maxLogSize (guard w1) = maxLogSize (guard w0)).
  { induction actions as [|a actions IH]; intros w0 w1 Hrun H0; simpl in Hrun.
    - injection Hrun as <-. now split.
    - destruct (step a w0) as [w0'|] eqn:Hstep; [|discriminate].
      assert (H0' : (length (operationLog (guard w0')) <= maxLogSize (guard w0'))%nat
                    /\ maxLogSize (guard w0') = maxLogSize (guard w0)).
      { destruct a as [k0 op now|k0 op success now]; simpl in Hstep.
        - pose proof (enter_log k0 op now (guard w0) H0) as Hl.
          destruct (enter k0 op now (guard w0)) as [[| |] g'];
            injection Hstep as <-; exact Hl.
        - destruct (decide _); [|discriminate].
          pose proof (leave_log k0 success now (guard w0)) as Hl.
          destruct (leave k0 success now (guard w0)) as [[nextOp|] g'];
            injection Hstep as <-; exact Hl. }
      destruct H0' as [Hlen Hmax].
      destruct (IH w0' w1 Hrun Hlen) as [Hlen1 Hmax1].
      split; [exact Hlen1 | congruence]. }
  intros Hrun. destruct (H initial w Hrun) as [Hlen Hmax]; [simpl; lia|].
  rewrite Hmax in Hlen. exact Hlen.
Qed.

Lemma enter_locks k0 op now g :
  (forall k, pendingOperations g !! k <> Some []) ->
  let g' := snd (enter k0 op now g) in
  (forall k, is_Some (locks g !! k) -> is_Some (locks g' !! k))
  /\ (k0 <> "" -> is_Some (locks g' !! k0))
  /\ (forall k, pendingOperations g' !! k <> Some []).
Proof.
  intros Hq. unfold enter. destruct (String.eqb_spec k0 "") as [->|Hne];
    [now repeat split|].
  destruct (isLocked k0 g) eqn:Hlock; cbn [snd].
  - split; [auto|]. split.
    + intros _. unfold isLocked in Hlock. cbn [_addToPendingQueue _logOperation
        set_pendingOperations locks].
      destruct (locks g !! k0); [eauto | discriminate].
    + intros k. cbn [_addToPendingQueue _logOperation set_pendingOperations
                     pendingOperations].
      destruct (decide (k = k0)) as [->|Hk].
      * rewrite lookup_insert_eq. intros [= Hnil]. now destruct (default [] _).
      * rewrite lookup_insert_ne by congruence. apply Hq.
  - cbn [_logOperation _lock set_locks locks pendingOperations].
    split; [|split; [|exact Hq]].
    + intros k Hk. destruct (decide (k = k0)) as [->|Hne'].
      * rewrite lookup_insert_eq. eauto.
      * now rewrite lookup_insert_ne by congruence.
    + intros _. rewrite lookup_insert_eq. eauto.
Qed.

Lemma leave_locks k0 success now g :
  (forall k, pendingOperations g !! k <> Some []) ->
  let g' := snd (leave k0 success now g) in
  (forall k, is_Some (locks g !! k) -> is_Some (locks g' !! k))
  /\ (forall k, pendingOperations g' !! k <> Some []).
Proof.
  intros Hq. unfold leave, _processPendingOperations.
  cbn [pendingOperations _unlock set_locks _logOperation].
  set (g1 := _unlock k0 (_logOperation k0 _ now g)).
  assert (Hl1 : forall k, is_Some (locks g !! k) -> is_Some (locks g1 !! k)).
  { intros k Hk. unfold g1, _unlock, _logOperation. cbn [set_locks locks].
    destruct (decide (k = k0)) as [->|Hne];
      [rewrite lookup_insert_eq; eauto | now rewrite lookup_insert_ne by congruence]. }
  destruct (pendingOperations g !! k0) as [[|nextOp pendingOps]|] eqn:Hk0;
    [now split| |now split].
  match goal with
  | |- context [enter k0 nextOp now ?g2] =>
      assert (Hq2 : forall k, pendingOperations g2 !! k <> Some []);
      [|pose proof (enter_locks k0 nextOp now g2 Hq2) as (Hl & _ & Hq');
        destruct (enter k0 nextOp now g2) as [[| |] g3]]
  end.
  { intros k. cbn [set_pendingOperations pendingOperations].
    destruct pendingOps as [|op' pendingOps].
    - destruct (decide (k = k0)) as [->|Hne];
        [now rewrite lookup_delete_eq | rewrite lookup_delete_ne by congruence; apply Hq].
    - destruct (decide (k = k0)) as [->|Hne];
        [now rewrite lookup_insert_eq | rewrite lookup_insert_ne by congruence; apply Hq]. }
  all: cbv zeta in *; cbn [snd] in *; split; [|exact Hq'];
    intros k Hk; apply Hl; cbn [set_pendingOperations locks]; now apply Hl1.
Qed.

(** X25. The two maps of the guard are kept differently.  A queue of
    waiting calls is deleted as soon as it is empty: [pendingOperations]
    never holds an empty queue.  A lock is never deleted: every key that
    was ever passed to [executeWithGuard] keeps its entry in [locks], also
    when nothing runs under it any more. *)
Theorem locks_are_never_deleted (actions : list (action Op)) (w : world Op) :
  run actions initial = Some w ->
  (forall k, pendingOperations (guard w) !! k <> Some [])
  /\ (forall k op now, Call k op now ∈ actions -> k <> "" ->
        is_Some (locks (guard w) !! k)).
Proof.
  assert (H : forall w0 w1 : world Op,
            run actions w0 = Some w1 ->
            (forall k, pendingOperations (guard w0) !! k <> Some []) ->
            (forall k, pendingOperations (guard w1) !! k <> Some [])
            /\ (forall k, is_Some (locks (guard w0) !! k) ->
                          is_Some (locks (guard w1) !! k))
            /\ (forall k op now, Call k op now ∈ actions -> k <> "" ->
                  is_Some (locks (guard w1) !! k))).
  { induction actions as [|a actions IH]; intros w0 w1 Hrun H0; simpl in Hrun.
    - injection Hrun as <-. split; [exact H0|]. split; [auto|].
      intros k op now Hin. now apply elem_of_nil in Hin.
    - destruct (step a w0) as [w0'|] eqn:Hstep; [|discriminate].
      assert (H0' : (forall k, pendingOperations (guard w0') !! k <> Some [])
                    /\ (forall k, is_Some (locks (guard w0) !! k) ->
                                  is_Some (locks (guard w0') !! k))
                    /\ (forall k op now, a = Call k op now -> k <> "" ->
                          is_Some (locks (guard w0') !! k))).
      { destruct a as [k0 op0 now0|k0 op0 success now0]; simpl in Hstep.
        - pose proof (enter_locks k0 op0 now0 (guard w0) H0) as (Hl & Hk0 & Hq).
          destruct (enter k0 op0 now0 (guard w0)) as [[| |] g'];
            injection Hstep as <-; cbv zeta in *; cbn [snd guard] in *;
            (split; [exact Hq|]; split; [exact Hl|];
             intros k op now [= -> _ _]; exact Hk0).
        - destruct (decide _); [|discriminate].
          pose proof (leave_locks k0 success now0 (guard w0) H0) as (Hl & Hq).
          destruct (leave k0 success now0 (guard w0)) as [[nextOp|] g'];
            injection Hstep as <-; cbv zeta in *; cbn [snd guard] in *;
            (split; [exact Hq|]; split; [exact Hl|]; discriminate). }
      destruct H0' as (Hq' & Hl' & Hcall).
      destruct (IH w0' w1 Hrun Hq') as (Hq1 & Hl1 & Hcalls).
      split; [exact Hq1|]. split; [auto|].
      intros k op now Hin Hk. apply elem_of_cons in Hin as [Heq|Hin].
      + apply Hl1. now apply (Hcall k op now).
      + now apply (Hcalls k op now). }
  intros Hrun. destruct (H initial w Hrun) as (Hq & _ & Hcalls).
  - intros k. cbn [initial guard new pendingOperations]. now rewrite lookup_empty.
  - now split.
Qed.

End Properties.

Lemma guard_exclusive_fifo_witness :
  let k := "queue_test" in
  let w := after_queue_test in
  (length (running_on k (running w)) <= 1)%nat
  /\ sequential k (trace w)
  /\ started_on k (trace w) ++ queue k (guard w) = calls_on k queue_test
  /\ finished_on k (trace w) ++ running_on k (running w) = started_on k (trace w)
  /\ (queue k (guard w) <> [] -> running_on k (running w) <> [])
  /\ (forall now, exists w',
        run (returns k now (running_on k (running w) ++ queue k (guard w))) w
        = Some w'
        /\ running_on k (running w') = [] /\ queue k (guard w') = []
        /\ started_on k (trace w') = calls_on k queue_test
        /\ finished_on k (trace w') = calls_on k queue_test
        /\ sequential k (trace w')).
Proof.
  apply (guard_exclusive_fifo "queue_test" queue_test after_queue_test).
  - discriminate.
  - vm_compute. reflexivity.
Defined.

Lemma operationLog_bounded_witness :
  (length (operationLog (guard after_queue_test)) <= 1000)%nat.
Proof.
  apply (operationLog_bounded queue_test after_queue_test).
  vm_compute. reflexivity.
Defined.

(** After the queue test has settled, both keys are unlocked and both
    still have their entry in [locks]. *)
Lemma locks_are_never_deleted_witness :
  let w := default initial
             (run (queue_test ++ returns "queue_test" 60 [2; 3]%nat
                   ++ returns "other" 70 [7]%nat) initial) in
  isLocked "queue_test" (guard w) = false
  /\ is_Some (locks (guard w) !! "queue_test")
  /\ is_Some (locks (guard w) !! "other").
Proof.
  cbv zeta. split; [vm_compute; reflexivity|].
  destruct (locks_are_never_deleted
              (queue_test ++ returns "queue_test" 60 [2; 3]%nat
               ++ returns "other" 70 [7]%nat)
              (default initial
                 (run (queue_test ++ returns "queue_test" 60 [2; 3]%nat
                       ++ returns "other" 70 [7]%nat) initial)))
    as [_ Hlocks]; [vm_compute; reflexivity|].
  split.
  - apply (Hlocks "queue_test" 1%nat 0); [set_solver | discriminate].
  - apply (Hlocks "other" 7%nat 0); [set_solver | discriminate].
Defined.

Example queue_test_state :
  started_on "queue_test" (trace after_queue_test) = [1; 2]%nat
  /\ running_on "queue_test" (running after_queue_test) = [2]%nat
  /\ queue "queue_test" (guard after_queue_test) = [3]%nat
  /\ running_on "other" (running after_queue_test) = [7]%nat
  /\ (trace <$> run (returns "queue_test" 60 [2; 3]%nat) after_queue_test)
     = Some [Started "queue_test" 1%nat; Started "other" 7%nat;
             Finished "queue_test" 1%nat; Started "queue_test" 2%nat;
             Finished "queue_test" 2%nat; Started "queue_test" 3%nat;
             Finished "queue_test" 3%nat].
Proof. vm_compute. repeat split. Qed.

End ReentrancyGuard.

(** ** SignatureVerifier

    The verifier that [createAndSendTransaction] calls on the transaction
    it has sent.  A message and a signature are the bytes of a [Buffer],
    a public key is a [PublicKey], as [verifyTransaction] passes them; the
    check of the signature itself is [nacl.sign.detached.verify].  The
    cache key is the string made of the hexadecimal forms of the message
    and the signature and of the printed key, joined by ['-'], a character
    none of the three contains: it is kept as the triple. *)

Module SignatureVerifier.

Record cached := Cached {
  isValid : bool;
  cached_timestamp : Z
}.

Record t := Verifier {
  verificationCache : gmap (string * string * string) cached;
  cacheTimeout : Z;
  lastCacheCleanup : Z
}.

Definition new (now : Z) : t :=
  {| verificationCache := ∅; cacheTimeout := 5 * 60 * 1000;
     lastCacheCleanup := now |}.

Definition set_verificationCache (s : t)
    (c : gmap (string * string * string) cached) : t :=
  {| verificationCache := c; cacheTimeout := cacheTimeout s;
     lastCacheCleanup := lastCacheCleanup s |}.

Definition _cleanupCache (now : Z) (s : t) : t :=
  if now - lastCacheCleanup s <? 60000 then s
  else
    {| verificationCache :=
         filter (fun kv => ¬ (cacheTimeout s < now - cached_timestamp (snd kv)))
                (verificationCache s);
       cacheTimeout := cacheTimeout s;
       lastCacheCleanup := now |}.

(** The three readings of the clock that one call of [verifySignature]
    can make: at the cache lookup, in [_cleanupCache], and when the result
    is stored. *)
Record clock := Clock {
  t_lookup : Z;
  t_cleanup : Z;
  t_store : Z
}.

(** A signature slot of a transaction: the signer's key, and the
    signature or [null]. *)
Record sigPair := SigPair {
  publicKey : string;
  signature : option string
}.

Section WithNacl.

(** [nacl.sign.detached.verify(message, signature, publicKey.toBytes())];
    [None] when it throws, as it does on a signature or a key of the wrong
    size. *)
Variable nacl_verify : string -> string -> string -> option bool.

(** [None] in the result is the error thrown by [nacl]. *)
Definition verifySignature (message signature publicKey : string) (c : clock)
    (s : t) : option bool * t :=
  let cacheKey := (message, signature, publicKey) in
  let fresh (s1 : t) :=
    let s2 := _cleanupCache (t_cleanup c) s1 in
    match nacl_verify message signature publicKey with
    | Some isValid =>
        (Some isValid,
         set_verificationCache s2
           (<[cacheKey := {| isValid := isValid; cached_timestamp := t_store c |}]>
              (verificationCache s2)))
    | None => (None, s2)
    end in
  match verificationCache s !! cacheKey with
  | Some cachedResult =>
      if t_lookup c - cached_timestamp cachedResult <? cacheTimeout s
      then (Some (isValid cachedResult), s)
      else fresh (set_verificationCache s (delete cacheKey (verificationCache s)))
  | None => fresh s
  end.

(** The loop of [verifyTransaction] over the signature slots; [k] counts
    the slots passed, [clocks k] are the readings for slot [k].  An error
    thrown on the way is caught, and the answer is false. *)
Fixpoint verify_slots (message : string) (signatures : list sigPair)
    (clocks : nat -> clock) (k : nat) (s : t) : bool * t :=
  match signatures with
  | [] => (true, s)
  | slot :: signatures' =>
      match signature slot with
      | None => verify_slots message signatures' clocks (S k) s
      | Some sig =>
          match verifySignature message sig (publicKey slot) (clocks k) s with
          | (Some true, s1) => verify_slots message signatures' clocks (S k) s1
          | (_, s1) => (false, s1)
          end
      end
  end.

(** [verifyTransaction(transaction)] for a transaction with the signature
    slots [signatures]; [serializeMessage] is the message that
    [transaction.serializeMessage()] returns, or [None] when it throws. *)
Definition verifyTransaction (signatures : list sigPair)
    (serializeMessage : option string) (clocks : nat -> clock) (s : t)
  : bool * t :=
  match signatures with
  | [] => (false, s)
  | _ =>
      match serializeMessage with
      | None => (false, s)
      | Some message => verify_slots message signatures clocks 0 s
      end
  end.

(** What [verifyTransaction] asks of a slot: to be empty, or to hold a
    signature that [nacl] accepts. *)
Definition accepted (message : string) (slot : sigPair) : bool :=
  match signature slot with
  | Some sig =>
      match nacl_verify message sig (publicKey slot) with
      | Some true => true
      | _ => false
      end
  | None => true
  end.

(** Every cached answer is the answer of [nacl_verify]. *)
Definition sound (s : t) : Prop :=
  forall message signature publicKey cachedResult,
    verificationCache s !! (message, signature, publicKey) = Some cachedResult ->
    nacl_verify message signature publicKey = Some (isValid cachedResult).

(** Successive calls of [verifySignature]. *)
Fixpoint verify_all (calls : list (string * string * string * clock)) (s : t)
  : list (option bool) * t :=
  match calls with
  | [] => ([], s)
  | (message, signature, publicKey, c) :: calls' =>
      let '(answer, s1) := verifySignature message signature publicKey c s in
      let '(answers, s2) := verify_all calls' s1 in
      (answer :: answers, s2)
  end.

Lemma sound_new now : sound (new now).
Proof. intros message signature publicKey cachedResult. unfold new; simpl.
       now rewrite lookup_empty. Qed.

Lemma sound_cleanupCache now s : sound s -> sound (_cleanupCache now s).
Proof.
  intros Hs. unfold _cleanupCache. destruct (_ <? _); [exact Hs|].
  intros message signature publicKey cachedResult. cbn [verificationCache].
  intros Hc. apply map_lookup_filter_Some in Hc as [Hc _]. now apply Hs.
Qed.

Lemma verifySignature_sound message signature publicKey c s :
  sound s ->
  fst (verifySignature message signature publicKey c s)
  = nacl_verify message signature publicKey
  /\ sound (snd (verifySignature message signature publicKey c s)).
Proof.
  intros Hs.
  assert (Hfresh : forall s1, sound s1 ->
            let r :=
              let s2 := _cleanupCache (t_cleanup c) s1 in
              match nacl_verify message signature publicKey with
              | Some isValid =>
                  (Some isValid,
                   set_verificationCache s2
                     (<[(message, signature, publicKey) :=
                          {| isValid := isValid; cached_timestamp := t_store c |}]>
                        (verificationCache s2)))
              | None => (None, s2)
              end in
            fst r = nacl_verify message signature publicKey /\ sound (snd r)).
  { intros s1 Hs1. pose proof (sound_cleanupCache (t_cleanup c) s1 Hs1) as Hs2.
    destruct (nacl_verify message signature publicKey) as [b|] eqn:Hb;
      cbn [fst snd]; (split; [reflexivity|]); [|exact Hs2].
    intros m sg pk cachedResult. cbn [set_verificationCache verificationCache].
    destruct (decide ((message, signature, publicKey) = (m, sg, pk)))
      as [[= <- <- <-]|Hne].
    - rewrite lookup_insert_eq. intros [= <-]. exact Hb.
    - rewrite lookup_insert_ne by exact Hne. apply Hs2. }
  unfold verifySignature.
  destruct (verificationCache s !! (message, signature, publicKey))
    as [cachedResult|] eqn:Hc.
  - destruct (_ <? _).
    + cbn [fst snd]. split; [symmetry; now apply Hs | exact Hs].
    + apply Hfresh.
      intros m sg pk cachedResult'. cbn [set_verificationCache verificationCache].
      intros Hd. apply lookup_delete_Some in Hd as [_ Hd]. now apply Hs.
  - now apply Hfresh.
Qed.

(** X26. The verification cache never changes an answer: whatever
    calls of [verifySignature] are made on a new verifier, at whatever
    clock readings, every call answers what [nacl.sign.detached.verify]
    answers for its message, signature and key, or throws when that
    throws. *)
Theorem cache_is_transparent (now : Z)
    (calls : list (string * string * string * clock)) :
  fst (verify_all calls (new now))
  = map (fun call => nacl_verify (fst (fst (fst call))) (snd (fst (fst call)))
                       (snd (fst call))) calls.
Proof.
  assert (H : forall s, sound s ->
            fst (verify_all calls s)
            = map (fun call => nacl_verify (fst (fst (fst call)))
                                 (snd (fst (fst call))) (snd (fst call))) calls).
  { induction calls as [|[[[message signature] publicKey] c] calls IH];
      intros s Hs; [reflexivity|].
    cbn [verify_all map fst snd].
    destruct (verifySignature_sound message signature publicKey c s Hs) as [Ha Hs1].
    destruct (verifySignature message signature publicKey c s) as [answer s1].
    cbn [fst snd] in Ha, Hs1. specialize (IH s1 Hs1).
    destruct (verify_all calls s1) as [answers s2]. cbn [fst] in *.
    now rewrite Ha, IH. }
  apply H, sound_new.
Qed.

Lemma verify_slots_spec message signatures clocks : forall k s,
  sound s ->
  fst (verify_slots message signatures clocks k s)
  = forallb (fun slot => accepted message slot) signatures
  /\ sound (snd (verify_slots message signatures clocks k s)).
Proof.
  induction signatures as [|slot signatures IH]; intros k s Hs; [now split|].
  cbn [verify_slots forallb]. unfold accepted at 1.
  destruct (signature slot) as [sig|].
  - destruct (verifySignature_sound message sig (publicKey slot) (clocks k) s Hs)
      as [Ha Hs1].
    destruct (verifySignature message sig (publicKey slot) (clocks k) s)
      as [isValid s1]. cbn [fst snd] in Ha, Hs1. rewrite <- Ha.
    destruct isValid as [[|]|]; [now apply IH | now split | now split].
  - now apply IH.
Qed.

(** X27. On a verifier whose cache is sound, as that of every verifier a
    program can reach, [verifyTransaction] answers false for a transaction
    without signature slots and when the message cannot be serialized;
    otherwise it answers true exactly when every slot that holds a
    signature holds one that [nacl] accepts.  Empty slots are passed over:
    a transaction whose slots are all empty is answered true. *)
Theorem verifyTransaction_spec (signatures : list sigPair)
    (serializeMessage : option string) (clocks : nat -> clock) (s : t) :
  sound s ->
  fst (verifyTransaction signatures serializeMessage clocks s)
  = match signatures, serializeMessage with
    | [], _ => false
    | _, None => false
    | _, Some message =>
        forallb (fun slot => accepted message slot) signatures
    end
  /\ (signatures <> [] -> serializeMessage <> None ->
      Forall (fun slot => signature slot = None) signatures ->
      fst (verifyTransaction signatures serializeMessage clocks s) = true)
  /\ sound (snd (verifyTransaction signatures serializeMessage clocks s)).
Proof.
  intros Hs.
  assert (Hmain : fst (verifyTransaction signatures serializeMessage clocks s)
                  = match signatures, serializeMessage with
                    | [], _ => false
                    | _, None => false
                    | _, Some message =>
                        forallb (fun slot => accepted message slot) signatures
                    end
                  /\ sound (snd (verifyTransaction signatures serializeMessage
                                   clocks s))).
  { unfold verifyTransaction. destruct signatures as [|slot signatures]; [now split|].
    destruct serializeMessage as [message|]; [|now split].
    apply (verify_slots_spec message (slot :: signatures) clocks 0 s Hs). }
  destruct Hmain as [Hfst Hsound]. split; [exact Hfst|]. split; [|exact Hsound].
  intros Hne Hmsg Hall. rewrite Hfst.
  destruct signatures as [|slot signatures]; [congruence|].
  destruct serializeMessage as [message|]; [|congruence].
  apply forallb_forall. intros p Hp.
  rewrite List.Forall_forall in Hall. unfold accepted. now rewrite (Hall p Hp).
Qed.

End WithNacl.

(** A transaction with two signers and no signature, on a new verifier,
    under a check that accepts nothing. *)
Lemma verifyTransaction_spec_witness :
  fst (verifyTransaction (fun _ _ _ => Some false)
         [SigPair "payer" None; SigPair "sender" None] (Some "message")
         (fun _ => Clock 0 0 0) (new 0)) = true.
Proof.
  destruct (verifyTransaction_spec (fun _ _ _ => Some false)
              [SigPair "payer" None; SigPair "sender" None] (Some "message")
              (fun _ => Clock 0 0 0) (new 0)) as (_ & Hempty & _).
  - apply sound_new.
  - apply Hempty; [discriminate | discriminate | repeat constructor].
Defined.

End SignatureVerifier.
